(** * A permission-gated, path-addressed store: model of [src/store.ts]

    The development embeds the TypeScript class [Store] and its helper
    functions as Rocq functions over an explicit program state, and proves
    the properties the specification states about them.

    Modelling choices, each taken from the source:
    - [Store] instances are mutable objects with identity: they live in a
      heap ([stores]) and are referred to by location, so that aliasing and
      in-place mutation are visible.
    - [permissionsMap] is the module-level [WeakMap] keyed by objects
      (instances or class prototypes).
    - Producer functions are closures: their captured environment lives in
      the state ([producers]) and every call may change it.
    - A method either returns, or throws an [Error]; the state reached when
      the exception is thrown is kept.
    - Slots are addressed by ordinary key names.  For a name that an
      instance only inherits from its prototype chain (the methods of
      [Store.prototype] and the properties of [Object.prototype], listed in
      [inherited_names]) the source's [key in this] holds and [this[key]]
      reaches the inherited property.  The model's [in_this] is membership
      among the instance's own properties: it follows the source on every
      other name.  The properties that read or assign a slot under an
      arbitrary key are therefore stated for ordinary names ([ordinary],
      [ordinary_path], [ordinary_keys]), on states in which no slot bears an
      inherited name ([intact]).  Classes derived from [Store] are taken to
      add fields and [Restrict] declarations, not methods or accessors. *)

From Stdlib Require Import ZArith Ascii String.
From stdpp Require Import base option list strings gmap.

Set Default Proof Using "Type".

(** ** Values *)

(** [type Permission = "r" | "w" | "rw" | "none"] *)
Inductive Permission : Type := PermR | PermW | PermRW | PermNone.

#[global] Instance Permission_eq_dec : EqDecision Permission.
Proof. solve_decision. Defined.

(** Modelled from the spec: [json-types.ts] is imported by the source but is
    not part of it.  The spec lists the JSON primitives as string, number,
    boolean and null, and JSON arrays and objects as plain data.  Numbers are
    carried as integers; an object is the sequence [Object.entries] yields. *)
Inductive JSONPrimitive : Type :=
  | JString (s : string)
  | JNumber (n : Z)
  | JBoolean (b : bool)
  | JNull.

#[local] Unset Elimination Schemes.
Inductive JSONValue : Type :=
  | JPrim (p : JSONPrimitive)
  | JArr (a : list JSONValue)
  | JObj (o : list (string * JSONValue)).
#[local] Set Elimination Schemes.

Abbreviation JSONArray := (list JSONValue).
Abbreviation JSONObject := (list (string * JSONValue)).

(** Heap locations of [Store] instances, identifiers of closures and of
    prototype objects. *)
Abbreviation loc := nat.
Abbreviation fid := nat.
Abbreviation ProtoId := nat.

(** [type StoreResult = Store | JSONPrimitive | undefined].  The source obtains
    a [StoreResult] from any non-function value by a cast ([value as
    StoreResult]), so at run time it also carries arrays and plain objects:
    [RJson] holds any JSON value. *)
Inductive StoreResult : Type :=
  | RUndefined
  | RJson (j : JSONValue)
  | RStore (s : loc).

(** [type StoreValue = JSONObject | JSONArray | StoreResult | (() => StoreResult)] *)
Inductive StoreValue : Type :=
  | SResult (r : StoreResult)
  | SFun (f : fid).

(** ** Objects and program state *)

(** [Object.prototype] and [Store.prototype]. *)
Definition ObjectPrototype : ProtoId := 0.
Definition StorePrototype : ProtoId := 1.

(** A [Store] instance.  [prototypes] is the chain obtained by iterating
    [Object.getPrototypeOf] from the instance until [null]; it is finite
    because an ECMAScript prototype chain cannot be made cyclic.  [fields]
    are the own enumerable properties other than the two declared by
    [Store] itself, in [Object.keys] order.  [dynamicValues] is the [Map],
    in insertion order. *)
Record StoreObj : Type := mkStore {
  prototypes : list ProtoId;
  fields : list (string * StoreValue);
  defaultPolicy : Permission;
  dynamicValues : list (string * StoreValue);
}.

(** A zero-argument function value: its captured environment (abstracted as
    a number) and its code, which returns a result and the new environment.
    A call changes nothing but the closure's own environment: the
    specification requires producers not to touch the container. *)
Record Producer : Type := mkProducer {
  env : nat;
  body : nat -> StoreResult * nat;
}.

(** Keys of [permissionsMap]: a specific instance, or a prototype object. *)
Inductive Owner : Type :=
  | OInstance (l : loc)
  | OPrototype (p : ProtoId).

#[global] Instance Owner_eq_dec : EqDecision Owner.
Proof. solve_decision. Defined.

#[global] Instance Owner_countable : Countable Owner.
Proof.
  refine (inj_countable'
    (fun o => match o with OInstance l => inl l | OPrototype p => inr p end)
    (fun s => match s with inl l => OInstance l | inr p => OPrototype p end) _).
  by intros [].
Defined.

Record State : Type := mkState {
  stores : list StoreObj;
  producers : list Producer;
  permissionsMap : gmap Owner (gmap string Permission);
}.

Definition set_stores (f : list StoreObj -> list StoreObj) (st : State) : State :=
  mkState (f (stores st)) (producers st) (permissionsMap st).
Definition set_producers (f : list Producer -> list Producer) (st : State) : State :=
  mkState (stores st) (f (producers st)) (permissionsMap st).
Definition set_permissionsMap
    (f : gmap Owner (gmap string Permission) -> gmap Owner (gmap string Permission))
    (st : State) : State :=
  mkState (stores st) (producers st) (f (permissionsMap st)).

(** ** Exceptions and the state-and-exception monad *)

(** [throw new Error(message)] *)
Inductive Error : Type := MkError (message : string).

Definition ReadDenied (key : string) : Error :=
  MkError ("Read access denied for key: " +:+ key).
Definition WriteDenied (key : string) : Error :=
  MkError ("Write access denied for key: " +:+ key).

Inductive Outcome (A : Type) : Type :=
  | Returns (a : A)
  | Throws (e : Error).
Arguments Returns {A} a.
Arguments Throws {A} e.

(** A computation maps the state to an outcome and the state reached.
    [None] means the model has no run: a dangling location (which the
    language excludes) or exhausted fuel in [entries]. *)
Definition M (A : Type) : Type := State -> option (Outcome A * State).

Definition ret {A} (a : A) : M A := fun st => Some (Returns a, st).
Definition throw {A} (e : Error) : M A := fun st => Some (Throws e, st).
Definition bind {A B} (m : M A) (k : A -> M B) : M B :=
  fun st =>
    match m st with
    | Some (Returns a, st') => k a st'
    | Some (Throws e, st') => Some (Throws e, st')
    | None => None
    end.
Definition gets {A} (f : State -> option A) : M A :=
  fun st => match f st with Some a => Some (Returns a, st) | None => None end.
Definition modify (f : State -> State) : M unit :=
  fun st => Some (Returns tt, f st).

Notation "'let*' x ':=' m 'in' k" := (bind m (fun x => k))
  (at level 10, x name, m at level 100, k at level 200).
Notation "'exec' m 'in' k" := (bind m (fun _ => k))
  (at level 10, m at level 100, k at level 200).

(** ** JavaScript [Map] and property access on an ordered association list *)

Fixpoint assoc_get {V} (m : list (string * V)) (key : string) : option V :=
  match m with
  | [] => None
  | (k, v) :: m' => if decide (k = key) then Some v else assoc_get m' key
  end.

(** [m.set(key, value)] / [obj[key] = value]: an existing key keeps its place. *)
Fixpoint assoc_set {V} (m : list (string * V)) (key : string) (value : V)
    : list (string * V) :=
  match m with
  | [] => [(key, value)]
  | (k, v) :: m' =>
      if decide (k = key) then (k, value) :: m'
      else (k, v) :: assoc_set m' key value
  end.

Definition assoc_has {V} (m : list (string * V)) (key : string) : bool :=
  bool_decide (is_Some (assoc_get m key)).

(** [Array.from(new Set(keys))]: duplicates collapse onto the first occurrence. *)
Fixpoint unique_from (seen keys : list string) : list string :=
  match keys with
  | [] => []
  | k :: keys' =>
      if decide (k ∈ seen) then unique_from seen keys'
      else k :: unique_from (k :: seen) keys'
  end.
Definition unique (keys : list string) : list string := unique_from [] keys.

(** ** Paths: [path.split(":")] and [rest.join(":")] *)

Definition colon : ascii := ":"%char.

Fixpoint split (path : string) : list string :=
  match path with
  | EmptyString => [""]
  | String c path' =>
      if decide (c = colon) then "" :: split path'
      else match split path' with
           | seg :: segs => String c seg :: segs
           | [] => [String c ""]
           end
  end.

Fixpoint join (segs : list string) : string :=
  match segs with
  | [] => ""
  | [seg] => seg
  | seg :: segs' => seg +:+ String colon (join segs')
  end.

Fixpoint colon_free (s : string) : bool :=
  match s with
  | EmptyString => true
  | String c s' => negb (bool_decide (c = colon)) && colon_free s'
  end.

(** ** Permission registry *)

(** [Restrict(permission)(target, propertyKey)]; the caller passes the
    default argument ["none"] explicitly. *)
Definition Restrict (permission : Permission) (target : Owner) (key : string)
    : M unit :=
  modify (set_permissionsMap (fun pm =>
    let pm1 := if bool_decide (is_Some (pm !! target)) then pm
               else <[target := ∅]> pm in
    match pm1 !! target with
    | Some perms => <[target := <[key := permission]> perms]> pm1
    | None => pm1
    end)).

(** The [while (prototype)] loop of [getPermissionForKey]. *)
Fixpoint walkPrototypes (pm : gmap Owner (gmap string Permission))
    (chain : list ProtoId) (key : string) : option Permission :=
  match chain with
  | [] => None
  | prototype :: chain' =>
      match pm !! OPrototype prototype ≫= (.!! key) with
      | Some permission => Some permission
      | None => walkPrototypes pm chain' key
      end
  end.

Definition getPermissionForKey (st : State) (instance : loc) (key : string)
    : option Permission :=
  obj ← stores st !! instance;
  match permissionsMap st !! OInstance instance ≫= (.!! key) with
  | Some permission => Some permission
  | None =>
      match walkPrototypes (permissionsMap st) (prototypes obj) key with
      | Some permission => Some permission
      | None => Some (defaultPolicy obj)
      end
  end.

(** ** Helpers *)

Definition isJSONObject (value : StoreValue) : bool :=
  match value with
  | SResult (RJson (JObj _)) => true
  | _ => false
  end.

(** [new Store()] *)
Definition emptyStore : StoreObj :=
  mkStore [StorePrototype; ObjectPrototype] [] PermRW [].

Definition newStore : M loc :=
  fun st => Some (Returns (length (stores st)),
                  set_stores (fun ss => ss ++ [emptyStore]) st).

(** Calling a closure: the value it returns and the closure afterwards. *)
Definition result (p : Producer) : StoreResult := (body p (env p)).1.
Definition called (p : Producer) : Producer :=
  mkProducer (body p (env p)).2 (body p).

Definition resolveValue (value : StoreValue) : M StoreResult :=
  match value with
  | SFun f =>
      fun st =>
        p ← producers st !! f;
        Some (Returns (result p),
              set_producers (fun ps => <[f := called p]> ps) st)
  | SResult r => ret r
  end.

(** ** The [Store] class *)

Definition allowedToRead (st : State) (this : loc) (key : string) : option bool :=
  permission ← getPermissionForKey st this key;
  Some (bool_decide (permission = PermR) || bool_decide (permission = PermRW)).

Definition allowedToWrite (st : State) (this : loc) (key : string) : option bool :=
  permission ← getPermissionForKey st this key;
  Some (bool_decide (permission = PermW) || bool_decide (permission = PermRW)).

(** [key in this], for a key that is not an inherited name
    ([inherited_names] below): an own property of the instance. *)
Definition in_this (obj : StoreObj) (key : string) : bool :=
  bool_decide (key = "defaultPolicy") || bool_decide (key = "dynamicValues")
  || assoc_has (fields obj) key.

Definition is_slot_field (obj : StoreObj) (key : string) : bool :=
  in_this obj key && negb (bool_decide (key = "dynamicValues"))
  && negb (bool_decide (key = "defaultPolicy")).

Definition undefined : StoreValue := SResult RUndefined.

Definition rawValueOf (obj : StoreObj) (key : string) : StoreValue :=
  if is_slot_field obj key then default undefined (assoc_get (fields obj) key)
  else default undefined (assoc_get (dynamicValues obj) key).

Definition getRawValue (this : loc) (key : string) : M StoreValue :=
  gets (fun st => obj ← stores st !! this; Some (rawValueOf obj key)).

Definition withRawValue (obj : StoreObj) (key : string) (value : StoreValue)
    : StoreObj :=
  if is_slot_field obj key
  then mkStore (prototypes obj) (assoc_set (fields obj) key value)
               (defaultPolicy obj) (dynamicValues obj)
  else mkStore (prototypes obj) (fields obj) (defaultPolicy obj)
               (assoc_set (dynamicValues obj) key value).

Definition setRawValue (this : loc) (key : string) (value : StoreValue) : M unit :=
  fun st =>
    obj ← stores st !! this;
    Some (Returns tt,
          set_stores (fun ss => <[this := withRawValue obj key value]> ss) st).

Definition ownKeys (obj : StoreObj) : list string :=
  "defaultPolicy" :: "dynamicValues" :: (fields obj).*1.

Definition allKeysOf (obj : StoreObj) : list string :=
  let classKeys :=
    filter (fun k => k ≠ "dynamicValues" ∧ k ≠ "defaultPolicy") (ownKeys obj) in
  let dynamicKeys := (dynamicValues obj).*1 in
  unique (classKeys ++ dynamicKeys).

Definition getAllKeys (this : loc) : M (list string) :=
  gets (fun st => obj ← stores st !! this; Some (allKeysOf obj)).

(** [read], after [const [key, ...rest] = path.split(":")].  The recursive
    call [value.read(rest.join(":"))] splits the joined rest again, which
    gives back [rest] ([split_join] below). *)
Fixpoint read_from (this : loc) (key : string) (rest : list string)
    : M StoreResult :=
  let* allowed := gets (fun st => allowedToRead st this key) in
  if negb allowed then throw (ReadDenied key)
  else
    let* rawValue := getRawValue this key in
    let* value := resolveValue rawValue in
    match rest with
    | [] => ret value
    | key' :: rest' =>
        match value with
        | RStore nested => read_from nested key' rest'
        | _ => ret RUndefined
        end
    end.

Definition read (this : loc) (path : string) : M StoreResult :=
  let segs := split path in
  read_from this (hd "" segs) (tl segs).

(** [write], with the conversion of a plain object left as a parameter: the
    source's [write] and [convertToStoreValue] call each other, and the knot
    is tied below. *)
Section WriteFrom.
Variable convert : JSONValue -> M StoreValue.

Fixpoint write_from (this : loc) (key : string) (rest : list string)
    (value : StoreValue) : M StoreValue :=
  match rest with
  | [] =>
      let* allowed := gets (fun st => allowedToWrite st this key) in
      if negb allowed then throw (WriteDenied key)
      else
        let* storeValue := match value with
          | SResult (RJson (JObj o)) => convert (JObj o)
          | _ => ret value
          end in
        exec setRawValue this key storeValue in
        ret storeValue
  | key' :: rest' =>
      let* allowed := gets (fun st => allowedToRead st this key) in
      if negb allowed then throw (ReadDenied key)
      else
        let* rawValue := getRawValue this key in
        let* nestedStore := resolveValue rawValue in
        match nestedStore with
        | RStore nested => write_from nested key' rest' value
        | _ =>
            let* allowedW := gets (fun st => allowedToWrite st this key) in
            if negb allowedW then throw (WriteDenied key)
            else
              let* nested := newStore in
              exec setRawValue this key (SResult (RStore nested)) in
              write_from nested key' rest' value
        end
  end.

Definition write_with (this : loc) (path : string) (value : StoreValue)
    : M StoreValue :=
  let segs := split path in
  write_from this (hd "" segs) (tl segs) value.

(** The loop of [writeEntries]. *)
Fixpoint writeEntries_with (convertEntry : JSONValue -> M StoreValue)
    (this : loc) (entries : JSONObject) : M unit :=
  match entries with
  | [] => ret tt
  | (key, value) :: entries' =>
      let* storeValue := convertEntry value in
      exec write_with this key storeValue in
      writeEntries_with convertEntry this entries'
  end.
End WriteFrom.

(** The value [writeEntries] hands to [write] comes out of
    [convertToStoreValue] and is never a plain object, so the conversion
    inside that [write] is never reached ([convert_not_object] below). *)
Definition unreachable : JSONValue -> M StoreValue := fun _ _ => None.

Fixpoint convertToStoreValue (value : JSONValue) : M StoreValue :=
  match value with
  | JObj entries =>
      let* store := newStore in
      exec (fix writeEntries (entries : JSONObject) : M unit :=
         match entries with
         | [] => ret tt
         | (key, v) :: entries' =>
             let* storeValue := convertToStoreValue v in
             exec write_with unreachable store key storeValue in
             writeEntries entries'
         end) entries in
      ret (SResult (RStore store))
  | _ => ret (SResult (RJson value))
  end.

Definition write (this : loc) (path : string) (value : StoreValue) : M StoreValue :=
  write_with convertToStoreValue this path value.

Definition writeEntries (this : loc) (entries : JSONObject) : M unit :=
  writeEntries_with convertToStoreValue convertToStoreValue this entries.

(** [entries].  A store nested in itself makes the source recurse for ever;
    the model counts the nesting depth down and has no run when it reaches
    zero.  The result object lists its keys in the order of their first
    assignment. *)
Section EntriesLoop.
Variable entriesOf : loc -> M JSONObject.

Fixpoint entries_loop (this : loc) (keys : list string) (result : JSONObject)
    : M JSONObject :=
  match keys with
  | [] => ret result
  | key :: keys' =>
      let* allowed := gets (fun st => allowedToRead st this key) in
      if allowed then
        let* rawValue := getRawValue this key in
        let* value := resolveValue rawValue in
        match value with
        | RStore nested =>
            let* sub := entriesOf nested in
            entries_loop this keys' (assoc_set result key (JObj sub))
        | RJson j => entries_loop this keys' (assoc_set result key j)
        | RUndefined => entries_loop this keys' result
        end
      else entries_loop this keys' result
  end.
End EntriesLoop.

Fixpoint entries (depth : nat) (this : loc) : M JSONObject :=
  match depth with
  | O => fun _ => None
  | S depth' =>
      let* allKeys := getAllKeys this in
      entries_loop (entries depth') this allKeys []
  end.

(** ** Definitions used to state the properties *)

(** [resolveValue(this.getRawValue(key))] *)
Definition resolvedValueAt (this : loc) (key : string) : M StoreResult :=
  let* rawValue := getRawValue this key in
  resolveValue rawValue.

(** What [owner] declares for [key] in the registry, if anything. *)
Definition declared (st : State) (owner : Owner) (key : string)
    : option Permission :=
  permissionsMap st !! owner ≫= (.!! key).

(** The resolution order in the words of the specification: the
    instance-specific override, else the first match among the instance's
    type and its ancestor types from nearest to furthest, else the
    instance's own default policy. *)
Definition resolution_order (st : State) (instance : loc) (obj : StoreObj)
    (key : string) : Permission :=
  match declared st (OInstance instance) key with
  | Some override => override
  | None =>
      match head (omap (fun type => declared st (OPrototype type) key)
                       (prototypes obj)) with
      | Some firstMatch => firstMatch
      | None => defaultPolicy obj
      end
  end.

(** No owner declares a permission for [key]. *)
Definition undeclared (st : State) (instance : loc) (obj : StoreObj)
    (key : string) : Prop :=
  declared st (OInstance instance) key = None ∧
  ∀ type, type ∈ prototypes obj → declared st (OPrototype type) key = None.

(** Every permission declared for [key], by whatever owner, is read-write. *)
Definition unrestricted (st : State) (key : string) : Prop :=
  ∀ owner permission, declared st owner key = Some permission → permission = PermRW.

Definition num (n : Z) : JSONValue := JPrim (JNumber n).
Definition str (s : string) : JSONValue := JPrim (JString s).
Definition json (j : JSONValue) : StoreValue := SResult (RJson j).
Definition ref (s : loc) : StoreValue := SResult (RStore s).

Definition is_store (r : StoreResult) : bool :=
  match r with RStore _ => true | _ => false end.

(** The state after [nestedStore = new Store(); this.setRawValue(key,
    nestedStore)], [obj] being the object at [this]. *)
Definition vivify (st : State) (this : loc) (obj : StoreObj) (key : string)
    : State :=
  set_stores (fun ss =>
    <[this := withRawValue obj key (ref (length ss))]> (ss ++ [emptyStore])) st.

(** The state after [this.setRawValue(key, value)]. *)
Definition stored (st : State) (this : loc) (obj : StoreObj) (key : string)
    (value : StoreValue) : State :=
  set_stores (fun ss => <[this := withRawValue obj key value]> ss) st.

(** The state after the closure [f] has been called. *)
Definition invoked (st : State) (f : fid) (p : Producer) : State :=
  set_producers (fun ps => <[f := called p]> ps) st.

(** The last lines of the terminal branch of [write], after its permission
    check: convert a plain object, store, return what was stored. *)
Definition storeTerminal (this : loc) (key : string) (value : StoreValue)
    : M StoreValue :=
  let* storeValue :=
    match value with
    | SResult (RJson (JObj o)) => convertToStoreValue (JObj o)
    | _ => ret value
    end in
  exec setRawValue this key storeValue in
  ret storeValue.

(** The state after [write("a:b:c", 42)] has replaced slot ["a"] of [c] by a
    new store, slot ["b"] of that store by a second new store, and has
    stored 42 under ["c"] there. *)
Definition after_abc (st : State) (c : loc) (obj : StoreObj) : State :=
  let stA := vivify st c obj "a" in
  let stB := vivify stA (length (stores st)) emptyStore "b" in
  stored stB (length (stores stA)) emptyStore "c" (json (num 42)).

(** The state a computation leaves, whatever its outcome. *)
Definition state_after {A} (m : M A) (st : State) : State :=
  match m st with Some (_, st') => st' | None => st end.

(** *** The snapshot in the words of the specification *)

(** The union of the declared and the dynamic slot names, as a set. *)
Definition declared_slots (obj : StoreObj) : list string :=
  filter (fun k => k ≠ "dynamicValues" ∧ k ≠ "defaultPolicy") (fields obj).*1.
Definition dynamic_slots (obj : StoreObj) : list string :=
  (dynamicValues obj).*1.
Definition slot_names (obj : StoreObj) : list string :=
  unique (declared_slots obj ++ dynamic_slots obj).

(** [snapshot st this result st']: from state [st] the snapshot of the
    container [this] is [result], and resolving its slots leaves the state
    [st'].  A key that is not readable is left out; so is a key that
    resolves to [undefined]; a key that resolves to a container is mapped to
    that container's own snapshot; any other key is mapped to its resolved
    value as it is. *)
Inductive snapshot : State -> loc -> JSONObject -> State -> Prop :=
  | snapshot_of st this obj result st' :
      stores st !! this = Some obj ->
      snapshot_slots st this (slot_names obj) result st' ->
      snapshot st this result st'
with snapshot_slots : State -> loc -> list string -> JSONObject -> State -> Prop :=
  | slots_done st this :
      snapshot_slots st this [] [] st
  | slot_unreadable st this key keys result st' :
      allowedToRead st this key = Some false ->
      snapshot_slots st this keys result st' ->
      snapshot_slots st this (key :: keys) result st'
  | slot_undefined st this key keys result st1 st' :
      allowedToRead st this key = Some true ->
      resolvedValueAt this key st = Some (Returns RUndefined, st1) ->
      snapshot_slots st1 this keys result st' ->
      snapshot_slots st this (key :: keys) result st'
  | slot_container st this key keys nested sub result st1 st2 st' :
      allowedToRead st this key = Some true ->
      resolvedValueAt this key st = Some (Returns (RStore nested), st1) ->
      snapshot st1 nested sub st2 ->
      snapshot_slots st2 this keys result st' ->
      snapshot_slots st this (key :: keys) ((key, JObj sub) :: result) st'
  | slot_value st this key keys j result st1 st' :
      allowedToRead st this key = Some true ->
      resolvedValueAt this key st = Some (Returns (RJson j), st1) ->
      snapshot_slots st1 this keys result st' ->
      snapshot_slots st this (key :: keys) ((key, j) :: result) st'.

Scheme snapshot_mut := Minimality for snapshot Sort Prop
  with snapshot_slots_mut := Minimality for snapshot_slots Sort Prop.

(** *** Relations between states *)

(** Nothing that decides a permission has changed for the objects that
    existed in [st]: the registry, their prototype chains and their default
    policies. *)
Definition policy_preserved (st st' : State) : Prop :=
  permissionsMap st' = permissionsMap st ∧
  ∀ l obj, stores st !! l = Some obj →
    ∃ obj', stores st' !! l = Some obj' ∧
            prototypes obj' = prototypes obj ∧
            defaultPolicy obj' = defaultPolicy obj.

(** The objects below location [b], the closures and the registry are as
    they were; objects may have been created. *)
Definition frame (b : nat) (st st' : State) : Prop :=
  (∀ l, l < b → stores st' !! l = stores st !! l) ∧
  length (stores st) ≤ length (stores st') ∧
  producers st' = producers st ∧
  permissionsMap st' = permissionsMap st.

(** A slot value that is plain data or a store at or above [b]. *)
Definition closed_value (b : nat) (value : StoreValue) : Prop :=
  match value with
  | SResult (RStore nested) => b ≤ nested
  | SResult _ => True
  | SFun _ => False
  end.

(** Every slot of every object at or above [b] holds a closed value: from
    such an object a traversal only reaches objects at or above [b]. *)
Definition region (b : nat) (st : State) : Prop :=
  ∀ l obj key, b ≤ l → stores st !! l = Some obj →
    closed_value b (rawValueOf obj key).

(** *** Concrete programs used as instances *)

Definition baseStore (policy : Permission) : StoreObj :=
  mkStore [StorePrototype; ObjectPrototype] [] policy [].

(** One fresh [Store], nothing declared. *)
Definition st_empty : State := mkState [emptyStore] [] ∅.

(** A type declares ["x": "r"], the instance declares ["x": "w"]. *)
Definition st_override : State :=
  state_after
    (exec Restrict PermR (OPrototype StorePrototype) "x" in
     Restrict PermW (OInstance 0) "x")
    (mkState [baseStore PermNone] [] ∅).

(** A store whose [defaultPolicy] is ["none"]. *)
Definition st_none : State := mkState [baseStore PermNone] [] ∅.

(** A store whose [defaultPolicy] is ["w"]. *)
Definition st_writeonly : State := mkState [baseStore PermW] [] ∅.

(** The empty store after [write("k", 5)]. *)
Definition st_k5 : State := stored st_empty 0 emptyStore "k" (json (num 5)).

(** The write-only store after [write("defaultPolicy", 5)]. *)
Definition st_writeonly_dp : State :=
  stored st_writeonly 0 (baseStore PermW) "defaultPolicy" (json (num 5)).

(** A fresh store after [write("defaultPolicy", "none")]. *)
Definition st_empty_dp : State :=
  stored st_empty 0 emptyStore "defaultPolicy" (json (str "none")).

(** A fresh store on which the instance declares ["b": "r"], and the
    entries [{a: 1, b: 2, c: 3}] to import. *)
Definition st_readonly_b : State :=
  state_after (Restrict PermR (OInstance 0) "b") st_empty.
Definition entries_abc : JSONObject :=
  [("a", num 1); ("b", num 2); ("c", num 3)].


(** The snapshot [{a: {b: {c: 42}}}]. *)
Definition abc42 : JSONObject := [("a", JObj [("b", JObj [("c", num 42)])])].

(** A read-write store that already holds ["z": 1]. *)
Definition st_z : State :=
  mkState [mkStore [StorePrototype; ObjectPrototype] [] PermRW
             [("z", json (num 1))]] [] ∅.

(** A read-write store whose slot ["a"] holds a store with default policy
    ["none"]. *)
Definition st_nested_none : State :=
  mkState [mkStore [StorePrototype; ObjectPrototype] [] PermRW [("a", ref 1)];
           baseStore PermNone] [] ∅.

(** A read-write store whose slot ["a"] holds a producer that returns two
    empty stores in turn. *)
Definition flip : Producer :=
  mkProducer 0 (fun i => (RStore (if Nat.even i then 1 else 2), S i)).
Definition st_flip : State :=
  mkState [mkStore [StorePrototype; ObjectPrototype] [] PermRW [("a", SFun 0)];
           emptyStore; emptyStore] [flip] ∅.

(** A store with ["pub"] under the default policy and ["secret"] declared
    write-only. *)
Definition st_pub_secret : State :=
  state_after (Restrict PermW (OPrototype StorePrototype) "secret")
    (mkState [mkStore [StorePrototype; ObjectPrototype] [] PermRW
                [("pub", json (num 1)); ("secret", json (num 2))]] [] ∅).

(** [let i = 0; const counter = () => ++i], stored under ["n"]. *)
Definition counter : Producer :=
  mkProducer 0 (fun i => (RJson (num (Z.of_nat (S i))), S i)).
Definition st_counter : State :=
  mkState [mkStore [StorePrototype; ObjectPrototype] [] PermRW [("n", SFun 0)]]
          [counter] ∅.

(** The empty store after [convertToStoreValue({in: 2})]. *)
Definition st_in2 : State :=
  state_after (convertToStoreValue (JObj [("in", num 2)])) st_empty.

(** *** Definitions for the further properties *)

(** Every object of [st] is still there in [st'] and related to what it was
    by [R]. *)
Definition objectwise (R : StoreObj -> StoreObj -> Prop) (st st' : State)
    : Prop :=
  ∀ l obj, stores st !! l = Some obj →
    ∃ obj', stores st' !! l = Some obj' ∧ R obj obj'.

(** [obj'] has the own fields of [obj], and every slot name of [obj]. *)
Definition keeps_slots (obj obj' : StoreObj) : Prop :=
  (fields obj').*1 = (fields obj).*1 ∧
  ∀ k, k ∈ allKeysOf obj → k ∈ allKeysOf obj'.

(** [e] is an access error for a key that some container of [st] denies. *)
Definition access_denied (e : Error) (st : State) : Prop :=
  ∃ container key,
    (e = ReadDenied key ∧ allowedToRead st container key = Some false) ∨
    (e = WriteDenied key ∧ allowedToWrite st container key = Some false).

(** A store on whose type ["b"] is declared ["none"]. *)
Definition st_b_none : State :=
  state_after (Restrict PermNone (OPrototype StorePrototype) "b") st_empty.

(** How deep the plain objects of a JSON value nest (arrays are not
    entered: [convertToStoreValue] leaves them as they are). *)
Fixpoint json_depth (j : JSONValue) : nat :=
  match j with
  | JObj o =>
      S ((fix deepest (o : JSONObject) : nat :=
            match o with
            | [] => 0
            | (_, v) :: o' => json_depth v `max` deepest o'
            end) o)
  | _ => 0
  end.

(** The keys of a plain object and of the plain objects nested in it. *)
Fixpoint object_keys (j : JSONValue) : list string :=
  match j with
  | JObj o =>
      (fix each (o : JSONObject) : list string :=
         match o with
         | [] => []
         | (k, v) :: o' => k :: object_keys v ++ each o'
         end) o
  | _ => []
  end.

(** Within every plain object the keys are distinct (as the keys of a
    JavaScript object are) and none contains a colon. *)
Fixpoint well_keyed (j : JSONValue) : Prop :=
  match j with
  | JObj o =>
      NoDup o.*1 ∧
      (fix each (o : JSONObject) : Prop :=
         match o with
         | [] => True
         | (k, v) :: o' => colon_free k = true ∧ well_keyed v ∧ each o'
         end) o
  | _ => True
  end.

(** [st''] has the objects of [st] at the locations from [lo] up to [hi],
    and its registry. *)
Definition agrees (lo hi : nat) (st st'' : State) : Prop :=
  (∀ l, lo ≤ l < hi → stores st'' !! l = stores st !! l) ∧
  permissionsMap st'' = permissionsMap st.

(** The value found in a plain object by following a path of keys through
    its nested plain objects. *)
Fixpoint json_at (o : JSONObject) (key : string) (rest : list string)
    : option JSONValue :=
  match assoc_get o key with
  | Some v =>
      match rest with
      | [] => Some v
      | key' :: rest' =>
          match v with
          | JObj o' => json_at o' key' rest'
          | _ => None
          end
      end
  | None => None
  end.

(** In state [st] the slot value [sv] stands for the JSON value [v]: it is
    [v] itself, or, for a plain object, a store whose snapshot is [v]. *)
Definition shown (st : State) (sv : StoreValue) (v : JSONValue) : Prop :=
  match v with
  | JObj o =>
      ∃ l, sv = ref l ∧
           ∀ depth, json_depth v ≤ depth →
                    entries depth l st = Some (Returns o, st)
  | _ => sv = json v
  end.

(** In state [st], reading the store [l] along a path that leads to a value
    of the plain object [o] returns what stands for that value. *)
Definition reads_as (st : State) (l : loc) (o : JSONObject) : Prop :=
  ∀ key rest v, json_at o key rest = Some v →
    ∃ r, read_from l key rest st = Some (Returns r, st) ∧
         shown st (SResult r) v.

(** [sv] stands for [v] both in snapshots and in reads. *)
Definition shown_deep (st : State) (sv : StoreValue) (v : JSONValue) : Prop :=
  match v with
  | JObj o =>
      ∃ l, sv = ref l ∧
           (∀ depth, json_depth v ≤ depth →
                     entries depth l st = Some (Returns o, st)) ∧
           reads_as st l o
  | _ => sv = json v
  end.

(** [sv] stands for [v] by means of the objects of [st] from [lo] up to
    [hi] alone. *)
Definition renders (st : State) (lo hi : nat) (sv : StoreValue) (v : JSONValue)
    : Prop :=
  match v with
  | JObj _ => ∃ l, sv = ref l ∧ lo ≤ l < hi
  | _ => True
  end ∧
  ∀ st'', agrees lo hi st st'' → shown_deep st'' sv v.

(** Converting [v] in whatever state returns a slot value that stands for
    [v] by means of the objects the conversion has created. *)
Definition converts_faithfully (v : JSONValue) : Prop :=
  ∀ st, well_keyed v → (∀ k, k ∈ object_keys v → unrestricted st k) →
    ∃ sv st',
      convertToStoreValue v st = Some (Returns sv, st') ∧
      renders st' (length (stores st)) (length (stores st')) sv v.

(** The configuration [{name: "s", tags: [1, {x: 2}], limits: {max: 3, nested: {}}}]. *)
Definition config : JSONObject :=
  [("name", str "s");
   ("tags", JArr [num 1; JObj [("x", num 2)]]);
   ("limits", JObj [("max", num 3); ("nested", JObj [])])].

(** *** Names found through the prototype chain *)

(** The property names an instance of [Store] finds through its prototype
    chain without owning them: the methods of [Store.prototype], and the
    properties of [Object.prototype].  For such a name [key in this] holds
    in the source although the instance has no property of its own, and
    [this[key]] reads or assigns the inherited property; the model covers
    the other names, which the properties that depend on slot access by an
    arbitrary key require. *)
Definition inherited_names : list string :=
  ["constructor"; "allowedToRead"; "allowedToWrite"; "read"; "write";
   "writeEntries"; "entries"; "getRawValue"; "setRawValue"; "getAllKeys";
   "__defineGetter__"; "__defineSetter__"; "hasOwnProperty";
   "__lookupGetter__"; "__lookupSetter__"; "isPrototypeOf";
   "propertyIsEnumerable"; "toString"; "valueOf"; "__proto__";
   "toLocaleString"].

(** A key that names no inherited property. *)
Definition ordinary (key : string) : Prop := key ∉ inherited_names.

#[global] Instance ordinary_dec key : Decision (ordinary key).
Proof. unfold ordinary. apply _. Defined.

(** Every segment of the path is ordinary. *)
Definition ordinary_path (path : string) : Prop := Forall ordinary (split path).

#[global] Instance ordinary_path_dec path : Decision (ordinary_path path).
Proof. unfold ordinary_path. apply _. Defined.

(** The keys of the plain objects in [j], which [writeEntries] hands to
    [write] as paths, are ordinary. *)
Definition ordinary_keys (j : JSONValue) : Prop :=
  Forall ordinary_path (object_keys j).

#[global] Instance ordinary_keys_dec j : Decision (ordinary_keys j).
Proof. unfold ordinary_keys. apply _. Defined.

Definition ordinary_value (value : StoreValue) : Prop :=
  match value with
  | SResult (RJson j) => ordinary_keys j
  | _ => True
  end.

#[global] Instance ordinary_value_dec value : Decision (ordinary_value value).
Proof. destruct value as [[|j|s]|f]; simpl; apply _. Defined.

(** No container has a slot that bears an inherited name: no earlier write
    or field declaration has shadowed a method of the class. *)
Definition intact (st : State) : Prop :=
  Forall (fun obj => Forall ordinary (allKeysOf obj)) (stores st).

#[global] Instance intact_dec st : Decision (intact st).
Proof. unfold intact. apply _. Defined.

(** *** Definitions for the round trip through a path *)

(** The plain object [{key: {... {last: j}}}] that a path spells out. *)
Fixpoint nested_object (key : string) (rest : list string) (j : JSONValue)
    : JSONObject :=
  match rest with
  | [] => [(key, j)]
  | key' :: rest' => [(key, JObj (nested_object key' rest' j))]
  end.

(** A slot value that resolves to the same result whenever it is resolved:
    a value, or a producer whose result does not depend on its
    environment. *)
Definition steady (st : State) (value : StoreValue) : Prop :=
  match value with
  | SResult _ => True
  | SFun f => ∃ p, producers st !! f = Some p ∧ ∀ n, (body p n).1 = result p
  end.

(** Every closure of [st] is in [st'] with the same code. *)
Definition same_bodies (st st' : State) : Prop :=
  ∀ f p, producers st !! f = Some p →
    ∃ p', producers st' !! f = Some p' ∧ body p' = body p.

(** [st'] is [st] after calls of producers: the same containers and
    registry, the same closures in whatever environments. *)
Definition called_since (st st' : State) : Prop :=
  stores st' = stores st ∧ permissionsMap st' = permissionsMap st ∧
  same_bodies st st'.

(** From [st] to [st'] the registry, the code of the closures, and the
    prototypes and default policy of every container are as they were, and
    so is every slot whose name is not among [keys]. *)
Definition kept (keys : list string) (st st' : State) : Prop :=
  permissionsMap st' = permissionsMap st ∧ same_bodies st st' ∧
  ∀ l obj, stores st !! l = Some obj →
    ∃ obj', stores st' !! l = Some obj' ∧
      prototypes obj' = prototypes obj ∧
      defaultPolicy obj' = defaultPolicy obj ∧
      ∀ k, k ∉ keys → rawValueOf obj' k = rawValueOf obj k.

(** The containers that a write along [key :: rest] meets from [l] on
    permit it, and the read that follows: each allows its key to be read;
    the slot of a key that is not the last either steadily resolves to a
    container, which permits the rest, or resolves to something else and
    may be written; the last key may be written. *)
Fixpoint permits (st : State) (l : loc) (key : string) (rest : list string)
    : Prop :=
  allowedToRead st l key = Some true ∧
  match rest with
  | [] => allowedToWrite st l key = Some true
  | key' :: rest' =>
      ∃ obj r st1,
        stores st !! l = Some obj ∧
        resolvedValueAt l key st = Some (Returns r, st1) ∧
        match r with
        | RStore nested =>
            steady st (rawValueOf obj key) ∧ permits st1 nested key' rest'
        | _ => allowedToWrite st l key = Some true
        end
  end.

(** A slot that [entries] leaves out: its key may not be read, or its
    value steadily resolves to [undefined]. *)
Definition hidden (st : State) (l : loc) (obj : StoreObj) (k : string) : Prop :=
  allowedToRead st l k = Some false ∨
  (steady st (rawValueOf obj k) ∧
   ∃ st1, resolveValue (rawValueOf obj k) st = Some (Returns RUndefined, st1)).

(** A slot that [entries] shows: its key may be read and its value
    steadily resolves to something other than [undefined]. *)
Definition visible (st : State) (l : loc) (obj : StoreObj) (k : string) : Prop :=
  allowedToRead st l k = Some true ∧ steady st (rawValueOf obj k) ∧
  ∃ r st1, resolveValue (rawValueOf obj k) st = Some (Returns r, st1) ∧
           r ≠ RUndefined.

(** In every container on the way along [key :: rest] from [l], the slots
    other than the one the path names are hidden. *)
Fixpoint alone (st : State) (l : loc) (key : string) (rest : list string)
    : Prop :=
  ∃ obj, stores st !! l = Some obj ∧
    (∀ k, k ∈ slot_names obj → k ≠ key → hidden st l obj k) ∧
    match rest with
    | [] => True
    | key' :: rest' =>
        ∀ nested st1,
          resolvedValueAt l key st = Some (Returns (RStore nested), st1) →
          alone st1 nested key' rest'
    end.

(** A fresh store after [write("a", {})]. *)
Definition st_a_obj : State :=
  state_after (write 0 "a" (json (JObj []))) st_empty.

(** *** Definitions for the bulk import *)


(** * Proofs *)

(** A closed decidable statement is settled by evaluating its decision. *)
Ltac evaluated := apply (bool_decide_unpack _); vm_compute; exact I.

(** ** The monad *)

Lemma bind_returns {A B} (m : M A) (k : A -> M B) st a st' :
  m st = Some (Returns a, st') → bind m k st = k a st'.
Proof. unfold bind. by intros ->. Qed.



Lemma bind_gets {A B} (f : State -> option A) (k : A -> M B) st a :
  f st = Some a → bind (gets f) k st = k a st.
Proof. unfold bind, gets. by intros ->. Qed.

Lemma bind_inv {A B} (m : M A) (k : A -> M B) st out st' :
  bind m k st = Some (out, st') →
  (∃ e, m st = Some (Throws e, st') ∧ out = Throws e) ∨
  (∃ a st1, m st = Some (Returns a, st1) ∧ k a st1 = Some (out, st')).
Proof.
  unfold bind. destruct (m st) as [[[a|e] st1]|]; intros H; [right|left|done].
  - by exists a, st1.
  - injection H as <- <-. by exists e.
Qed.

Lemma bind_assoc {A B C} (m : M A) (k : A -> M B) (h : B -> M C) st :
  bind (bind m k) h st = bind m (fun a => bind (k a) h) st.
Proof. unfold bind. by destruct (m st) as [[[a|e] st1]|]. Qed.

(** ** Association lists *)

Lemma assoc_get_set {V} (m : list (string * V)) key value :
  assoc_get (assoc_set m key value) key = Some value.
Proof.
  induction m as [|[k v] m IH]; simpl.
  - by rewrite decide_True.
  - destruct (decide (k = key)) as [->|Hne]; simpl.
    + by rewrite decide_True.
    + by rewrite decide_False.
Qed.

Lemma assoc_get_set_ne {V} (m : list (string * V)) key key' value :
  key ≠ key' → assoc_get (assoc_set m key value) key' = assoc_get m key'.
Proof.
  intros Hne. induction m as [|[k v] m IH]; simpl.
  - by rewrite decide_False.
  - destruct (decide (k = key)) as [->|Hk]; simpl.
    + by rewrite !decide_False.
    + by rewrite IH.
Qed.

Lemma assoc_get_None {V} (m : list (string * V)) key :
  assoc_get m key = None ↔ key ∉ m.*1.
Proof.
  induction m as [|[k v] m IH]; simpl.
  - split; [intros _; apply not_elem_of_nil | done].
  - rewrite not_elem_of_cons. destruct (decide (k = key)) as [->|Hne].
    + split; [done | by intros [? _]].
    + rewrite IH. split; [by intros ? | by intros [_ ?]].
Qed.

Lemma assoc_set_fresh {V} (m : list (string * V)) key value :
  key ∉ m.*1 → assoc_set m key value = m ++ [(key, value)].
Proof.
  induction m as [|[k v] m IH]; simpl; [done|].
  rewrite not_elem_of_cons. intros [Hne Hnotin].
  rewrite decide_False by done. by rewrite IH.
Qed.

Lemma assoc_set_keys_present {V} (m : list (string * V)) key value :
  key ∈ m.*1 → (assoc_set m key value).*1 = m.*1.
Proof.
  induction m as [|[k v] m IH]; cbn [assoc_set].
  - by intros ?%elem_of_nil.
  - destruct (decide (k = key)) as [->|Hne]; [done|].
    rewrite !fmap_cons. intros [?|Hin]%elem_of_cons; [simpl in *; congruence|].
    by rewrite IH.
Qed.

Lemma assoc_has_true {V} (m : list (string * V)) key :
  assoc_has m key = true ↔ key ∈ m.*1.
Proof.
  unfold assoc_has. rewrite bool_decide_eq_true.
  destruct (assoc_get m key) as [v|] eqn:Hget.
  - split; [intros _|by eauto]. destruct (decide (key ∈ m.*1)) as [|Hn]; [done|].
    apply assoc_get_None in Hn. congruence.
  - apply assoc_get_None in Hget. split; [by intros [? [=]] | done].
Qed.

(** ** Paths *)

Lemma split_nonempty path : split path ≠ [].
Proof.
  destruct path as [|c path]; simpl; [done|].
  destruct (decide (c = colon)); [done|]. by destruct (split path).
Qed.

Lemma split_single key : colon_free key = true → split key = [key].
Proof.
  induction key as [|c key IH]; simpl; [done|].
  intros [Hc Hkey]%andb_true_iff. apply negb_true_iff, bool_decide_eq_false in Hc.
  rewrite decide_False by done. by rewrite IH.
Qed.

Lemma split_colon_free path : Forall (fun seg => colon_free seg = true) (split path).
Proof.
  induction path as [|c path IH]; simpl.
  - by constructor.
  - destruct (decide (c = colon)) as [->|Hne].
    + by constructor.
    + destruct (split path) as [|seg segs]; simpl.
      * constructor; [|done]. simpl. by rewrite bool_decide_eq_false_2.
      * inversion IH as [|?? Hseg Hsegs]; subst. constructor; [|done].
        simpl. by rewrite bool_decide_eq_false_2.
Qed.

Lemma split_append seg path :
  colon_free seg = true →
  split (seg +:+ String colon path) = seg :: split path.
Proof.
  induction seg as [|c seg IH]; simpl.
  - done.
  - intros [Hc Hseg]%andb_true_iff.
    apply negb_true_iff, bool_decide_eq_false in Hc.
    rewrite decide_False by done. by rewrite IH.
Qed.

(** Splitting the joined rest of a path gives the rest back. *)
Lemma split_join segs :
  segs ≠ [] → Forall (fun seg => colon_free seg = true) segs →
  split (join segs) = segs.
Proof.
  induction segs as [|seg segs IH]; [done|]. intros _ Hall.
  inversion Hall as [|?? Hseg Hsegs]; subst.
  destruct segs as [|seg' segs].
  - simpl. by apply split_single.
  - change (join (seg :: seg' :: segs))
      with (seg +:+ String colon (join (seg' :: segs))).
    rewrite split_append by done. by rewrite IH.
Qed.

Lemma split_rest path key rest :
  split path = key :: rest → rest ≠ [] → split (join rest) = rest.
Proof.
  intros Hsplit Hrest. apply split_join; [done|].
  pose proof (split_colon_free path) as Hall. rewrite Hsplit in Hall.
  by inversion Hall.
Qed.

(** ** Permission resolution *)

Lemma walkPrototypes_first_match st chain key :
  walkPrototypes (permissionsMap st) chain key
  = head (omap (fun type => declared st (OPrototype type) key) chain).
Proof.
  induction chain as [|type chain IH]; simpl; [done|].
  fold (declared st (OPrototype type) key).
  by destruct (declared st (OPrototype type) key).
Qed.

Lemma getPermissionForKey_order st instance obj key :
  stores st !! instance = Some obj →
  getPermissionForKey st instance key = Some (resolution_order st instance obj key).
Proof.
  intros Hobj. unfold getPermissionForKey, resolution_order.
  rewrite Hobj. simpl. fold (declared st (OInstance instance) key).
  destruct (declared st (OInstance instance) key); [done|].
  rewrite walkPrototypes_first_match.
  by destruct (head _).
Qed.

Lemma first_match_None st chain key :
  (∀ type, type ∈ chain → declared st (OPrototype type) key = None) →
  head (omap (fun type => declared st (OPrototype type) key) chain) = None.
Proof.
  induction chain as [|type chain IH]; simpl; [done|]. intros Hnone.
  rewrite (Hnone type) by apply list_elem_of_here.
  apply IH. intros t Ht. apply Hnone. by apply list_elem_of_further.
Qed.

Lemma first_match_Some st chain key permission :
  head (omap (fun type => declared st (OPrototype type) key) chain) = Some permission →
  ∃ type, type ∈ chain ∧ declared st (OPrototype type) key = Some permission.
Proof.
  induction chain as [|type chain IH]; simpl; [done|].
  destruct (declared st (OPrototype type) key) as [p|] eqn:Hd; simpl.
  - intros [= ->]. exists type. split; [apply list_elem_of_here | done].
  - intros (t & Ht & Hdt)%IH. exists t. split; [by apply list_elem_of_further | done].
Qed.

Lemma getPermissionForKey_undeclared st this obj key :
  stores st !! this = Some obj → undeclared st this obj key →
  getPermissionForKey st this key = Some (defaultPolicy obj).
Proof.
  intros Hobj [Hinst Htypes]. rewrite (getPermissionForKey_order _ _ obj) by done.
  unfold resolution_order. rewrite Hinst. by rewrite first_match_None.
Qed.

Lemma getPermissionForKey_unrestricted st this obj key :
  stores st !! this = Some obj → defaultPolicy obj = PermRW →
  unrestricted st key →
  getPermissionForKey st this key = Some PermRW.
Proof.
  intros Hobj Hrw Hun. rewrite (getPermissionForKey_order _ _ obj) by done.
  unfold resolution_order. f_equal.
  destruct (declared st (OInstance this) key) as [p|] eqn:Hinst.
  - by apply (Hun (OInstance this)).
  - destruct (head _) as [p|] eqn:Hhead; [|done].
    apply first_match_Some in Hhead as (type & _ & Hd).
    by apply (Hun (OPrototype type)).
Qed.

(** The permission queries only look at the registry and at the prototype
    chain and default policy of the instance. *)
Lemma getPermissionForKey_ext st st' l obj obj' key :
  permissionsMap st' = permissionsMap st →
  stores st !! l = Some obj → stores st' !! l = Some obj' →
  prototypes obj' = prototypes obj → defaultPolicy obj' = defaultPolicy obj →
  getPermissionForKey st' l key = getPermissionForKey st l key.
Proof.
  intros Hpm Hobj Hobj' Hproto Hpol. unfold getPermissionForKey.
  rewrite Hobj, Hobj', Hpm. simpl. by rewrite Hproto, Hpol.
Qed.

Lemma allowedToRead_ext st st' l key :
  getPermissionForKey st' l key = getPermissionForKey st l key →
  allowedToRead st' l key = allowedToRead st l key.
Proof. unfold allowedToRead. by intros ->. Qed.

Lemma allowedToWrite_ext st st' l key :
  getPermissionForKey st' l key = getPermissionForKey st l key →
  allowedToWrite st' l key = allowedToWrite st l key.
Proof. unfold allowedToWrite. by intros ->. Qed.

(** C1: permission resolution consults the instance-specific override, then
    the instance's type and ancestor types from nearest to furthest (first
    match wins), then the instance's own default policy; it always yields
    exactly one permission, and a declaration on the instance wins over a
    declaration on a type. *)
Theorem permission_resolution_order st instance obj key :
  stores st !! instance = Some obj →
  getPermissionForKey st instance key
    = Some (resolution_order st instance obj key) ∧
  (∃ permission, getPermissionForKey st instance key = Some permission ∧
     ∀ other, getPermissionForKey st instance key = Some other →
              other = permission) ∧
  (∀ type onType onInstance,
     type ∈ prototypes obj →
     declared st (OPrototype type) key = Some onType →
     declared st (OInstance instance) key = Some onInstance →
     getPermissionForKey st instance key = Some onInstance).
Proof.
  intros Hobj. pose proof (getPermissionForKey_order st instance obj key Hobj) as Heq.
  split; [done|]. split.
  - exists (resolution_order st instance obj key). split; [done|].
    intros p Hp. congruence.
  - intros type onType onInstance _ _ Hinst. rewrite Heq. f_equal.
    unfold resolution_order. by rewrite Hinst.
Qed.

Lemma permission_resolution_order_witness :
  getPermissionForKey st_override 0 "x" = Some PermW ∧
  allowedToWrite st_override 0 "x" = Some true ∧
  allowedToRead st_override 0 "x" = Some false.
Proof.
  destruct (permission_resolution_order st_override 0 (baseStore PermNone) "x"
              eq_refl) as (Horder & _ & Hwins).
  assert (getPermissionForKey st_override 0 "x" = Some PermW) as Hperm.
  { apply (Hwins StorePrototype PermR PermW).
    - apply list_elem_of_here.
    - vm_compute. reflexivity.
    - vm_compute. reflexivity. }
  unfold allowedToWrite, allowedToRead. rewrite Hperm. by repeat split.
Defined.

Lemma Restrict_state st permission target key :
  Restrict permission target key st
  = Some (Returns tt, state_after (Restrict permission target key) st).
Proof. reflexivity. Qed.

Lemma Restrict_declared st permission target key owner k :
  declared (state_after (Restrict permission target key) st) owner k
  = if decide (owner = target ∧ k = key) then Some permission
    else declared st owner k.
Proof.
  unfold declared, state_after, Restrict, modify, set_permissionsMap. simpl.
  destruct (permissionsMap st !! target) as [perms|] eqn:Htarget.
  - rewrite bool_decide_eq_true_2 by eauto. rewrite Htarget.
    destruct (decide (owner = target)) as [->|Howner].
    + rewrite lookup_insert_eq. simpl.
      destruct (decide (k = key)) as [->|Hk].
      * rewrite lookup_insert_eq. by rewrite decide_True.
      * rewrite lookup_insert_ne by done. rewrite decide_False by tauto.
        by rewrite Htarget.
    + rewrite lookup_insert_ne by done. by rewrite decide_False by tauto.
  - rewrite bool_decide_eq_false_2 by (by intros [? [=]]).
    rewrite lookup_insert_eq.
    destruct (decide (owner = target)) as [->|Howner].
    + rewrite lookup_insert_eq. simpl.
      destruct (decide (k = key)) as [->|Hk].
      * rewrite lookup_insert_eq. by rewrite decide_True.
      * rewrite lookup_insert_ne by done. rewrite decide_False by tauto.
        by rewrite Htarget.
    + rewrite !lookup_insert_ne by done. by rewrite decide_False by tauto.
Qed.

(** ** Primitive steps *)

Lemma getRawValue_run this key st obj :
  stores st !! this = Some obj →
  getRawValue this key st = Some (Returns (rawValueOf obj key), st).
Proof. unfold getRawValue, gets. by intros ->. Qed.

Lemma setRawValue_run this key value st obj :
  stores st !! this = Some obj →
  setRawValue this key value st = Some (Returns tt, stored st this obj key value).
Proof. unfold setRawValue. by intros ->. Qed.

Lemma resolveValue_fun f p st :
  producers st !! f = Some p →
  resolveValue (SFun f) st = Some (Returns (result p), invoked st f p).
Proof. unfold resolveValue. by intros ->. Qed.

Lemma resolveValue_unchanged value out st st1 :
  resolveValue value st = Some (out, st1) →
  stores st1 = stores st ∧ permissionsMap st1 = permissionsMap st ∧
  ∃ r, out = Returns r.
Proof.
  destruct value as [r|f]; simpl.
  - intros [= <- <-]. eauto.
  - destruct (producers st !! f) as [p|]; simpl; [|done].
    intros [= <- <-]. eauto.
Qed.

Lemma resolvedValueAt_run this key st obj :
  stores st !! this = Some obj →
  resolvedValueAt this key st = resolveValue (rawValueOf obj key) st.
Proof.
  intros Hobj. unfold resolvedValueAt.
  by rewrite (bind_returns _ _ _ _ _ (getRawValue_run this key st obj Hobj)).
Qed.

Lemma resolvedValueAt_unchanged this key out st st1 :
  resolvedValueAt this key st = Some (out, st1) →
  stores st1 = stores st ∧ permissionsMap st1 = permissionsMap st ∧
  ∃ r, out = Returns r.
Proof.
  unfold resolvedValueAt, bind, getRawValue, gets.
  destruct (stores st !! this) as [obj|]; simpl; [|done].
  apply resolveValue_unchanged.
Qed.

Lemma resolved_bind {B} this key (k : StoreResult -> M B) st :
  (let* rawValue := getRawValue this key in
   let* value := resolveValue rawValue in k value) st
  = bind (resolvedValueAt this key) k st.
Proof. symmetry. apply bind_assoc. Qed.

Lemma getPermissionForKey_same st st1 l key :
  stores st1 = stores st → permissionsMap st1 = permissionsMap st →
  getPermissionForKey st1 l key = getPermissionForKey st l key.
Proof. unfold getPermissionForKey. by intros -> ->. Qed.

Lemma allowedToWrite_same st st1 l key :
  stores st1 = stores st → permissionsMap st1 = permissionsMap st →
  allowedToWrite st1 l key = allowedToWrite st l key.
Proof. intros. by apply allowedToWrite_ext, getPermissionForKey_same. Qed.

Lemma allowedToRead_same st st1 l key :
  stores st1 = stores st → permissionsMap st1 = permissionsMap st →
  allowedToRead st1 l key = allowedToRead st l key.
Proof. intros. by apply allowedToRead_ext, getPermissionForKey_same. Qed.

Lemma vivify_run {B} this key (k : loc -> M B) st obj :
  stores st !! this = Some obj →
  (let* nested := newStore in
   exec setRawValue this key (ref nested) in k nested) st
  = k (length (stores st)) (vivify st this obj key).
Proof.
  intros Hobj. unfold bind at 1. simpl.
  erewrite bind_returns; [done|].
  erewrite setRawValue_run; [done|]. simpl. by apply lookup_app_l_Some.
Qed.

(** ** Slots: reading back what was set *)

Lemma is_slot_field_true obj key :
  is_slot_field obj key = true ↔
  key ∈ (fields obj).*1 ∧ key ≠ "dynamicValues" ∧ key ≠ "defaultPolicy".
Proof.
  unfold is_slot_field, in_this.
  rewrite !andb_true_iff, !orb_true_iff, !negb_true_iff, !bool_decide_eq_false,
    !bool_decide_eq_true, assoc_has_true.
  tauto.
Qed.

Lemma withRawValue_fields_keys obj key value :
  (fields (withRawValue obj key value)).*1 = (fields obj).*1.
Proof.
  unfold withRawValue. destruct (is_slot_field obj key) eqn:Hslot; [|done].
  apply is_slot_field_true in Hslot as [Hin _]. simpl.
  by apply assoc_set_keys_present.
Qed.

Lemma is_slot_field_withRawValue obj key value key' :
  is_slot_field (withRawValue obj key value) key' = is_slot_field obj key'.
Proof.
  apply eq_true_iff_eq. by rewrite !is_slot_field_true, withRawValue_fields_keys.
Qed.

Lemma rawValueOf_withRawValue obj key value :
  rawValueOf (withRawValue obj key value) key = value.
Proof.
  unfold rawValueOf. rewrite is_slot_field_withRawValue.
  unfold withRawValue. destruct (is_slot_field obj key); simpl;
    by rewrite assoc_get_set.
Qed.

Lemma rawValueOf_withRawValue_ne obj key key' value :
  key ≠ key' → rawValueOf (withRawValue obj key value) key' = rawValueOf obj key'.
Proof.
  intros Hne. unfold rawValueOf. rewrite is_slot_field_withRawValue.
  unfold withRawValue.
  destruct (is_slot_field obj key), (is_slot_field obj key'); simpl;
    by rewrite ?assoc_get_set_ne.
Qed.

Lemma withRawValue_policy obj key value :
  prototypes (withRawValue obj key value) = prototypes obj ∧
  defaultPolicy (withRawValue obj key value) = defaultPolicy obj.
Proof. unfold withRawValue. by destruct (is_slot_field obj key). Qed.

(** ** [read] and [write], one segment at a time *)

Lemma read_split this path key rest :
  split path = key :: rest → read this path = read_from this key rest.
Proof. unfold read. by intros ->. Qed.

Lemma write_split conv this path key rest value :
  split path = key :: rest →
  write_with conv this path value = write_from conv this key rest value.
Proof. unfold write_with. by intros ->. Qed.

Lemma read_join nested path key key' rest' :
  split path = key :: key' :: rest' →
  read nested (join (key' :: rest')) = read_from nested key' rest'.
Proof.
  intros Hsplit. apply read_split. by apply (split_rest path key).
Qed.

Lemma write_join conv nested path key key' rest' value :
  split path = key :: key' :: rest' →
  write_with conv nested (join (key' :: rest')) value
  = write_from conv nested key' rest' value.
Proof.
  intros Hsplit. apply write_split. by apply (split_rest path key).
Qed.

Lemma read_from_denied this key rest st :
  allowedToRead st this key = Some false →
  read_from this key rest st = Some (Throws (ReadDenied key), st).
Proof.
  intros Hdenied. destruct rest; cbn [read_from];
    by rewrite (bind_gets _ _ st false).
Qed.

Lemma read_from_resolved this key rest st r st1 :
  allowedToRead st this key = Some true →
  resolvedValueAt this key st = Some (Returns r, st1) →
  read_from this key rest st =
    match rest with
    | [] => Some (Returns r, st1)
    | key' :: rest' =>
        match r with
        | RStore nested => read_from nested key' rest' st1
        | _ => Some (Returns RUndefined, st1)
        end
    end.
Proof.
  intros Hallowed Hres.
  destruct rest; cbn [read_from]; rewrite (bind_gets _ _ st true) by done;
    cbn [negb]; rewrite resolved_bind, (bind_returns _ _ _ _ _ Hres); [done|].
  by destruct r.
Qed.

Lemma write_from_terminal_denied conv this key value st :
  allowedToWrite st this key = Some false →
  write_from conv this key [] value st = Some (Throws (WriteDenied key), st).
Proof. intros Hdenied. cbn [write_from]. by rewrite (bind_gets _ _ st false). Qed.

Lemma write_from_terminal this key value st :
  allowedToWrite st this key = Some true →
  write_from convertToStoreValue this key [] value st
  = storeTerminal this key value st.
Proof. intros Hallowed. cbn [write_from]. by rewrite (bind_gets _ _ st true). Qed.

Lemma write_from_read_denied conv this key key' rest' value st :
  allowedToRead st this key = Some false →
  write_from conv this key (key' :: rest') value st
  = Some (Throws (ReadDenied key), st).
Proof. intros Hdenied. cbn [write_from]. by rewrite (bind_gets _ _ st false). Qed.

Lemma write_from_delegate conv this key key' rest' value st nested st1 :
  allowedToRead st this key = Some true →
  resolvedValueAt this key st = Some (Returns (RStore nested), st1) →
  write_from conv this key (key' :: rest') value st
  = write_from conv nested key' rest' value st1.
Proof.
  intros Hallowed Hres. cbn [write_from].
  rewrite (bind_gets _ _ st true) by done. cbn [negb].
  by rewrite resolved_bind, (bind_returns _ _ _ _ _ Hres).
Qed.

Lemma write_from_replace_denied conv this key key' rest' value st r st1 :
  allowedToRead st this key = Some true →
  resolvedValueAt this key st = Some (Returns r, st1) → is_store r = false →
  allowedToWrite st this key = Some false →
  write_from conv this key (key' :: rest') value st
  = Some (Throws (WriteDenied key), st1).
Proof.
  intros Hallowed Hres Hr Hdenied. cbn [write_from].
  rewrite (bind_gets _ _ st true) by done. cbn [negb].
  rewrite resolved_bind, (bind_returns _ _ _ _ _ Hres).
  destruct (resolvedValueAt_unchanged _ _ _ _ _ Hres) as (Hs & Hp & _).
  rewrite <- (allowedToWrite_same st st1 this key Hs Hp) in Hdenied.
  destruct r; try done; by rewrite (bind_gets _ _ st1 false).
Qed.

Lemma write_from_replace conv this key key' rest' value st r st1 obj :
  allowedToRead st this key = Some true →
  resolvedValueAt this key st = Some (Returns r, st1) → is_store r = false →
  allowedToWrite st this key = Some true →
  stores st !! this = Some obj →
  write_from conv this key (key' :: rest') value st
  = write_from conv (length (stores st1)) key' rest' value
      (vivify st1 this obj key).
Proof.
  intros Hallowed Hres Hr Hwrite Hobj. cbn [write_from].
  rewrite (bind_gets _ _ st true) by done. cbn [negb].
  rewrite resolved_bind, (bind_returns _ _ _ _ _ Hres).
  destruct (resolvedValueAt_unchanged _ _ _ _ _ Hres) as (Hs & Hp & _).
  rewrite <- (allowedToWrite_same st st1 this key Hs Hp) in Hwrite.
  rewrite <- Hs in Hobj.
  destruct r; try done; rewrite (bind_gets _ _ st1 true) by done; cbn [negb];
    by rewrite (vivify_run this key _ st1 obj).
Qed.

(** C2: [allowedToRead] holds exactly for the permissions read and
    read-write, [allowedToWrite] exactly for write and read-write; so, with
    default policy none and nothing declared for the key, both are false, and
    reading the key and writing a value to it both throw the access error. *)
Theorem permission_gates st this obj key :
  stores st !! this = Some obj →
  (∃ permission canRead canWrite,
     getPermissionForKey st this key = Some permission ∧
     allowedToRead st this key = Some canRead ∧
     allowedToWrite st this key = Some canWrite ∧
     (canRead = true ↔ permission = PermR ∨ permission = PermRW) ∧
     (canWrite = true ↔ permission = PermW ∨ permission = PermRW)) ∧
  (defaultPolicy obj = PermNone → undeclared st this obj key →
     allowedToRead st this key = Some false ∧
     allowedToWrite st this key = Some false ∧
     (colon_free key = true →
        read this key st = Some (Throws (ReadDenied key), st) ∧
        ∀ value, write this key value st = Some (Throws (WriteDenied key), st))).
Proof.
  intros Hobj. split.
  - exists (resolution_order st this obj key).
    unfold allowedToRead, allowedToWrite.
    rewrite (getPermissionForKey_order st this obj key Hobj). simpl.
    eexists _, _. repeat split; try reflexivity.
    all: rewrite ?orb_true_iff, ?bool_decide_eq_true; tauto.
  - intros Hnone Hundeclared.
    pose proof (getPermissionForKey_undeclared st this obj key Hobj Hundeclared)
      as Hperm. rewrite Hnone in Hperm.
    assert (allowedToRead st this key = Some false) as Hread
      by (unfold allowedToRead; by rewrite Hperm).
    assert (allowedToWrite st this key = Some false) as Hwrite
      by (unfold allowedToWrite; by rewrite Hperm).
    repeat split; try done.
    + rewrite (read_split this key key []) by by apply split_single.
      by apply read_from_denied.
    + intros value. unfold write.
      rewrite (write_split _ this key key []) by by apply split_single.
      by apply write_from_terminal_denied.
Qed.

Lemma permission_gates_witness :
  allowedToRead st_none 0 "x" = Some false ∧
  allowedToWrite st_none 0 "x" = Some false ∧
  read 0 "x" st_none = Some (Throws (ReadDenied "x"), st_none) ∧
  write 0 "x" (json (num 1)) st_none = Some (Throws (WriteDenied "x"), st_none).
Proof.
  destruct (permission_gates st_none 0 (baseStore PermNone) "x" eq_refl)
    as [_ Hnone].
  destruct Hnone as (Hread & Hwrite & Hthrow).
  - reflexivity.
  - split; [reflexivity|]. intros type _. reflexivity.
  - destruct (Hthrow eq_refl) as [Hr Hw].
    split; [exact Hread|]. split; [exact Hwrite|]. split; [exact Hr|apply Hw].
Defined.

(** C3: in a write over several segments every intermediate segment needs
    read permission, and the access error names the segment at which the
    check fails; write permission is needed at an intermediate segment only
    when its slot is replaced by a fresh container, and at the final segment;
    an intermediate segment that already resolves to a container is
    traversed with read permission alone. *)
Theorem write_permission_checks st this obj path key rest value :
  split path = key :: rest →
  stores st !! this = Some obj →
  match rest with
  | [] =>
      (allowedToWrite st this key = Some false →
       write this path value st = Some (Throws (WriteDenied key), st)) ∧
      (allowedToWrite st this key = Some true →
       write this path value st = storeTerminal this key value st)
  | _ :: _ =>
      (allowedToRead st this key = Some false →
       write this path value st = Some (Throws (ReadDenied key), st)) ∧
      (allowedToRead st this key = Some true →
       ∀ r st1, resolvedValueAt this key st = Some (Returns r, st1) →
         match r with
         | RStore nested =>
             write this path value st = write nested (join rest) value st1
         | _ =>
             (allowedToWrite st this key = Some false →
              write this path value st = Some (Throws (WriteDenied key), st1)) ∧
             (allowedToWrite st this key = Some true →
              write this path value st
              = write (length (stores st1)) (join rest) value
                  (vivify st1 this obj key))
         end)
  end.
Proof.
  intros Hsplit Hobj. unfold write. rewrite (write_split _ _ _ _ _ _ Hsplit).
  destruct rest as [|key' rest'].
  - split; intros Hw.
    + by apply write_from_terminal_denied.
    + by apply write_from_terminal.
  - split; [apply write_from_read_denied|].
    intros Hr r st1 Hres.
    destruct r as [|j|nested]; rewrite ?(write_join _ _ _ _ _ _ _ Hsplit).
    + split; intros Hw.
      * by apply (write_from_replace_denied _ _ _ _ _ _ _ RUndefined).
      * by apply (write_from_replace _ _ _ _ _ _ _ RUndefined).
    + split; intros Hw.
      * by apply (write_from_replace_denied _ _ _ _ _ _ _ (RJson j)).
      * by apply (write_from_replace _ _ _ _ _ _ _ (RJson j)).
    + by apply write_from_delegate.
Qed.

Lemma write_permission_checks_witness :
  write 0 "x:y" (json (num 1)) st_none = Some (Throws (ReadDenied "x"), st_none).
Proof.
  apply (write_permission_checks st_none 0 (baseStore PermNone) "x:y" "x" ["y"]
           (json (num 1)) eq_refl eq_refl).
  reflexivity.
Defined.

(** ** States after a store or a replacement *)

Lemma stored_lookup st this obj key value :
  stores st !! this = Some obj →
  stores (stored st this obj key value) !! this
  = Some (withRawValue obj key value).
Proof.
  intros Hobj. simpl. apply list_lookup_insert_eq. by eapply lookup_lt_Some.
Qed.

Lemma stored_lookup_ne st this obj key value l :
  l ≠ this → stores (stored st this obj key value) !! l = stores st !! l.
Proof. intros Hne. simpl. by apply list_lookup_insert_ne. Qed.

Lemma getPermissionForKey_stored st this obj key value l k :
  stores st !! this = Some obj →
  getPermissionForKey (stored st this obj key value) l k
  = getPermissionForKey st l k.
Proof.
  intros Hobj. destruct (decide (l = this)) as [->|Hne].
  - destruct (withRawValue_policy obj key value) as [Hproto Hpol].
    eapply (getPermissionForKey_ext st _ this obj);
      [done|done|by apply stored_lookup|done..].
  - unfold getPermissionForKey. by rewrite stored_lookup_ne.
Qed.

Lemma vivify_lookup st this obj key :
  stores st !! this = Some obj →
  stores (vivify st this obj key) !! this
  = Some (withRawValue obj key (ref (length (stores st)))).
Proof.
  intros Hobj. simpl. apply list_lookup_insert_eq.
  rewrite length_app. apply lookup_lt_Some in Hobj. lia.
Qed.

Lemma vivify_lookup_fresh st this obj key :
  stores st !! this = Some obj →
  stores (vivify st this obj key) !! length (stores st) = Some emptyStore.
Proof.
  intros Hobj. simpl. apply lookup_lt_Some in Hobj.
  rewrite list_lookup_insert_ne by lia.
  rewrite lookup_app_r by lia. by rewrite Nat.sub_diag.
Qed.

Lemma vivify_lookup_old st this obj key l o :
  l ≠ this → stores st !! l = Some o →
  stores (vivify st this obj key) !! l = Some o.
Proof.
  intros Hne Hl. simpl. rewrite list_lookup_insert_ne by done.
  by apply lookup_app_l_Some.
Qed.


(** C5: when a write goes through an intermediate segment whose slot is
    absent, or resolves to something that is not a container, the slot is
    replaced by a fresh empty container, the replacement needing write
    permission on that segment, and only then is the rest of the path
    delegated to the new container; the slot no longer holds its old value. *)
Theorem write_replaces_non_container st this obj path key rest value r st1 :
  split path = key :: rest → rest ≠ [] →
  stores st !! this = Some obj →
  allowedToRead st this key = Some true →
  resolvedValueAt this key st = Some (Returns r, st1) → is_store r = false →
  let fresh := length (stores st1) in
  let st2 := vivify st1 this obj key in
  (allowedToWrite st this key = Some false →
   write this path value st = Some (Throws (WriteDenied key), st1)) ∧
  (allowedToWrite st this key = Some true →
   write this path value st = write fresh (join rest) value st2 ∧
   stores st1 !! fresh = None ∧
   stores st2 !! fresh = Some emptyStore ∧
   ∃ obj2, stores st2 !! this = Some obj2 ∧ rawValueOf obj2 key = ref fresh).
Proof.
  intros Hsplit Hrest Hobj Hread Hres Hr fresh st2.
  destruct rest as [|key' rest']; [done|].
  destruct (resolvedValueAt_unchanged _ _ _ _ _ Hres) as (Hs & _ & _).
  assert (stores st1 !! this = Some obj) as Hobj1 by by rewrite Hs.
  unfold write. rewrite (write_split _ _ _ _ _ _ Hsplit). split; intros Hw.
  - by apply (write_from_replace_denied _ _ _ _ _ _ _ r).
  - split; [|split; [|split]].
    + rewrite (write_join _ _ _ _ _ _ _ Hsplit).
      by apply (write_from_replace _ _ _ _ _ _ _ r).
    + by apply lookup_ge_None.
    + by apply vivify_lookup_fresh.
    + eexists. split; [by apply vivify_lookup|]. apply rawValueOf_withRawValue.
Qed.

Lemma write_replaces_non_container_witness :
  write 0 "p:q" (json (str "v")) st_empty
  = write 1 "q" (json (str "v")) (vivify st_empty 0 emptyStore "p").
Proof.
  refine (proj1 (proj2 (write_replaces_non_container st_empty 0 emptyStore "p:q"
    "p" ["q"] (json (str "v")) RUndefined st_empty eq_refl _ eq_refl eq_refl
    eq_refl eq_refl) eq_refl)).
  discriminate.
Defined.

(** C6: a slot holding a producer function is resolved by calling the
    function on every read, and the value it returns is what the read
    returns; nothing is cached, so two successive reads call it twice and a
    counter yields two different values. *)
Theorem producer_called_on_every_read st this obj key f p :
  stores st !! this = Some obj → colon_free key = true →
  allowedToRead st this key = Some true →
  rawValueOf obj key = SFun f → producers st !! f = Some p →
  let st1 := invoked st f p in
  let st2 := invoked st1 f (called p) in
  read this key st = Some (Returns (result p), st1) ∧
  read this key st1 = Some (Returns (result (called p)), st2) ∧
  stores st2 = stores st ∧
  producers st2 !! f = Some (called (called p)).
Proof.
  intros Hobj Hkey Hread Hraw Hp st1 st2.
  assert (producers st1 !! f = Some (called p)) as Hp1.
  { simpl. apply list_lookup_insert_eq. by eapply lookup_lt_Some. }
  rewrite (read_split this key key []) by by apply split_single.
  split; [|split; [|split]].
  - rewrite (read_from_resolved this key [] st (result p) st1); [done..|].
    rewrite (resolvedValueAt_run this key st obj Hobj), Hraw.
    by apply resolveValue_fun.
  - rewrite (read_from_resolved this key [] st1 (result (called p)) st2);
      [done|done|].
    rewrite (resolvedValueAt_run this key st1 obj Hobj), Hraw.
    by apply resolveValue_fun.
  - done.
  - simpl. apply list_lookup_insert_eq. rewrite length_insert.
    by eapply lookup_lt_Some.
Qed.

Lemma producer_called_on_every_read_witness :
  read 0 "n" st_counter
    = Some (Returns (RJson (num 1)), invoked st_counter 0 counter) ∧
  read 0 "n" (invoked st_counter 0 counter)
    = Some (Returns (RJson (num 2)),
            invoked (invoked st_counter 0 counter) 0 (called counter)).
Proof.
  destruct (producer_called_on_every_read st_counter 0
    (mkStore [StorePrototype; ObjectPrototype] [] PermRW [("n", SFun 0)])
    "n" 0 counter eq_refl eq_refl eq_refl eq_refl eq_refl)
    as (Hfirst & Hsecond & _).
  split; [exact Hfirst | exact Hsecond].
Defined.

(** C8: a read with path segments left over, at a segment that is readable
    but does not resolve to a container, returns [undefined] and throws
    nothing; so [read("k:extra")] after [write("k", 5)] is [undefined]. *)
Theorem read_through_non_container :
  (∀ st this path key rest r st1,
     split path = key :: rest → rest ≠ [] →
     allowedToRead st this key = Some true →
     resolvedValueAt this key st = Some (Returns r, st1) → is_store r = false →
     read this path st = Some (Returns RUndefined, st1)) ∧
  (∀ st c obj,
     stores st !! c = Some obj →
     allowedToWrite st c "k" = Some true → allowedToRead st c "k" = Some true →
     let st' := stored st c obj "k" (json (num 5)) in
     write c "k" (json (num 5)) st = Some (Returns (json (num 5)), st') ∧
     read c "k:extra" st' = Some (Returns RUndefined, st')).
Proof.
  assert (∀ st this path key rest r st1,
     split path = key :: rest → rest ≠ [] →
     allowedToRead st this key = Some true →
     resolvedValueAt this key st = Some (Returns r, st1) → is_store r = false →
     read this path st = Some (Returns RUndefined, st1)) as Hgeneral.
  { intros st this path key rest r st1 Hsplit Hrest Hread Hres Hr.
    rewrite (read_split _ _ _ _ Hsplit).
    rewrite (read_from_resolved _ _ _ _ _ _ Hread Hres).
    destruct rest; [done|]. by destruct r. }
  split; [exact Hgeneral|].
  intros st c obj Hobj Hw Hr st'. subst st'. split.
  - unfold write. rewrite (write_split _ c "k" "k" []) by done.
    rewrite write_from_terminal by done. unfold storeTerminal. simpl.
    unfold bind, ret. by rewrite (setRawValue_run c "k" _ st obj).
  - apply (Hgeneral _ c "k:extra" "k" ["extra"] (RJson (num 5))); try done.
    + unfold allowedToRead. rewrite getPermissionForKey_stored by done. exact Hr.
    + rewrite (resolvedValueAt_run c "k" _ (withRawValue obj "k" (json (num 5)))).
      * by rewrite rawValueOf_withRawValue.
      * by apply stored_lookup.
Qed.

Lemma read_through_non_container_witness :
  write 0 "k" (json (num 5)) st_empty = Some (Returns (json (num 5)), st_k5) ∧
  read 0 "k:extra" st_k5 = Some (Returns RUndefined, st_k5).
Proof.
  apply (proj2 read_through_non_container st_empty 0 emptyStore);
    reflexivity.
Defined.

(** ** Inversion of the primitive steps *)

Lemma throw_inv {A} e st (out : Outcome A) st' :
  throw e st = Some (out, st') → out = Throws e ∧ st' = st.
Proof. by intros [= <- <-]. Qed.

Lemma ret_inv {A} (a : A) st out st' :
  ret a st = Some (out, st') → out = Returns a ∧ st' = st.
Proof. by intros [= <- <-]. Qed.

Lemma bind_ext {A B} (m : M A) (k k' : A -> M B) st :
  (∀ a st1, m st = Some (Returns a, st1) → k a st1 = k' a st1) →
  bind m k st = bind m k' st.
Proof.
  intros Hext. unfold bind. destruct (m st) as [[[a|e] st1]|]; [|done..].
  by apply Hext.
Qed.

(** ** Induction on JSON values *)

Lemma JSONValue_ind (P : JSONValue -> Prop) :
  (∀ p, P (JPrim p)) →
  (∀ a, P (JArr a)) →
  (∀ o, Forall (fun entry => P entry.2) o → P (JObj o)) →
  ∀ j, P j.
Proof.
  intros Hprim Harr Hobj.
  fix IH 1. intros [p|a|o]; [apply Hprim | apply Harr | apply Hobj].
  revert o. fix IHo 1. intros [|[key v] o]; constructor.
  - apply IH.
  - apply IHo.
Qed.

(** ** The source's equations for [convertToStoreValue] and [writeEntries] *)

Lemma convertToStoreValue_obj entries st :
  convertToStoreValue (JObj entries) st
  = (let* store := newStore in
     exec writeEntries_with unreachable convertToStoreValue store entries in
     ret (ref store)) st.
Proof.
  cbn [convertToStoreValue]. apply bind_ext. intros store st1 _.
  match goal with |- bind (?F entries) _ _ = _ => set (inner := F) end.
  assert (∀ es st2,
    inner es st2 = writeEntries_with unreachable convertToStoreValue store es st2)
    as Hinner.
  { induction es as [|[key v] es IH]; intros st2; [done|].
    change (inner ((key, v) :: es))
      with (let* storeValue := convertToStoreValue v in
            exec write_with unreachable store key storeValue in inner es).
    cbn [writeEntries_with].
    apply bind_ext. intros sv st3 _. apply bind_ext. intros _ st4 _. apply IH. }
  unfold bind. by rewrite Hinner.
Qed.

Lemma write_from_conv_irrelevant conv conv' rest :
  ∀ this key value st, isJSONObject value = false →
  write_from conv this key rest value st = write_from conv' this key rest value st.
Proof.
  induction rest as [|key' rest' IH]; intros this key value st Hvalue;
    cbn [write_from]; apply bind_ext; intros allowed st1 _;
    destruct allowed; simpl; try done.
  - by destruct value as [[|[p|a|o]|n]|f].
  - apply bind_ext. intros raw st2 _. apply bind_ext. intros r st3 _.
    destruct r as [|j|nested]; [| |by apply IH].
    all: apply bind_ext; intros allowedW st4 _; destruct allowedW; simpl;
      [|done]; apply bind_ext; intros fresh st5 _; apply bind_ext;
      intros _ st6 _; by apply IH.
Qed.

Lemma convert_not_object j st storeValue st' :
  convertToStoreValue j st = Some (Returns storeValue, st') →
  isJSONObject storeValue = false.
Proof.
  destruct j as [p|a|o].
  - by intros [= <- <-].
  - by intros [= <- <-].
  - rewrite convertToStoreValue_obj.
    intros [(e & _ & [=]) | (store & st1 & _ & Hrun)]%bind_inv.
    apply bind_inv in Hrun as [(e & _ & [=]) | (u & st2 & _ & Hret)].
    by injection Hret as <- <-.
Qed.

Lemma writeEntries_with_tied this entries st :
  writeEntries_with unreachable convertToStoreValue this entries st
  = writeEntries this entries st.
Proof.
  unfold writeEntries. revert st.
  induction entries as [|[key v] entries IH]; intros st; [done|].
  cbn [writeEntries_with]. apply bind_ext. intros sv st1 Hsv.
  unfold bind, write_with.
  rewrite (write_from_conv_irrelevant unreachable convertToStoreValue)
    by by eapply convert_not_object.
  by repeat case_match.
Qed.

(** [convertToStoreValue] as the source writes it: a plain object becomes a
    new store filled by [writeEntries]; anything else is returned as it is. *)
Lemma convertToStoreValue_unfold value st :
  convertToStoreValue value st
  = match value with
    | JObj entries =>
        (let* store := newStore in
         exec writeEntries store entries in
         ret (ref store)) st
    | _ => ret (json value) st
    end.
Proof.
  destruct value as [p|a|entries]; [done..|].
  rewrite convertToStoreValue_obj. apply bind_ext. intros store st1 _.
  unfold bind. by rewrite writeEntries_with_tied.
Qed.

(** [writeEntries] as the source writes it. *)
Lemma writeEntries_unfold this key value entries st :
  writeEntries this ((key, value) :: entries) st
  = (let* storeValue := convertToStoreValue value in
     exec write this key storeValue in
     writeEntries this entries) st.
Proof. reflexivity. Qed.

(** [read] and [write] as the source writes them, the recursive call being
    on the joined rest of the path. *)
Lemma read_unfold this path key rest st :
  split path = key :: rest →
  read this path st
  = (let* allowed := gets (fun st => allowedToRead st this key) in
     if negb allowed then throw (ReadDenied key)
     else
       let* rawValue := getRawValue this key in
       let* value := resolveValue rawValue in
       if bool_decide (rest = []) then ret value
       else match value with
            | RStore nested => read nested (join rest)
            | _ => ret RUndefined
            end) st.
Proof.
  intros Hsplit. rewrite (read_split _ _ _ _ Hsplit).
  destruct rest as [|key' rest']; [done|].
  rewrite bool_decide_eq_false_2 by done. cbn [read_from].
  apply bind_ext. intros allowed st1 _. destruct allowed; simpl; [|done].
  apply bind_ext. intros raw st2 _. apply bind_ext. intros v st3 _.
  destruct v; try done. by rewrite (read_join _ _ _ _ _ Hsplit).
Qed.

Lemma write_unfold this path key rest value st :
  split path = key :: rest →
  write this path value st
  = (if bool_decide (rest = []) then
       let* allowed := gets (fun st => allowedToWrite st this key) in
       if negb allowed then throw (WriteDenied key)
       else storeTerminal this key value
     else
       let* allowed := gets (fun st => allowedToRead st this key) in
       if negb allowed then throw (ReadDenied key)
       else
         let* rawValue := getRawValue this key in
         let* nestedStore := resolveValue rawValue in
         match nestedStore with
         | RStore nested => write nested (join rest) value
         | _ =>
             let* allowedW := gets (fun st => allowedToWrite st this key) in
             if negb allowedW then throw (WriteDenied key)
             else
               let* nested := newStore in
               exec setRawValue this key (ref nested) in
               write nested (join rest) value
         end) st.
Proof.
  intros Hsplit. unfold write. rewrite (write_split _ _ _ _ _ _ Hsplit).
  destruct rest as [|key' rest']; [done|].
  rewrite bool_decide_eq_false_2 by done. cbn [write_from].
  apply bind_ext. intros allowed st1 _. destruct allowed; simpl; [|done].
  apply bind_ext. intros raw st2 _. apply bind_ext. intros v st3 _.
  destruct v; rewrite ?(write_join _ _ _ _ _ _ _ Hsplit); try done.
  all: apply bind_ext; intros allowedW st4 _; destruct allowedW; simpl;
    [|done]; apply bind_ext; intros fresh st5 _; apply bind_ext;
    intros _ st6 _; by rewrite (write_join _ _ _ _ _ _ _ Hsplit).
Qed.

(** ** Inversion of a step followed by a continuation *)

Lemma bind_gets_inv {A B} (f : State -> option A) (k : A -> M B) st out st' :
  bind (gets f) k st = Some (out, st') →
  ∃ a, f st = Some a ∧ k a st = Some (out, st').
Proof.
  unfold bind, gets. destruct (f st) as [a|]; [|done]. eauto.
Qed.

Lemma bind_getRawValue_inv {B} this key (k : StoreValue -> M B) st out st' :
  bind (getRawValue this key) k st = Some (out, st') →
  ∃ obj, stores st !! this = Some obj ∧
         k (rawValueOf obj key) st = Some (out, st').
Proof.
  unfold getRawValue. intros (v & Hv & Hk)%bind_gets_inv.
  destruct (stores st !! this) as [obj|]; [|done].
  injection Hv as <-. eauto.
Qed.

Lemma bind_resolveValue_inv {B} value (k : StoreResult -> M B) st out st' :
  bind (resolveValue value) k st = Some (out, st') →
  ∃ r st1, resolveValue value st = Some (Returns r, st1) ∧
           k r st1 = Some (out, st').
Proof.
  intros [(e & Hres & _) | (r & st1 & Hres & Hk)]%bind_inv; [|by eauto].
  by destruct (resolveValue_unchanged _ _ _ _ Hres) as (_ & _ & r & [=]).
Qed.

Lemma bind_setRawValue_inv {B} this key value (k : unit -> M B) st out st' :
  bind (setRawValue this key value) k st = Some (out, st') →
  ∃ obj, stores st !! this = Some obj ∧
         k tt (stored st this obj key value) = Some (out, st').
Proof.
  unfold bind, setRawValue. destruct (stores st !! this) as [obj|]; [|done].
  simpl. eauto.
Qed.

(** ** Permissions are stable under every operation *)

Lemma policy_preserved_refl st : policy_preserved st st.
Proof. split; [done|]. intros l obj Hl. by exists obj. Qed.

Lemma policy_preserved_trans st1 st2 st3 :
  policy_preserved st1 st2 → policy_preserved st2 st3 → policy_preserved st1 st3.
Proof.
  intros [Hpm12 H12] [Hpm23 H23]. split; [congruence|].
  intros l obj Hl. destruct (H12 l obj Hl) as (obj2 & Hl2 & Hp2 & Hd2).
  destruct (H23 l obj2 Hl2) as (obj3 & Hl3 & Hp3 & Hd3).
  exists obj3. repeat split; congruence.
Qed.

Lemma policy_preserved_same st st' :
  stores st' = stores st → permissionsMap st' = permissionsMap st →
  policy_preserved st st'.
Proof.
  intros Hs Hpm. split; [done|]. intros l obj Hl. exists obj. by rewrite Hs.
Qed.

Lemma policy_preserved_stored st this obj key value :
  stores st !! this = Some obj →
  policy_preserved st (stored st this obj key value).
Proof.
  intros Hobj. split; [done|]. intros l o Hl.
  destruct (decide (l = this)) as [->|Hne].
  - rewrite Hobj in Hl. injection Hl as <-.
    exists (withRawValue obj key value).
    split; [by apply stored_lookup | apply withRawValue_policy].
  - exists o. by rewrite stored_lookup_ne.
Qed.

Lemma policy_preserved_vivify st this obj key :
  stores st !! this = Some obj →
  policy_preserved st (vivify st this obj key).
Proof.
  intros Hobj. split; [done|]. intros l o Hl.
  destruct (decide (l = this)) as [->|Hne].
  - rewrite Hobj in Hl. injection Hl as <-. eexists.
    split; [by apply vivify_lookup | apply withRawValue_policy].
  - exists o. by rewrite (vivify_lookup_old _ _ _ _ _ _ Hne Hl).
Qed.

Lemma policy_preserved_newStore st :
  policy_preserved st (set_stores (fun ss => ss ++ [emptyStore]) st).
Proof.
  split; [done|]. intros l o Hl. exists o. simpl.
  by rewrite (lookup_app_l_Some _ _ _ _ Hl).
Qed.

Lemma getPermissionForKey_preserved st st' l obj key :
  policy_preserved st st' → stores st !! l = Some obj →
  getPermissionForKey st' l key = getPermissionForKey st l key.
Proof.
  intros [Hpm Hobjs] Hl. destruct (Hobjs l obj Hl) as (obj' & Hl' & Hp & Hd).
  by apply (getPermissionForKey_ext st st' l obj obj').
Qed.

Lemma write_from_policy conv rest :
  (∀ j st out st', conv j st = Some (out, st') → policy_preserved st st') →
  ∀ this key value st out st',
    write_from conv this key rest value st = Some (out, st') →
    policy_preserved st st'.
Proof.
  intros Hconv. induction rest as [|key' rest' IH];
    intros this key value st out st' Hrun; cbn [write_from] in Hrun;
    apply bind_gets_inv in Hrun as (allowed & _ & Hrun);
    destruct allowed; simpl in Hrun;
    try (apply throw_inv in Hrun as [_ ->]; apply policy_preserved_refl).
  - apply bind_inv in Hrun as [(e & Hcv & _) | (sv & st1 & Hcv & Hrun)].
    + destruct value as [[|[p|a|o]|n]|f]; try done. by eapply Hconv.
    + apply bind_setRawValue_inv in Hrun as (obj & Hobj & Hret).
      apply ret_inv in Hret as [_ ->].
      apply (policy_preserved_trans _ st1).
      * destruct value as [[|[p|a|o]|n]|f];
          try (apply ret_inv in Hcv as [_ ->]; apply policy_preserved_refl).
        by eapply Hconv.
      * by apply policy_preserved_stored.
  - apply bind_getRawValue_inv in Hrun as (obj & Hobj & Hrun).
    apply bind_resolveValue_inv in Hrun as (r & st1 & Hres & Hrun).
    destruct (resolveValue_unchanged _ _ _ _ Hres) as (Hs & Hpm & _).
    apply (policy_preserved_trans _ st1); [by apply policy_preserved_same|].
    assert (stores st1 !! this = Some obj) as Hobj1 by by rewrite Hs.
    destruct r as [|j|nested]; [| |by eapply IH].
    all: apply bind_gets_inv in Hrun as (allowedW & _ & Hrun);
      destruct allowedW; simpl in Hrun;
      [|apply throw_inv in Hrun as [_ ->]; apply policy_preserved_refl];
      rewrite (vivify_run this key _ st1 obj Hobj1) in Hrun;
      apply (policy_preserved_trans _ (vivify st1 this obj key));
      [by apply policy_preserved_vivify | by eapply IH].
Qed.

Lemma writeEntries_with_policy conv convertEntry this entries :
  (∀ j st out st', conv j st = Some (out, st') → policy_preserved st st') →
  Forall (fun entry => ∀ st out st',
            convertEntry entry.2 st = Some (out, st') → policy_preserved st st')
         entries →
  ∀ st out st',
    writeEntries_with conv convertEntry this entries st = Some (out, st') →
    policy_preserved st st'.
Proof.
  intros Hconv Hentries. induction Hentries as [|[key v] entries Hv _ IH];
    intros st out st' Hrun; cbn [writeEntries_with] in Hrun.
  - apply ret_inv in Hrun as [_ ->]. apply policy_preserved_refl.
  - apply bind_inv in Hrun as [(e & Hcv & _) | (sv & st1 & Hcv & Hrun)];
      [by eapply Hv|].
    apply (policy_preserved_trans _ st1); [by eapply Hv|].
    apply bind_inv in Hrun as [(e & Hw & _) | (w & st2 & Hw & Hrun)].
    + by eapply write_from_policy.
    + apply (policy_preserved_trans _ st2); [by eapply write_from_policy|].
      by eapply IH.
Qed.

Lemma convertToStoreValue_policy j :
  ∀ st out st', convertToStoreValue j st = Some (out, st') →
  policy_preserved st st'.
Proof.
  induction j as [p|a|o IH] using JSONValue_ind; intros st out st' Hrun.
  - apply ret_inv in Hrun as [_ ->]. apply policy_preserved_refl.
  - apply ret_inv in Hrun as [_ ->]. apply policy_preserved_refl.
  - rewrite convertToStoreValue_obj in Hrun.
    unfold bind at 1 in Hrun. simpl in Hrun.
    apply (policy_preserved_trans _ _ _ (policy_preserved_newStore st)).
    apply bind_inv in Hrun as [(e & Hw & _) | (w & st2 & Hw & Hret)].
    + eapply writeEntries_with_policy; [|exact IH|exact Hw]. by intros.
    + apply ret_inv in Hret as [_ ->].
      eapply writeEntries_with_policy; [|exact IH|exact Hw]. by intros.
Qed.

Lemma write_policy this path value st out st' :
  write this path value st = Some (out, st') → policy_preserved st st'.
Proof. apply write_from_policy, convertToStoreValue_policy. Qed.

Lemma writeEntries_policy this entries st out st' :
  writeEntries this entries st = Some (out, st') → policy_preserved st st'.
Proof.
  apply writeEntries_with_policy; [apply convertToStoreValue_policy|].
  apply Forall_forall. intros entry _. apply convertToStoreValue_policy.
Qed.

(** ** Conversion of a plain object only creates objects *)

Lemma frame_refl b st : frame b st st.
Proof. by repeat split. Qed.

Lemma frame_trans b st1 st2 st3 :
  frame b st1 st2 → frame b st2 st3 → frame b st1 st3.
Proof.
  intros (Hl12 & Hn12 & Hp12 & Hm12) (Hl23 & Hn23 & Hp23 & Hm23).
  repeat split; [|lia|congruence..].
  intros l Hl. by rewrite Hl23, Hl12.
Qed.

Lemma frame_stored b st this obj key value :
  b ≤ this → frame b st (stored st this obj key value).
Proof.
  intros Hb. repeat split; simpl; [|by rewrite length_insert].
  intros l Hl. apply list_lookup_insert_ne. lia.
Qed.

Lemma frame_vivify b st this obj key :
  b ≤ this → stores st !! this = Some obj →
  frame b st (vivify st this obj key).
Proof.
  intros Hb Hobj. apply lookup_lt_Some in Hobj.
  repeat split; simpl; [|rewrite length_insert, length_app; lia].
  intros l Hl. rewrite list_lookup_insert_ne by lia. apply lookup_app_l. lia.
Qed.

Lemma frame_newStore b st :
  b ≤ length (stores st) →
  frame b st (set_stores (fun ss => ss ++ [emptyStore]) st).
Proof.
  intros Hb. repeat split; simpl; [|rewrite length_app; lia].
  intros l Hl. apply lookup_app_l. lia.
Qed.

Lemma rawValueOf_emptyStore key : rawValueOf emptyStore key = undefined.
Proof.
  unfold rawValueOf. destruct (is_slot_field emptyStore key) eqn:Hslot; [|done].
  apply is_slot_field_true in Hslot as [Hin _]. by apply elem_of_nil in Hin.
Qed.

Lemma region_stored b st this obj key value :
  region b st → stores st !! this = Some obj → closed_value b value →
  region b (stored st this obj key value).
Proof.
  intros Hregion Hobj Hvalue l o k Hb Hl.
  destruct (decide (l = this)) as [->|Hne].
  - rewrite (stored_lookup _ _ _ _ _ Hobj) in Hl. injection Hl as <-.
    destruct (decide (key = k)) as [->|Hk].
    + by rewrite rawValueOf_withRawValue.
    + rewrite rawValueOf_withRawValue_ne by done. by eapply Hregion.
  - rewrite stored_lookup_ne in Hl by done. by eapply Hregion.
Qed.

Lemma region_newStore b st :
  region b st → region b (set_stores (fun ss => ss ++ [emptyStore]) st).
Proof.
  intros Hregion l o k Hb Hl. simpl in Hl.
  destruct (decide (l < length (stores st))) as [Hlt|Hge].
  - rewrite lookup_app_l in Hl by done. by eapply Hregion.
  - rewrite lookup_app_r in Hl by lia.
    destruct (l - length (stores st)) as [|n]; simpl in Hl; [|done].
    injection Hl as <-. by rewrite rawValueOf_emptyStore.
Qed.

Lemma region_vivify b st this obj key :
  region b st → stores st !! this = Some obj → b ≤ length (stores st) →
  region b (vivify st this obj key).
Proof.
  intros Hregion Hobj Hb.
  change (vivify st this obj key)
    with (stored (set_stores (fun ss => ss ++ [emptyStore]) st) this obj key
            (ref (length (stores st)))).
  apply region_stored; [by apply region_newStore | | done].
  simpl. by apply lookup_app_l_Some.
Qed.

Lemma write_from_region conv b rest :
  ∀ this key value st out st',
    b ≤ this → region b st → closed_value b value → isJSONObject value = false →
    write_from conv this key rest value st = Some (out, st') →
    region b st' ∧ frame b st st'.
Proof.
  induction rest as [|key' rest' IH];
    intros this key value st out st' Hb Hregion Hvalue Hplain Hrun;
    cbn [write_from] in Hrun;
    apply bind_gets_inv in Hrun as (allowed & _ & Hrun);
    destruct allowed; simpl in Hrun;
    try (apply throw_inv in Hrun as [_ ->]; split; [done|apply frame_refl]).
  - assert (match value with
            | SResult (RJson (JObj o)) => conv (JObj o)
            | _ => ret value
            end = ret value) as Hret
      by by destruct value as [[|[p|a|o]|n]|f].
    rewrite Hret in Hrun. unfold bind at 1 in Hrun. simpl in Hrun.
    apply bind_setRawValue_inv in Hrun as (obj & Hobj & Hrun).
    apply ret_inv in Hrun as [_ ->].
    split; [by apply region_stored | by apply frame_stored].
  - apply bind_getRawValue_inv in Hrun as (obj & Hobj & Hrun).
    pose proof (Hregion this obj key Hb Hobj) as Hslot.
    destruct (rawValueOf obj key) as [r|f]; [|done].
    unfold bind at 1 in Hrun. simpl in Hrun.
    destruct r as [|j|nested];
      [| |by apply (IH nested key' value st out st' Hslot)].
    all: apply bind_gets_inv in Hrun as (allowedW & _ & Hrun);
      destruct allowedW; simpl in Hrun;
      [|apply throw_inv in Hrun as [_ ->]; split; [done|apply frame_refl]];
      rewrite (vivify_run this key _ st obj Hobj) in Hrun;
      pose proof (lookup_lt_Some _ _ _ Hobj) as Hlt;
      eapply IH in Hrun as [Hregion' Hframe'];
      [split; [done|]; eapply frame_trans; [by apply frame_vivify|done]
      | lia | apply region_vivify; [done..|lia] | done | done].
Qed.

Lemma writeEntries_with_region conv b this entries :
  b ≤ this →
  Forall (fun entry => ∀ st out st',
            b ≤ length (stores st) → region b st →
            convertToStoreValue entry.2 st = Some (out, st') →
            region b st' ∧ frame b st st' ∧
            ∀ sv, out = Returns sv → closed_value b sv)
         entries →
  ∀ st out st',
    b ≤ length (stores st) → region b st →
    writeEntries_with conv convertToStoreValue this entries st = Some (out, st') →
    region b st' ∧ frame b st st'.
Proof.
  intros Hb Hentries. induction Hentries as [|[key v] entries Hv _ IH];
    intros st out st' Hlen Hregion Hrun; cbn [writeEntries_with] in Hrun.
  - apply ret_inv in Hrun as [_ ->]. split; [done|apply frame_refl].
  - apply bind_inv in Hrun as [(e & Hcv & _) | (sv & st1 & Hcv & Hrun)].
    { destruct (Hv _ _ _ Hlen Hregion Hcv) as (? & ? & _). by split. }
    destruct (Hv _ _ _ Hlen Hregion Hcv) as (Hregion1 & Hframe1 & Hsv).
    pose proof (convert_not_object _ _ _ _ Hcv) as Hplain.
    apply bind_inv in Hrun as [(e & Hw & _) | (w & st2 & Hw & Hrun)].
    + eapply write_from_region in Hw as [Hregion2 Hframe2]; [|by eauto..].
      split; [done|]. by eapply frame_trans.
    + eapply write_from_region in Hw as [Hregion2 Hframe2]; [|by eauto..].
      eapply IH in Hrun as [Hregion3 Hframe3]; [| |done].
      * split; [done|]. eapply frame_trans; [|done]. by eapply frame_trans.
      * destruct Hframe1 as (_ & ? & _), Hframe2 as (_ & ? & _). lia.
Qed.

Lemma convertToStoreValue_region j :
  ∀ b st out st',
    b ≤ length (stores st) → region b st →
    convertToStoreValue j st = Some (out, st') →
    region b st' ∧ frame b st st' ∧ ∀ sv, out = Returns sv → closed_value b sv.
Proof.
  induction j as [p|a|o IH] using JSONValue_ind;
    intros b st out st' Hlen Hregion Hrun.
  - apply ret_inv in Hrun as [-> ->].
    split; [done|]. split; [apply frame_refl|]. by intros sv [= <-].
  - apply ret_inv in Hrun as [-> ->].
    split; [done|]. split; [apply frame_refl|]. by intros sv [= <-].
  - rewrite convertToStoreValue_obj in Hrun.
    unfold bind at 1 in Hrun. simpl in Hrun.
    pose proof (region_newStore b st Hregion) as Hregion0.
    pose proof (frame_newStore b st Hlen) as Hframe0.
    assert (region b st' ∧
            frame b (set_stores (fun ss => ss ++ [emptyStore]) st) st' ∧
            ∀ sv, out = Returns sv → closed_value b sv) as (H1 & H2 & H3).
    { assert (Forall (fun entry => ∀ st out st',
                b ≤ length (stores st) → region b st →
                convertToStoreValue entry.2 st = Some (out, st') →
                region b st' ∧ frame b st st' ∧
                ∀ sv, out = Returns sv → closed_value b sv) o) as IHb.
      { eapply Forall_impl; [exact IH|]. intros entry Hentry. apply Hentry. }
      assert (b ≤ length (stores
                (set_stores (fun ss => ss ++ [emptyStore]) st))) as Hlen0.
      { simpl. rewrite length_app. lia. }
      apply bind_inv in Hrun as [(e & Hw & ->) | (w & st2 & Hw & Hret)].
      - destruct (writeEntries_with_region _ b _ o Hlen IHb _ _ _
                    Hlen0 Hregion0 Hw) as [? ?].
        split; [done|]. split; [done|]. by intros sv [=].
      - apply ret_inv in Hret as [-> ->].
        destruct (writeEntries_with_region _ b _ o Hlen IHb _ _ _
                    Hlen0 Hregion0 Hw) as [? ?].
        split; [done|]. split; [done|]. by intros sv [= <-]. }
    split; [done|]. split; [by eapply frame_trans | done].
Qed.

(** Converting a value leaves every existing object, every closure and the
    registry as they were. *)
Lemma convertToStoreValue_frame j st out st' :
  convertToStoreValue j st = Some (out, st') →
  (∀ l obj, stores st !! l = Some obj → stores st' !! l = Some obj) ∧
  producers st' = producers st ∧ permissionsMap st' = permissionsMap st.
Proof.
  intros Hrun.
  eapply (convertToStoreValue_region j (length (stores st))) in Hrun
    as (_ & (Hl & _ & Hp & Hpm) & _); [|done|].
  - split; [|done]. intros l obj Hobj.
    rewrite Hl; [done|]. by eapply lookup_lt_Some.
  - intros l obj key Hge Hobj. apply lookup_lt_Some in Hobj. lia.
Qed.

Lemma policy_preserved_length st st' :
  policy_preserved st st' → length (stores st) ≤ length (stores st').
Proof.
  intros [_ Hobjs].
  destruct (decide (length (stores st) ≤ length (stores st'))) as [|Hgt]; [done|].
  destruct (lookup_lt_is_Some_2 (stores st) (length (stores st'))) as [obj Hobj];
    [lia|].
  destruct (Hobjs _ _ Hobj) as (obj' & Hobj' & _).
  apply lookup_lt_Some in Hobj'. lia.
Qed.

Lemma convertToStoreValue_obj_result o st sv st' :
  convertToStoreValue (JObj o) st = Some (Returns sv, st') →
  sv = ref (length (stores st)) ∧ length (stores st) < length (stores st').
Proof.
  rewrite convertToStoreValue_obj. unfold bind at 1. simpl.
  intros [(e & _ & [=]) | ([] & st2 & Hloop & Hret)]%bind_inv.
  apply ret_inv in Hret as [[= <-] <-]. split; [done|].
  assert (policy_preserved
            (set_stores (fun ss => ss ++ [emptyStore]) st) st') as Hpolicy.
  { eapply writeEntries_with_policy; [|apply Forall_forall|exact Hloop].
    - by intros.
    - intros entry _. apply convertToStoreValue_policy. }
  apply policy_preserved_length in Hpolicy. simpl in Hpolicy.
  rewrite length_app in Hpolicy. simpl in Hpolicy. lia.
Qed.

(** ** Writing to a reserved key name *)

Lemma bind_ret_r {A} (m : M A) st : bind m ret st = m st.
Proof. unfold bind, ret. by destruct (m st) as [[[a|e] st1]|]. Qed.

Lemma reserved_not_slot_field obj key :
  key = "defaultPolicy" ∨ key = "dynamicValues" → is_slot_field obj key = false.
Proof.
  intros Hreserved. apply not_true_is_false.
  intros (_ & Hdyn & Hpol)%is_slot_field_true. by destruct Hreserved.
Qed.

(** C10, amended: a single-segment write to the reserved names
    ["defaultPolicy"] and ["dynamicValues"] stores the value in the dynamic
    slot map and leaves the [defaultPolicy] field, and so the answers of
    [allowedToRead] and [allowedToWrite] for every key, unchanged; a later
    read of that key, when the key is readable, returns the resolution of
    the stored value and not the policy. *)
Theorem reserved_key_write_is_dynamic st this obj key value :
  key = "defaultPolicy" ∨ key = "dynamicValues" →
  stores st !! this = Some obj →
  (allowedToWrite st this key = Some true → isJSONObject value = false →
     write this key value st
     = Some (Returns value, stored st this obj key value)) ∧
  (∀ storeValue st',
     write this key value st = Some (Returns storeValue, st') →
     ∃ obj',
       stores st' !! this = Some obj' ∧
       defaultPolicy obj' = defaultPolicy obj ∧
       assoc_get (dynamicValues obj') key = Some storeValue ∧
       (∀ l k, l < length (stores st) →
          allowedToRead st' l k = allowedToRead st l k ∧
          allowedToWrite st' l k = allowedToWrite st l k) ∧
       (allowedToRead st this key = Some true →
          read this key st' = resolveValue storeValue st')).
Proof.
  intros Hreserved Hobj.
  assert (split key = [key]) as Hsplit by by destruct Hreserved as [-> | ->].
  split.
  - intros Hw Hplain. unfold write.
    rewrite (write_split _ _ _ _ _ _ Hsplit), write_from_terminal by done.
    unfold storeTerminal.
    assert (match value with
            | SResult (RJson (JObj o)) => convertToStoreValue (JObj o)
            | _ => ret value
            end = ret value) as ->
      by by destruct value as [[|[p|a|o]|n]|f].
    unfold bind at 1. simpl.
    by rewrite (bind_returns _ _ _ _ _ (setRawValue_run this key value st obj Hobj)).
  - intros storeValue st' Hrun.
    pose proof (write_policy _ _ _ _ _ _ Hrun) as Hpolicy.
    unfold write in Hrun. rewrite (write_split _ _ _ _ _ _ Hsplit) in Hrun.
    cbn [write_from] in Hrun.
    apply bind_gets_inv in Hrun as (allowed & _ & Hrun).
    destruct allowed; simpl in Hrun; [|by apply throw_inv in Hrun as [[=] _]].
    apply bind_inv in Hrun as [(e & _ & [=]) | (sv & st1 & Hcv & Hrun)].
    apply bind_setRawValue_inv in Hrun as (obj1 & Hobj1 & Hret).
    apply ret_inv in Hret as [[= <-] ->].
    assert (policy_preserved st st1) as Hpolicy1.
    { destruct value as [[|[p|a|o]|n]|f];
        try (apply ret_inv in Hcv as [_ ->]; apply policy_preserved_refl).
      exact (convertToStoreValue_policy (JObj o) _ _ _ Hcv). }
    destruct Hpolicy1 as [_ Hobjs].
    destruct (Hobjs this obj Hobj) as (obj1' & Hobj1' & _ & Hdefault).
    rewrite Hobj1 in Hobj1'. injection Hobj1' as <-.
    exists (withRawValue obj1 key storeValue).
    split; [by apply stored_lookup|].
    split; [by rewrite (proj2 (withRawValue_policy obj1 key storeValue))|].
    split.
    { unfold withRawValue. rewrite reserved_not_slot_field by done. simpl.
      apply assoc_get_set. }
    split.
    { intros l k [o Hl]%lookup_lt_is_Some_2.
      unfold allowedToRead, allowedToWrite.
      by rewrite (getPermissionForKey_preserved _ _ l o k Hpolicy Hl). }
    intros Hread.
    rewrite (read_split _ _ _ _ Hsplit). cbn [read_from].
    rewrite (bind_gets _ _ _ true).
    + cbn [negb].
      rewrite (bind_returns _ _ _ _ _
        (getRawValue_run this key _ _ (stored_lookup _ _ _ key storeValue Hobj1))).
      rewrite rawValueOf_withRawValue. apply bind_ret_r.
    + unfold allowedToRead.
      by rewrite (getPermissionForKey_preserved _ _ this obj key Hpolicy Hobj).
Qed.

Lemma reserved_key_write_is_dynamic_witness :
  write 0 "defaultPolicy" (json (str "none")) st_empty
    = Some (Returns (json (str "none")), st_empty_dp) ∧
  allowedToWrite st_empty_dp 0 "x" = Some true ∧
  read 0 "defaultPolicy" st_empty_dp
    = Some (Returns (RJson (str "none")), st_empty_dp).
Proof.
  destruct (reserved_key_write_is_dynamic st_empty 0 emptyStore "defaultPolicy"
    (json (str "none")) (or_introl eq_refl) eq_refl) as [Hwrite Hafter].
  specialize (Hwrite eq_refl eq_refl).
  destruct (Hafter _ _ Hwrite) as (obj' & _ & _ & _ & Hallowed & Hread).
  split; [exact Hwrite|]. split.
  - exact (eq_trans (proj2 (Hallowed 0 "x" (Nat.lt_0_succ 0))) eq_refl).
  - exact (eq_trans (Hread eq_refl) eq_refl).
Defined.

(** C10 as stated fails: on a store whose default policy is write-only the
    write to ["defaultPolicy"] succeeds, and the read that follows does not
    return the stored value; it throws the access error. *)
Lemma reserved_key_read_may_be_denied :
  write 0 "defaultPolicy" (json (num 5)) st_writeonly
    = Some (Returns (json (num 5)), st_writeonly_dp) ∧
  read 0 "defaultPolicy" st_writeonly_dp
    = Some (Throws (ReadDenied "defaultPolicy"), st_writeonly_dp) ∧
  read 0 "defaultPolicy" st_writeonly_dp
    ≠ Some (Returns (RJson (num 5)), st_writeonly_dp).
Proof. repeat split; [vm_compute; reflexivity..|]. by vm_compute. Qed.

(** ** [entries] *)

Lemma unique_from_spec seen keys :
  NoDup (unique_from seen keys) ∧
  ∀ k, k ∈ unique_from seen keys ↔ k ∈ keys ∧ k ∉ seen.
Proof.
  revert seen. induction keys as [|key keys IH]; intros seen; simpl.
  - split; [constructor|]. intros k. rewrite elem_of_nil. tauto.
  - destruct (decide (key ∈ seen)) as [Hseen|Hnew].
    + destruct (IH seen) as [Hnodup Hin]. split; [done|].
      intros k. rewrite Hin, elem_of_cons. split; [tauto|].
      intros [[->|Hk] Hnot]; tauto.
    + destruct (IH (key :: seen)) as [Hnodup Hin]. split.
      * constructor; [|done]. rewrite Hin, not_elem_of_cons. tauto.
      * intros k. rewrite !elem_of_cons, Hin, not_elem_of_cons.
        destruct (decide (k = key)) as [->|Hne]; tauto.
Qed.

Lemma unique_NoDup keys : NoDup (unique keys).
Proof. apply unique_from_spec. Qed.

Lemma allKeysOf_slot_names obj : allKeysOf obj = slot_names obj.
Proof. reflexivity. Qed.

Lemma entries_loop_sound entriesOf this :
  (∀ nested st sub st',
     entriesOf nested st = Some (Returns sub, st') → snapshot st nested sub st') →
  ∀ keys acc st result st',
    NoDup keys → (∀ k, k ∈ keys → k ∉ acc.*1) →
    entries_loop entriesOf this keys acc st = Some (Returns result, st') →
    ∃ r, result = acc ++ r ∧ snapshot_slots st this keys r st'.
Proof.
  intros Hnested. induction keys as [|key keys IH];
    intros acc st result st' Hnodup Hfresh Hrun; cbn [entries_loop] in Hrun.
  - apply ret_inv in Hrun as [[= <-] ->]. exists [].
    split; [by rewrite app_nil_r | constructor].
  - apply NoDup_cons in Hnodup as [Hkey Hnodup].
    assert (∀ k, k ∈ keys → k ∉ acc.*1) as Hfresh'
      by (intros k Hk; apply Hfresh; by apply list_elem_of_further).
    assert (key ∉ acc.*1) as Hacc by apply Hfresh, list_elem_of_here.
    assert (∀ v k, k ∈ keys → k ∉ (assoc_set acc key v).*1) as Hfresh''.
    { intros v k Hk. rewrite assoc_set_fresh, fmap_app, elem_of_app by done.
      simpl. rewrite list_elem_of_singleton.
      intros [Hin| ->]; [by apply (Hfresh' k)|done]. }
    apply bind_gets_inv in Hrun as (allowed & Hallowed & Hrun).
    destruct allowed.
    + rewrite resolved_bind in Hrun.
      apply bind_inv in Hrun as [(e & _ & [=]) | (r & st1 & Hres & Hrun)].
      destruct r as [|j|nested].
      * apply IH in Hrun as (r & -> & Hslots); [|done..].
        exists r. split; [done|]. by eapply slot_undefined.
      * apply IH in Hrun as (r & -> & Hslots); [|by auto..].
        exists ((key, j) :: r). rewrite assoc_set_fresh by done.
        split; [by rewrite <- app_assoc|]. by eapply slot_value.
      * apply bind_inv in Hrun as [(e & _ & [=]) | (sub & st2 & Hsub & Hrun)].
        apply IH in Hrun as (r & -> & Hslots); [|by auto..].
        exists ((key, JObj sub) :: r). rewrite assoc_set_fresh by done.
        split; [by rewrite <- app_assoc|].
        eapply slot_container; [done..|by apply Hnested|done].
    + apply IH in Hrun as (r & -> & Hslots); [|done..].
      exists r. split; [done|]. by apply slot_unreadable.
Qed.

Lemma entries_sound depth :
  ∀ this st result st',
    entries depth this st = Some (Returns result, st') →
    snapshot st this result st'.
Proof.
  induction depth as [|depth IH]; intros this st result st' Hrun; [done|].
  cbn [entries] in Hrun. unfold getAllKeys in Hrun.
  apply bind_gets_inv in Hrun as (keys & Hkeys & Hrun).
  destruct (stores st !! this) as [obj|] eqn:Hobj; [|done].
  injection Hkeys as <-.
  apply (entries_loop_sound _ _ IH) in Hrun as (r & -> & Hslots).
  - by eapply snapshot_of.
  - apply unique_NoDup.
  - intros k _. apply not_elem_of_nil.
Qed.

Lemma entries_complete st this result st' :
  snapshot st this result st' →
  ∃ depth, ∀ depth', depth ≤ depth' →
    entries depth' this st = Some (Returns result, st').
Proof.
  revert st this result st'.
  apply (snapshot_mut
    (fun st this result st' =>
       ∃ depth, ∀ depth', depth ≤ depth' →
         entries depth' this st = Some (Returns result, st'))
    (fun st this keys r st' =>
       ∃ depth, ∀ depth', depth ≤ depth' → ∀ acc,
         NoDup keys → (∀ k, k ∈ keys → k ∉ acc.*1) →
         entries_loop (entries depth') this keys acc st
         = Some (Returns (acc ++ r), st'))).
  - intros st this obj result st' Hobj _ [depth Hloop].
    exists (S depth). intros [|depth'] Hle; [lia|].
    cbn [entries]. unfold getAllKeys. rewrite (bind_gets _ _ st (allKeysOf obj)).
    + apply (Hloop depth' ltac:(lia) []); [apply unique_NoDup|].
      intros k _. apply not_elem_of_nil.
    + by rewrite Hobj.
  - intros st this. exists 0. intros depth' _ acc _ _. simpl.
    by rewrite app_nil_r.
  - intros st this key keys result st' Hdenied _ [depth Hloop].
    exists depth. intros depth' Hle acc [Hkey Hnodup]%NoDup_cons Hfresh.
    cbn [entries_loop]. rewrite (bind_gets _ _ st false) by done.
    apply Hloop; [done..|]. intros k Hk. by apply Hfresh, list_elem_of_further.
  - intros st this key keys result st1 st' Hallowed Hres _ [depth Hloop].
    exists depth. intros depth' Hle acc [Hkey Hnodup]%NoDup_cons Hfresh.
    cbn [entries_loop]. rewrite (bind_gets _ _ st true) by done.
    rewrite resolved_bind, (bind_returns _ _ _ _ _ Hres).
    apply Hloop; [done..|]. intros k Hk. by apply Hfresh, list_elem_of_further.
  - intros st this key keys nested sub result st1 st2 st' Hallowed Hres
      _ [depth1 Hsub] _ [depth2 Hloop].
    exists (depth1 `max` depth2).
    intros depth' Hle acc [Hkey Hnodup]%NoDup_cons Hfresh.
    assert (key ∉ acc.*1) as Hacc by apply Hfresh, list_elem_of_here.
    cbn [entries_loop]. rewrite (bind_gets _ _ st true) by done.
    rewrite resolved_bind, (bind_returns _ _ _ _ _ Hres).
    rewrite (bind_returns _ _ _ _ _ (Hsub depth' ltac:(lia))).
    rewrite assoc_set_fresh by done.
    rewrite (Hloop depth' ltac:(lia) (acc ++ [(key, JObj sub)])); [|done|].
    + by rewrite <- app_assoc.
    + intros k Hk. rewrite fmap_app, elem_of_app. simpl.
      rewrite list_elem_of_singleton. intros [Hin| ->]; [|done].
      by apply (Hfresh k); [apply list_elem_of_further|].
  - intros st this key keys j result st1 st' Hallowed Hres _ [depth Hloop].
    exists depth. intros depth' Hle acc [Hkey Hnodup]%NoDup_cons Hfresh.
    assert (key ∉ acc.*1) as Hacc by apply Hfresh, list_elem_of_here.
    cbn [entries_loop]. rewrite (bind_gets _ _ st true) by done.
    rewrite resolved_bind, (bind_returns _ _ _ _ _ Hres).
    rewrite assoc_set_fresh by done.
    rewrite (Hloop depth' Hle (acc ++ [(key, j)])); [|done|].
    + by rewrite <- app_assoc.
    + intros k Hk. rewrite fmap_app, elem_of_app. simpl.
      rewrite list_elem_of_singleton. intros [Hin| ->]; [|done].
      by apply (Hfresh k); [apply list_elem_of_further|].
Qed.

Lemma entries_loop_never_throws entriesOf this :
  (∀ nested st e st', entriesOf nested st ≠ Some (Throws e, st')) →
  ∀ keys acc st e st',
    entries_loop entriesOf this keys acc st ≠ Some (Throws e, st').
Proof.
  intros Hnested. induction keys as [|key keys IH]; intros acc st e st' Hrun;
    cbn [entries_loop] in Hrun; [done|].
  apply bind_gets_inv in Hrun as (allowed & _ & Hrun).
  destruct allowed; [|by eapply IH].
  rewrite resolved_bind in Hrun.
  apply bind_inv in Hrun as [(e' & Hres & _) | (r & st1 & Hres & Hrun)].
  { by destruct (resolvedValueAt_unchanged _ _ _ _ _ Hres) as (_ & _ & r & [=]). }
  destruct r as [|j|nested]; [by eapply IH..|].
  apply bind_inv in Hrun as [(e' & Hsub & _) | (sub & st2 & _ & Hrun)];
    [by eapply Hnested | by eapply IH].
Qed.

Lemma entries_never_throws depth :
  ∀ this st e st', entries depth this st ≠ Some (Throws e, st').
Proof.
  induction depth as [|depth IH]; intros this st e st' Hrun; [done|].
  cbn [entries] in Hrun. unfold getAllKeys in Hrun.
  apply bind_gets_inv in Hrun as (keys & _ & Hrun).
  by eapply entries_loop_never_throws.
Qed.

(** Taking a snapshot calls producers and changes nothing else. *)
Lemma snapshot_state_unchanged st this result st' :
  snapshot st this result st' →
  stores st' = stores st ∧ permissionsMap st' = permissionsMap st.
Proof.
  revert st this result st'.
  apply (snapshot_mut
    (fun st _ _ st' =>
       stores st' = stores st ∧ permissionsMap st' = permissionsMap st)
    (fun st _ _ _ st' =>
       stores st' = stores st ∧ permissionsMap st' = permissionsMap st)).
  - by intros.
  - by intros.
  - by intros.
  - intros st this key keys result st1 st' _ Hres _ [Hs Hpm].
    destruct (resolvedValueAt_unchanged _ _ _ _ _ Hres) as (Hs1 & Hpm1 & _).
    split; congruence.
  - intros st this key keys nested sub result st1 st2 st' _ Hres
      _ [Hs2 Hpm2] _ [Hs Hpm].
    destruct (resolvedValueAt_unchanged _ _ _ _ _ Hres) as (Hs1 & Hpm1 & _).
    split; congruence.
  - intros st this key keys j result st1 st' _ Hres _ [Hs Hpm].
    destruct (resolvedValueAt_unchanged _ _ _ _ _ Hres) as (Hs1 & Hpm1 & _).
    split; congruence.
Qed.

Lemma snapshot_slots_readable st this keys result st' :
  snapshot_slots st this keys result st' →
  ∀ key, key ∈ result.*1 →
    key ∈ keys ∧ allowedToRead st this key = Some true.
Proof.
  induction 1 as [st this
    | st this k keys result st' Hdenied Hslots IH
    | st this k keys result st1 st' Hallowed Hres Hslots IH
    | st this k keys nested sub result st1 st2 st' Hallowed Hres Hsub Hslots IH
    | st this k keys j result st1 st' Hallowed Hres Hslots IH];
    intros key Hkey.
  - by apply elem_of_nil in Hkey.
  - destruct (IH key Hkey) as [Hin Hread].
    split; [by apply list_elem_of_further | done].
  - destruct (IH key Hkey) as [Hin Hread].
    split; [by apply list_elem_of_further|].
    destruct (resolvedValueAt_unchanged _ _ _ _ _ Hres) as (Hs & Hpm & _).
    by rewrite <- (allowedToRead_same st st1).
  - rewrite fmap_cons in Hkey. apply elem_of_cons in Hkey as [->|Hkey].
    { split; [apply list_elem_of_here | done]. }
    destruct (IH key Hkey) as [Hin Hread].
    split; [by apply list_elem_of_further|].
    destruct (resolvedValueAt_unchanged _ _ _ _ _ Hres) as (Hs1 & Hpm1 & _).
    destruct (snapshot_state_unchanged _ _ _ _ Hsub) as (Hs2 & Hpm2).
    rewrite <- (allowedToRead_same st st2); [done|congruence..].
  - rewrite fmap_cons in Hkey. apply elem_of_cons in Hkey as [->|Hkey].
    { split; [apply list_elem_of_here | done]. }
    destruct (IH key Hkey) as [Hin Hread].
    split; [by apply list_elem_of_further|].
    destruct (resolvedValueAt_unchanged _ _ _ _ _ Hres) as (Hs & Hpm & _).
    by rewrite <- (allowedToRead_same st st1).
Qed.

(** C7: [entries] returns the snapshot the specification describes, over
    the union of the declared and dynamic slot names: unreadable keys are
    left out and raise nothing, keys resolving to [undefined] are left out,
    a nested container is mapped to its own [entries], every other readable
    key to its resolved value.  The snapshot exists exactly when [entries]
    returns it at some nesting depth; [entries] never throws; and every key
    of the result is a readable slot name of the container. *)
Theorem entries_is_snapshot st this :
  (∀ result st',
     (∃ depth, entries depth this st = Some (Returns result, st'))
     ↔ snapshot st this result st') ∧
  (∀ depth e st', entries depth this st ≠ Some (Throws e, st')) ∧
  (∀ depth result st' key,
     entries depth this st = Some (Returns result, st') →
     key ∈ result.*1 →
     allowedToRead st this key = Some true ∧
     ∃ obj, stores st !! this = Some obj ∧ key ∈ slot_names obj).
Proof.
  split; [|split; [intros depth; apply entries_never_throws|]].
  - intros result st'. split.
    + intros [depth Hrun]. by eapply entries_sound.
    + intros [depth Hdepth]%entries_complete. exists depth. by apply Hdepth.
  - intros depth result st' key Hrun%entries_sound Hkey.
    destruct Hrun as [st this obj result st' Hobj Hslots].
    destruct (snapshot_slots_readable _ _ _ _ _ Hslots key Hkey) as [Hin Hread].
    split; [done|]. by exists obj.
Qed.

Lemma entries_is_snapshot_witness :
  snapshot st_pub_secret 0 [("pub", num 1)] st_pub_secret ∧
  allowedToRead st_pub_secret 0 "secret" = Some false.
Proof.
  split; [|vm_compute; reflexivity].
  apply (proj1 (entries_is_snapshot st_pub_secret 0)).
  exists 1. vm_compute. reflexivity.
Defined.

Example entries_omits_unreadable :
  entries 1 0 st_pub_secret = Some (Returns [("pub", num 1)], st_pub_secret).
Proof. vm_compute. reflexivity. Qed.

(** ** Round trip through a path *)

Lemma unrestricted_same st st' key :
  permissionsMap st' = permissionsMap st →
  unrestricted st key → unrestricted st' key.
Proof. unfold unrestricted, declared. by intros ->. Qed.

Lemma allowed_unrestricted st this obj key :
  stores st !! this = Some obj → defaultPolicy obj = PermRW →
  unrestricted st key →
  allowedToRead st this key = Some true ∧ allowedToWrite st this key = Some true.
Proof.
  intros Hobj Hrw Hun. unfold allowedToRead, allowedToWrite.
  by rewrite (getPermissionForKey_unrestricted st this obj key).
Qed.

Lemma resolvedValueAt_result this key st obj r :
  stores st !! this = Some obj → rawValueOf obj key = SResult r →
  resolvedValueAt this key st = Some (Returns r, st).
Proof.
  intros Hobj Hraw. by rewrite (resolvedValueAt_run _ _ _ _ Hobj), Hraw.
Qed.

Lemma write_from_into_empty conv this key key' rest' value st :
  stores st !! this = Some emptyStore → unrestricted st key →
  write_from conv this key (key' :: rest') value st
  = write_from conv (length (stores st)) key' rest' value
      (vivify st this emptyStore key).
Proof.
  intros Hobj Hun.
  destruct (allowed_unrestricted st this emptyStore key Hobj eq_refl Hun)
    as [Hread Hwrite].
  apply (write_from_replace _ _ _ _ _ _ _ RUndefined); [done| |done..].
  apply (resolvedValueAt_result _ _ _ emptyStore); [done|].
  apply rawValueOf_emptyStore.
Qed.

Lemma assoc_set_keys_elem {V} (m : list (string * V)) key value k :
  k ∈ (assoc_set m key value).*1 ↔ k ∈ m.*1 ∨ k = key.
Proof.
  destruct (decide (key ∈ m.*1)) as [Hin|Hnotin].
  - rewrite assoc_set_keys_present by done. split; [tauto|].
    intros [?| ->]; done.
  - rewrite assoc_set_fresh, fmap_app, elem_of_app by done. simpl.
    by rewrite list_elem_of_singleton.
Qed.

Lemma elem_of_unique keys k : k ∈ unique keys ↔ k ∈ keys.
Proof.
  unfold unique. rewrite (proj2 (unique_from_spec [] keys)).
  split; [tauto|]. intros Hk. split; [done|apply not_elem_of_nil].
Qed.

Lemma elem_of_declared_slots obj k :
  k ∈ declared_slots obj ↔ is_slot_field obj k = true.
Proof.
  unfold declared_slots. rewrite list_elem_of_filter, is_slot_field_true. tauto.
Qed.

Lemma elem_of_slot_names_withRawValue obj key value k :
  k ∈ slot_names (withRawValue obj key value) ↔ k ∈ slot_names obj ∨ k = key.
Proof.
  unfold slot_names. rewrite !elem_of_unique, !elem_of_app.
  rewrite !elem_of_declared_slots, is_slot_field_withRawValue.
  unfold dynamic_slots, withRawValue.
  destruct (is_slot_field obj key) eqn:Hslot; simpl.
  - split; [tauto|]. intros [?| ->]; tauto.
  - rewrite assoc_set_keys_elem. tauto.
Qed.

Lemma NoDup_all_equal (keys : list string) a :
  NoDup keys → (∀ k, k ∈ keys ↔ k = a) → keys = [a].
Proof.
  intros Hnodup Hall. destruct keys as [|k keys].
  - exfalso. eapply not_elem_of_nil. by apply (Hall a).
  - apply NoDup_cons in Hnodup as [Hk Hnodup].
    assert (k = a) as -> by apply Hall, list_elem_of_here.
    f_equal. destruct keys as [|k' keys]; [done|]. exfalso. apply Hk.
    assert (k' = a) as -> by apply Hall, list_elem_of_further, list_elem_of_here.
    apply list_elem_of_here.
Qed.

Lemma slot_names_only obj key value :
  (∀ k, k ∈ slot_names obj → k = key) →
  slot_names (withRawValue obj key value) = [key].
Proof.
  intros Honly. apply NoDup_all_equal; [apply unique_NoDup|].
  intros k. rewrite elem_of_slot_names_withRawValue.
  split; [intros [?|?]; auto | auto].
Qed.

Lemma storeTerminal_plain this key value st obj :
  isJSONObject value = false → stores st !! this = Some obj →
  storeTerminal this key value st
  = Some (Returns value, stored st this obj key value).
Proof.
  intros Hplain Hobj. unfold storeTerminal.
  assert (match value with
          | SResult (RJson (JObj o)) => convertToStoreValue (JObj o)
          | _ => ret value
          end = ret value) as ->
    by by destruct value as [[|[p|a|o]|n]|f].
  unfold bind at 1. simpl.
  by rewrite (bind_returns _ _ _ _ _ (setRawValue_run this key value st obj Hobj)).
Qed.

Lemma vivify_length st this obj key :
  length (stores (vivify st this obj key)) = S (length (stores st)).
Proof. simpl. rewrite length_insert, length_app. simpl. lia. Qed.

Lemma elem_of_allKeysOf obj k :
  k ∈ allKeysOf obj ↔
  (k ∈ (fields obj).*1 ∧ k ≠ "dynamicValues" ∧ k ≠ "defaultPolicy") ∨
  k ∈ (dynamicValues obj).*1.
Proof.
  rewrite allKeysOf_slot_names. unfold slot_names.
  rewrite elem_of_unique, elem_of_app, elem_of_declared_slots.
  by rewrite is_slot_field_true.
Qed.

Lemma rawValueOf_absent obj key :
  key ∉ allKeysOf obj → rawValueOf obj key = undefined.
Proof.
  rewrite elem_of_allKeysOf. intros Habsent. unfold rawValueOf.
  destruct (is_slot_field obj key) eqn:Hslot.
  - apply is_slot_field_true in Hslot. tauto.
  - assert (assoc_get (dynamicValues obj) key = None) as ->; [|done].
    apply assoc_get_None. tauto.
Qed.

Lemma read_from_terminal_resolves this key st obj :
  stores st !! this = Some obj → allowedToRead st this key = Some true →
  read_from this key [] st = resolveValue (rawValueOf obj key) st.
Proof.
  intros Hobj Hallowed. cbn [read_from].
  rewrite (bind_gets _ _ _ true) by done. cbn [negb].
  rewrite (bind_returns _ _ _ _ _ (getRawValue_run this key st obj Hobj)).
  apply bind_ret_r.
Qed.

Lemma vivify_lookup_below st this obj key l :
  stores st !! this = Some obj → l ≠ this → l < length (stores st) →
  stores (vivify st this obj key) !! l = stores st !! l.
Proof.
  intros Hobj Hne Hlt. simpl. rewrite list_lookup_insert_ne by done.
  by apply lookup_app_l.
Qed.

Lemma allowedToRead_is_Some st l key allowed :
  allowedToRead st l key = Some allowed → ∃ obj, stores st !! l = Some obj.
Proof.
  unfold allowedToRead, getPermissionForKey.
  destruct (stores st !! l) as [obj|]; [by exists obj | done].
Qed.

Lemma allowedToRead_total st this obj key :
  stores st !! this = Some obj → ∃ allowed, allowedToRead st this key = Some allowed.
Proof.
  intros Hobj. unfold allowedToRead.
  rewrite (getPermissionForKey_order st this obj key Hobj). by eexists.
Qed.

Lemma same_bodies_refl st : same_bodies st st.
Proof. intros f p Hp. by exists p. Qed.

Lemma same_bodies_trans st1 st2 st3 :
  same_bodies st1 st2 → same_bodies st2 st3 → same_bodies st1 st3.
Proof.
  intros H12 H23 f p Hp. destruct (H12 f p Hp) as (p2 & Hp2 & Hb2).
  destruct (H23 f p2 Hp2) as (p3 & Hp3 & Hb3). exists p3. split; congruence.
Qed.

Lemma called_since_refl st : called_since st st.
Proof. repeat split. apply same_bodies_refl. Qed.

Lemma called_since_trans st1 st2 st3 :
  called_since st1 st2 → called_since st2 st3 → called_since st1 st3.
Proof.
  intros (Hs12 & Hpm12 & Hb12) (Hs23 & Hpm23 & Hb23).
  repeat split; [congruence..|]. by eapply same_bodies_trans.
Qed.

Lemma resolveValue_called value r st st1 :
  resolveValue value st = Some (Returns r, st1) → called_since st st1.
Proof.
  destruct value as [r0|f]; simpl.
  - intros [= _ <-]. apply called_since_refl.
  - destruct (producers st !! f) as [p|] eqn:Hp; [|done]. simpl.
    intros [= _ <-]. repeat split. intros f' p' Hp'. simpl.
    destruct (decide (f' = f)) as [->|Hne].
    + exists (called p). rewrite list_lookup_insert_eq by by eapply lookup_lt_Some.
      split; [done|]. simpl. congruence.
    + exists p'. by rewrite list_lookup_insert_ne.
Qed.

Lemma resolvedValueAt_called this key r st st1 :
  resolvedValueAt this key st = Some (Returns r, st1) → called_since st st1.
Proof.
  unfold resolvedValueAt. intros Hrun.
  apply bind_getRawValue_inv in Hrun as (obj & Hobj & Hrun).
  by eapply resolveValue_called.
Qed.

Lemma steady_later st s value :
  steady st value → same_bodies st s → steady s value.
Proof.
  destruct value as [r|f]; [done|]. intros (p & Hp & Hsame) Hbodies.
  destruct (Hbodies f p Hp) as (p' & Hp' & Hb'). exists p'. split; [done|].
  intros n. unfold result. rewrite Hb', !Hsame. done.
Qed.

(** A steady slot value resolves to what it resolved to before, in whatever
    environments the closures are by now. *)
Lemma steady_resolves st value r st1 st3 :
  steady st value → resolveValue value st = Some (Returns r, st1) →
  same_bodies st st3 →
  ∃ st4, resolveValue value st3 = Some (Returns r, st4) ∧ called_since st3 st4.
Proof.
  intros Hsteady Hres Hbodies. destruct value as [r0|f].
  - injection Hres as <- _. exists st3. split; [done | apply called_since_refl].
  - destruct Hsteady as (p & Hp & Hsame).
    rewrite (resolveValue_fun f p st Hp) in Hres. injection Hres as <- _.
    destruct (Hbodies f p Hp) as (p3 & Hp3 & Hb3).
    exists (invoked st3 f p3). split.
    + rewrite (resolveValue_fun f p3 st3 Hp3). do 3 f_equal.
      unfold result at 1. rewrite Hb3. apply Hsame.
    + eapply resolveValue_called. apply (resolveValue_fun f p3 st3 Hp3).
Qed.

Lemma hidden_later st s l obj obj' k :
  hidden st l obj k →
  allowedToRead s l k = allowedToRead st l k → same_bodies st s →
  rawValueOf obj' k = rawValueOf obj k →
  hidden s l obj' k.
Proof.
  intros [Hdenied | (Hsteady & st1 & Hres)] Hread Hbodies Hraw.
  - left. by rewrite Hread.
  - right. rewrite Hraw. split; [by eapply steady_later|].
    destruct (steady_resolves _ _ _ _ s Hsteady Hres Hbodies) as (s' & Hres' & _).
    by exists s'.
Qed.

Lemma visible_later st s l obj obj' k :
  visible st l obj k →
  allowedToRead s l k = allowedToRead st l k → same_bodies st s →
  rawValueOf obj' k = rawValueOf obj k →
  visible s l obj' k.
Proof.
  intros (Hallowed & Hsteady & r & st1 & Hres & Hr) Hread Hbodies Hraw.
  split; [by rewrite Hread|]. rewrite Hraw. split; [by eapply steady_later|].
  destruct (steady_resolves _ _ _ _ s Hsteady Hres Hbodies) as (s' & Hres' & _).
  by exists r, s'.
Qed.

Lemma hidden_not_visible st l obj k :
  hidden st l obj k → visible st l obj k → False.
Proof.
  intros [Hdenied | (_ & st1 & Hres)] (Hallowed & _ & r & st1' & Hres' & Hr).
  - congruence.
  - rewrite Hres in Hres'. by injection Hres' as <- _.
Qed.

Lemma kept_weaken keys keys' st st' :
  kept keys st st' → (∀ k, k ∈ keys → k ∈ keys') → kept keys' st st'.
Proof.
  intros (Hpm & Hb & Hobjs) Hsub. split; [done|]. split; [done|].
  intros l obj Hl. destruct (Hobjs l obj Hl) as (obj' & Hl' & Hp & Hd & Hraw).
  exists obj'. repeat split; try done. intros k Hk. apply Hraw. auto.
Qed.

Lemma kept_called keys st st1 st2 :
  called_since st st1 → kept keys st1 st2 → kept keys st st2.
Proof.
  intros (Hs & Hpm & Hb) (Hpm' & Hb' & Hobjs).
  split; [congruence|]. split; [by eapply same_bodies_trans|].
  intros l obj Hl. apply Hobjs. by rewrite Hs.
Qed.

Lemma kept_stored st this obj key value :
  stores st !! this = Some obj →
  kept [key] st (stored st this obj key value).
Proof.
  intros Hobj. split; [done|]. split; [by intros f p Hp; exists p|].
  intros l o Hl. destruct (decide (l = this)) as [->|Hne].
  - rewrite Hobj in Hl. injection Hl as <-.
    exists (withRawValue obj key value).
    split; [by apply stored_lookup|].
    split; [apply withRawValue_policy|]. split; [apply withRawValue_policy|].
    intros k Hk. apply rawValueOf_withRawValue_ne. intros ->.
    apply Hk, list_elem_of_here.
  - exists o. by rewrite stored_lookup_ne.
Qed.

Lemma slot_names_emptyStore key value :
  slot_names (withRawValue emptyStore key value) = [key].
Proof. apply slot_names_only. intros k Hk. by apply elem_of_nil in Hk. Qed.

Lemma slot_names_present obj key :
  rawValueOf obj key ≠ undefined → key ∈ slot_names obj.
Proof.
  intros Hraw. rewrite <- allKeysOf_slot_names.
  destruct (decide (key ∈ allKeysOf obj)) as [|Habsent]; [done|].
  by apply rawValueOf_absent in Habsent.
Qed.

Lemma visible_slot st l obj k : visible st l obj k → k ∈ slot_names obj.
Proof.
  intros (_ & _ & r & st1 & Hres & Hr). apply slot_names_present.
  intros Hundef. rewrite Hundef in Hres. by injection Hres as <- _.
Qed.

(** *** One step of the loop of [entries] *)

Lemma entries_loop_hidden entriesOf l k keys acc s obj :
  stores s !! l = Some obj → hidden s l obj k →
  ∃ s', called_since s s' ∧
        entries_loop entriesOf l (k :: keys) acc s
        = entries_loop entriesOf l keys acc s'.
Proof.
  intros Hobj Hhidden. cbn [entries_loop].
  destruct (allowedToRead_total s l obj k Hobj) as [[|] Hallowed].
  - destruct Hhidden as [Hdenied | (_ & s1 & Hres)]; [congruence|].
    exists s1. split; [by eapply resolveValue_called|].
    rewrite (bind_gets _ _ s true) by done.
    rewrite resolved_bind, (bind_returns _ _ s RUndefined s1); [done|].
    by rewrite (resolvedValueAt_run l k s obj Hobj).
  - exists s. split; [apply called_since_refl|].
    by rewrite (bind_gets _ _ s false).
Qed.

Lemma entries_loop_value entriesOf l key keys acc s j s1 :
  allowedToRead s l key = Some true →
  resolvedValueAt l key s = Some (Returns (RJson j), s1) →
  entries_loop entriesOf l (key :: keys) acc s
  = entries_loop entriesOf l keys (assoc_set acc key j) s1.
Proof.
  intros Hallowed Hres. cbn [entries_loop].
  rewrite (bind_gets _ _ s true) by done.
  by rewrite resolved_bind, (bind_returns _ _ _ _ _ Hres).
Qed.

Lemma entries_loop_store entriesOf l key keys acc s nested s1 sub s2 :
  allowedToRead s l key = Some true →
  resolvedValueAt l key s = Some (Returns (RStore nested), s1) →
  entriesOf nested s1 = Some (Returns sub, s2) →
  entries_loop entriesOf l (key :: keys) acc s
  = entries_loop entriesOf l keys (assoc_set acc key (JObj sub)) s2.
Proof.
  intros Hallowed Hres Hsub. cbn [entries_loop].
  rewrite (bind_gets _ _ s true) by done.
  rewrite resolved_bind, (bind_returns _ _ _ _ _ Hres).
  by rewrite (bind_returns _ _ _ _ _ Hsub).
Qed.

(** The snapshot of a container all of whose slots but [key] are hidden. *)
Lemma entries_lone d l key v obj st0 :
  stores st0 !! l = Some obj → key ∈ slot_names obj →
  (∀ k, k ∈ slot_names obj → k ≠ key → hidden st0 l obj k) →
  (∀ s, called_since st0 s →
     ∃ s', called_since st0 s' ∧
       ∀ keys acc, entries_loop (entries d) l (key :: keys) acc s
                   = entries_loop (entries d) l keys (assoc_set acc key v) s') →
  ∀ s, called_since st0 s →
    ∃ s', called_since st0 s' ∧
          entries (S d) l s = Some (Returns [(key, v)], s').
Proof.
  intros Hobj Hkey Hhidden Hstep.
  assert (∀ keys, NoDup keys →
            (∀ k, k ∈ keys → k ≠ key → hidden st0 l obj k) →
            ∀ s acc, called_since st0 s →
              ∃ s', called_since st0 s' ∧
                entries_loop (entries d) l keys acc s
                = Some (Returns (if decide (key ∈ keys)
                                 then assoc_set acc key v else acc), s'))
    as Hloop.
  { induction keys as [|k keys IH]; intros Hnodup Hothers s acc Hs.
    - exists s. split; [done|]. by rewrite decide_False by apply not_elem_of_nil.
    - apply NoDup_cons in Hnodup as [Hk Hnodup].
      assert (∀ k0, k0 ∈ keys → k0 ≠ key → hidden st0 l obj k0) as Hothers'
        by (intros k0 Hk0; by apply Hothers, list_elem_of_further).
      destruct (decide (k = key)) as [->|Hne].
      + destruct (Hstep s Hs) as (s1 & Hs1 & Heq). rewrite Heq.
        destruct (IH Hnodup Hothers' s1 (assoc_set acc key v) Hs1)
          as (s' & Hs' & Hrest).
        exists s'. split; [done|]. rewrite Hrest.
        rewrite decide_False by done.
        by rewrite decide_True by apply list_elem_of_here.
      + pose proof Hs as (Hstores & Hpm & Hbodies).
        assert (stores s !! l = Some obj) as Hobj' by by rewrite Hstores.
        destruct (entries_loop_hidden (entries d) l k keys acc s obj Hobj')
          as (s1 & Hs1 & Heq).
        { apply (hidden_later st0 s l obj obj k); [|by apply allowedToRead_same|done..].
          apply Hothers; [apply list_elem_of_here | done]. }
        rewrite Heq.
        destruct (IH Hnodup Hothers' s1 acc) as (s' & Hs' & Hrest);
          [by eapply called_since_trans|].
        exists s'. split; [done|]. rewrite Hrest. do 2 f_equal.
        destruct (decide (key ∈ keys)) as [Hin|Hnotin].
        * by rewrite decide_True by by apply list_elem_of_further.
        * rewrite decide_False; [done|].
          by intros [?|?]%elem_of_cons. }
  intros s Hs. pose proof Hs as (Hstores & _).
  destruct (Hloop (slot_names obj) (unique_NoDup _) Hhidden s [] Hs)
    as (s' & Hs' & Hrun).
  exists s'. split; [done|]. cbn [entries]. unfold getAllKeys.
  rewrite (bind_gets _ _ s (slot_names obj))
    by by rewrite Hstores, Hobj; simpl; rewrite allKeysOf_slot_names.
  rewrite Hrun. by rewrite decide_True.
Qed.

(** The snapshot of a container whose only slot is [key]. *)
Lemma entries_sole d this key st obj r st1 :
  stores st !! this = Some obj → slot_names obj = [key] →
  allowedToRead st this key = Some true →
  resolvedValueAt this key st = Some (Returns r, st1) →
  entries (S d) this st
  = match r with
    | RStore nested =>
        (let* sub := entries d nested in ret [(key, JObj sub)]) st1
    | RJson j => Some (Returns [(key, j)], st1)
    | RUndefined => Some (Returns [], st1)
    end.
Proof.
  intros Hobj Hslots Hread Hres. cbn [entries]. unfold getAllKeys.
  rewrite (bind_gets _ _ st [key])
    by by rewrite Hobj; simpl; rewrite allKeysOf_slot_names, Hslots.
  cbn [entries_loop]. rewrite (bind_gets _ _ st true) by done.
  rewrite resolved_bind, (bind_returns _ _ _ _ _ Hres).
  by destruct r.
Qed.

(** Writing along a path into a store that [new Store()] has just created:
    a chain of new stores, one per segment. *)
Lemma fresh_chain j rest :
  (∀ o, j ≠ JObj o) →
  ∀ n key st,
    stores st !! n = Some emptyStore → S n = length (stores st) →
    (∀ k, k ∈ key :: rest → unrestricted st k) →
    ∃ st',
      write_from convertToStoreValue n key rest (json j) st
        = Some (Returns (json j), st') ∧
      (∀ l, l < n → stores st' !! l = stores st !! l) ∧
      permissionsMap st' = permissionsMap st ∧
      producers st' = producers st ∧
      ∀ st3, stores st3 = stores st' → permissionsMap st3 = permissionsMap st' →
        read_from n key rest st3 = Some (Returns (RJson j), st3) ∧
        ∀ depth, S (length rest) ≤ depth →
          entries depth n st3 = Some (Returns (nested_object key rest j), st3).
Proof.
  intros Hj. assert (isJSONObject (json j) = false) as Hplain.
  { destruct j as [p|a|o]; [done..|]. by destruct (Hj o). }
  induction rest as [|key' rest' IH]; intros n key st Hn Hlast Hun.
  - destruct (allowed_unrestricted st n emptyStore key Hn eq_refl)
      as [Hread Hwrite]; [apply Hun, list_elem_of_here|].
    exists (stored st n emptyStore key (json j)).
    rewrite write_from_terminal, (storeTerminal_plain _ _ _ _ emptyStore) by done.
    split; [done|]. split; [intros l Hl; apply stored_lookup_ne; lia|].
    split; [done|]. split; [done|]. intros st3 Hs3 Hpm3.
    assert (stores st3 !! n = Some (withRawValue emptyStore key (json j))) as Hn3
      by (rewrite Hs3; by apply stored_lookup).
    assert (allowedToRead st3 n key = Some true) as Hread3.
    { apply (allowed_unrestricted st3 n _ key Hn3);
        [by rewrite (proj2 (withRawValue_policy _ _ _))|].
      apply (unrestricted_same st); [done|]. apply Hun, list_elem_of_here. }
    assert (resolvedValueAt n key st3 = Some (Returns (RJson j), st3)) as Hres3.
    { apply (resolvedValueAt_result _ _ _ _ _ Hn3), rawValueOf_withRawValue. }
    split; [by rewrite (read_from_resolved n key [] st3 _ st3 Hread3 Hres3)|].
    intros [|d] Hd; [simpl in Hd; lia|].
    by rewrite (entries_sole d n key st3 _ _ st3 Hn3
                  (slot_names_emptyStore _ _) Hread3 Hres3).
  - assert (unrestricted st key) as Hkey by apply Hun, list_elem_of_here.
    rewrite write_from_into_empty by done.
    set (m := length (stores st)). set (stA := vivify st n emptyStore key).
    destruct (IH m key' stA) as (st' & Hwrite & Hkeep & Hpm & Hprod & Hback).
    { by apply vivify_lookup_fresh. }
    { subst stA m. by rewrite vivify_length. }
    { intros k Hk. apply (unrestricted_same st); [done|].
      by apply Hun, list_elem_of_further. }
    exists st'. split; [done|]. split.
    { intros l Hl. rewrite Hkeep by (subst m; lia). subst stA.
      apply (vivify_lookup_below _ _ _ _ _ Hn); lia. }
    split; [by rewrite Hpm|]. split; [by rewrite Hprod|]. intros st3 Hs3 Hpm3.
    destruct (Hback st3 Hs3 Hpm3) as [Hread' Hentries'].
    assert (stores st3 !! n = Some (withRawValue emptyStore key (ref m))) as Hn3.
    { rewrite Hs3, Hkeep by (subst m; lia). subst stA. by apply vivify_lookup. }
    assert (allowedToRead st3 n key = Some true) as Hread3.
    { apply (allowed_unrestricted st3 n _ key Hn3);
        [by rewrite (proj2 (withRawValue_policy _ _ _))|].
      apply (unrestricted_same st); [by rewrite Hpm3, Hpm | done]. }
    assert (resolvedValueAt n key st3 = Some (Returns (RStore m), st3)) as Hres3.
    { apply (resolvedValueAt_result _ _ _ _ _ Hn3), rawValueOf_withRawValue. }
    split; [by rewrite (read_from_resolved n key (key' :: rest') st3 _ st3 Hread3 Hres3)|].
    intros [|d] Hd; [simpl in Hd; lia|].
    rewrite (entries_sole d n key st3 _ _ st3 Hn3
               (slot_names_emptyStore _ _) Hread3 Hres3).
    by rewrite (bind_returns _ _ _ _ _ (Hentries' d ltac:(simpl in Hd; lia))).
Qed.

(** Writing a value that is not a plain object along a path that the
    containers on the way permit, reading it back, and taking the
    snapshot. *)
Lemma write_along j rest :
  (∀ o, j ≠ JObj o) →
  ∀ l key st,
    NoDup (key :: rest) → (∀ k, k ∈ rest → unrestricted st k) →
    permits st l key rest →
    ∃ st2,
      write_from convertToStoreValue l key rest (json j) st
        = Some (Returns (json j), st2) ∧
      kept (key :: rest) st st2 ∧
      (∀ st3, called_since st2 st3 →
         ∃ st4, read_from l key rest st3 = Some (Returns (RJson j), st4)) ∧
      (alone st l key rest →
         (∀ l0 obj0 k0,
            stores st !! l0 = Some obj0 → visible st l0 obj0 k0 →
            k0 ∉ key :: rest → stores st2 !! l0 = Some obj0) ∧
         ∀ st3, called_since st2 st3 →
           ∀ depth, S (length rest) ≤ depth →
             ∃ st4, called_since st2 st4 ∧
                    entries depth l st3
                    = Some (Returns (nested_object key rest j), st4)).
Proof.
  intros Hj. assert (isJSONObject (json j) = false) as Hplain.
  { destruct j as [p|a|o]; [done..|]. by destruct (Hj o). }
  induction rest as [|key' rest' IH]; intros l key st Hnodup Hun Hpermits.
  - (* the last segment *)
    destruct Hpermits as [Hread Hwrite].
    destruct (allowedToRead_is_Some _ _ _ _ Hread) as [obj Hobj].
    set (obj2 := withRawValue obj key (json j)).
    set (st2 := stored st l obj key (json j)).
    assert (stores st2 !! l = Some obj2) as Hl2 by by apply stored_lookup.
    assert (∀ k, allowedToRead st2 l k = allowedToRead st l k) as Hperm.
    { intros k. apply allowedToRead_ext.
      apply (getPermissionForKey_ext st st2 l obj obj2 k); try done;
        apply withRawValue_policy. }
    assert (∀ st3, called_since st2 st3 →
              allowedToRead st3 l key = Some true ∧
              resolvedValueAt l key st3 = Some (Returns (RJson j), st3))
      as Hlater.
    { intros st3 (Hs3 & Hpm3 & _). split.
      - by rewrite (allowedToRead_same st2 st3), Hperm.
      - apply (resolvedValueAt_result _ _ _ obj2); [by rewrite Hs3|].
        apply rawValueOf_withRawValue. }
    exists st2. split.
    { rewrite write_from_terminal by done. by apply storeTerminal_plain. }
    split; [by apply kept_stored|]. split.
    { intros st3 Hst3. destruct (Hlater st3 Hst3) as (Hread3 & Hres3).
      exists st3. by rewrite (read_from_resolved l key [] st3 _ st3 Hread3 Hres3). }
    intros (obj' & Hobj' & Hothers & _).
    rewrite Hobj in Hobj'. injection Hobj' as <-. split.
    { intros l0 obj0 k0 Hl0 Hvisible Hnot. subst st2.
      rewrite stored_lookup_ne; [done|]. intros ->.
      rewrite Hobj in Hl0. injection Hl0 as <-.
      apply (hidden_not_visible st l obj k0); [|done].
      apply Hothers; [by eapply visible_slot|]. intros ->.
      apply Hnot, list_elem_of_here. }
    intros st3 Hst3 [|d] Hd; [simpl in Hd; lia|].
    apply (entries_lone d l key j obj2 st2); [done| | | |done].
    + apply elem_of_slot_names_withRawValue. by right.
    + intros k [Hk| ->]%elem_of_slot_names_withRawValue Hne; [|done].
      apply (hidden_later st st2 l obj obj2 k); [by apply Hothers|done| |].
      * intros f p Hp. by exists p.
      * by apply rawValueOf_withRawValue_ne.
    + intros s Hs. destruct (Hlater s Hs) as (Hread3 & Hres3).
      exists s. split; [done|]. intros keys acc.
      by apply entries_loop_value.
  - (* a segment with more to come *)
    destruct Hpermits as (Hread & obj & r & st1 & Hobj & Hres & Hr).
    pose proof (resolvedValueAt_called _ _ _ _ _ Hres) as Hcalled.
    pose proof Hcalled as (Hs1 & Hpm1 & Hb1).
    assert (stores st1 !! l = Some obj) as Hobj1 by by rewrite Hs1.
    apply NoDup_cons in Hnodup as [Hkey Hnodup].
    assert (∀ k, k ∈ key' :: rest' → unrestricted st1 k) as Hun1.
    { intros k Hk. apply (unrestricted_same st); [done | by apply Hun]. }
    destruct (decide (is_store r = true)) as [Hstore|Hplainr].
    + (* the slot resolves to a container: the write goes on in it *)
      destruct r as [| |nested]; try done. destruct Hr as [Hsteady Hnested].
      destruct (IH nested key' st1 Hnodup) as (st2 & Hwrite & Hkept & Hback & Hsnap);
        [by intros k Hk; apply Hun1, list_elem_of_further | done |].
      assert (kept (key :: key' :: rest') st st2) as Hkept'.
      { apply (kept_called _ _ st1); [done|].
        apply (kept_weaken _ _ _ _ Hkept). intros k Hk.
        by apply list_elem_of_further. }
      assert (resolveValue (rawValueOf obj key) st
              = Some (Returns (RStore nested), st1)) as Hres0
        by by rewrite <- (resolvedValueAt_run l key st obj Hobj).
      assert (∀ st3 obj3, called_since st2 st3 →
                stores st3 !! l = Some obj3 →
                rawValueOf obj3 key = rawValueOf obj key →
                prototypes obj3 = prototypes obj →
                defaultPolicy obj3 = defaultPolicy obj →
                allowedToRead st3 l key = Some true ∧
                ∃ st3', resolvedValueAt l key st3
                          = Some (Returns (RStore nested), st3') ∧
                        called_since st2 st3') as Hlater.
      { intros st3 obj3 Hst3 Hl3 Hraw3 Hp3 Hd3.
        pose proof Hst3 as (Hs3 & Hpm3 & Hb3). split.
        - rewrite <- Hread. apply allowedToRead_ext.
          apply (getPermissionForKey_ext st st3 l obj obj3 key); try done.
          rewrite Hpm3. apply Hkept'.
        - destruct (steady_resolves st _ _ st1 st3 Hsteady Hres0)
            as (st3' & Hres3 & Hcalled3).
          { eapply same_bodies_trans; [apply Hkept'|done]. }
          exists st3'. split; [|by eapply called_since_trans].
          by rewrite (resolvedValueAt_run l key st3 obj3 Hl3), Hraw3. }
      exists st2. split.
      { by rewrite (write_from_delegate _ l key key' rest' _ st nested st1). }
      split; [done|]. split.
      { intros st3 Hst3. destruct Hkept as (_ & _ & Hobjs).
        destruct (Hobjs l obj Hobj1) as (obj2 & Hl2 & Hp2 & Hd2 & Hraw2).
        destruct (Hlater st3 obj2 Hst3) as (Hread3 & st3' & Hres3 & Hst3');
          [by rewrite (proj1 Hst3) | by apply Hraw2 | done | done |].
        destruct (Hback st3' Hst3') as (st4 & Hread4). exists st4.
        by rewrite (read_from_resolved l key (key' :: rest') st3 _ st3' Hread3 Hres3). }
      intros (obj' & Hobj' & Hothers & Hdeeper).
      rewrite Hobj in Hobj'. injection Hobj' as <-.
      destruct (Hsnap (Hdeeper nested st1 Hres)) as (Hframe & Hentries).
      assert (visible st l obj key) as Hvisible.
      { split; [done|]. split; [done|]. by exists (RStore nested), st1. }
      assert (∀ l0 obj0 k0, stores st !! l0 = Some obj0 →
                visible st l0 obj0 k0 → visible st1 l0 obj0 k0) as Hvis1.
      { intros l0 obj0 k0 Hl0 Hv.
        apply (visible_later st st1 l0 obj0 obj0 k0); [done| |done..].
        by apply allowedToRead_same. }
      assert (stores st2 !! l = Some obj) as Hl2.
      { apply (Hframe l obj key); [done | by apply Hvis1 | done]. }
      split.
      { intros l0 obj0 k0 Hl0 Hv Hnot. apply (Hframe l0 obj0 k0).
        - by rewrite Hs1.
        - by apply Hvis1.
        - intros Hin. apply Hnot. by apply list_elem_of_further. }
      intros st3 Hst3 [|d] Hd; [simpl in Hd; lia|].
      assert (∀ k, allowedToRead st2 l k = allowedToRead st l k) as Hperm.
      { intros k. apply allowedToRead_ext.
        apply (getPermissionForKey_ext st st2 l obj obj k); try done.
        apply Hkept'. }
      apply (entries_lone d l key _ obj st2); [done| | | |done].
      * by eapply visible_slot.
      * intros k Hk Hne.
        apply (hidden_later st st2 l obj obj k); [by apply Hothers|done| |done].
        apply Hkept'.
      * intros s Hs.
        destruct (Hlater s obj Hs) as (Hread3 & s1 & Hres3 & Hs1');
          [by rewrite (proj1 Hs) | done..|].
        destruct (Hentries s1 Hs1' d) as (s2 & Hs2 & Hsub); [simpl in Hd; lia|].
        exists s2. split; [done|]. intros keys acc.
        by apply (entries_loop_store _ l key keys acc s nested s1 _ s2).
    + (* the slot resolves to something else: a new container replaces it *)
      apply not_true_is_false in Hplainr.
      assert (allowedToWrite st l key = Some true) as Hwrite
        by by destruct r.
      set (n := length (stores st1)). set (stA := vivify st1 l obj key).
      set (obj2 := withRawValue obj key (ref n)).
      pose proof (lookup_lt_Some _ _ _ Hobj1) as Hlt.
      destruct (fresh_chain j rest' Hj n key' stA)
        as (st2 & Hw & Hkeep & Hpm2 & Hprod2 & Hback).
      { by apply vivify_lookup_fresh. }
      { subst stA n. by rewrite vivify_length. }
      { intros k Hk. by apply (unrestricted_same st1), Hun1. }
      assert (stores st2 !! l = Some obj2) as Hl2.
      { rewrite Hkeep by done. subst stA. by apply vivify_lookup. }
      assert (same_bodies st st2) as Hbodies.
      { intros f p Hp. destruct (Hb1 f p Hp) as (p' & Hp' & Hb').
        exists p'. by rewrite Hprod2. }
      assert (∀ k, allowedToRead st2 l k = allowedToRead st l k) as Hperm.
      { intros k. apply allowedToRead_ext.
        apply (getPermissionForKey_ext st st2 l obj obj2 k); try done;
          [by rewrite Hpm2 | apply withRawValue_policy..]. }
      assert (∀ st3, called_since st2 st3 →
                allowedToRead st3 l key = Some true ∧
                resolvedValueAt l key st3 = Some (Returns (RStore n), st3))
        as Hlater.
      { intros st3 (Hs3 & Hpm3 & _). split.
        - by rewrite (allowedToRead_same st2 st3), Hperm.
        - apply (resolvedValueAt_result _ _ _ obj2); [by rewrite Hs3|].
          apply rawValueOf_withRawValue. }
      exists st2. split.
      { by rewrite (write_from_replace _ _ _ _ _ _ st r st1 obj). }
      split.
      { split; [by rewrite Hpm2|]. split; [done|].
        intros l0 obj0 Hl0. rewrite <- Hs1 in Hl0.
        pose proof (lookup_lt_Some _ _ _ Hl0) as Hlt0.
        destruct (decide (l0 = l)) as [->|Hne].
        - rewrite Hobj1 in Hl0. injection Hl0 as <-.
          exists obj2. split; [done|].
          split; [apply withRawValue_policy|].
          split; [apply withRawValue_policy|].
          intros k Hk. apply rawValueOf_withRawValue_ne. intros ->.
          apply Hk, list_elem_of_here.
        - exists obj0. rewrite Hkeep by done. subst stA.
          by rewrite (vivify_lookup_below _ _ _ _ _ Hobj1). }
      split.
      { intros st3 Hst3. destruct (Hlater st3 Hst3) as (Hread3 & Hres3).
        exists st3.
        rewrite (read_from_resolved l key (key' :: rest') st3 _ st3 Hread3 Hres3).
        apply Hback; [apply Hst3 | apply Hst3]. }
      intros (obj' & Hobj' & Hothers & _).
      rewrite Hobj in Hobj'. injection Hobj' as <-. split.
      { intros l0 obj0 k0 Hl0 Hv Hnot.
        assert (l0 ≠ l) as Hne.
        { intros ->. rewrite Hobj in Hl0. injection Hl0 as <-.
          apply (hidden_not_visible st l obj k0); [|done].
          apply Hothers; [by eapply visible_slot|]. intros ->.
          apply Hnot, list_elem_of_here. }
        rewrite <- Hs1 in Hl0. pose proof (lookup_lt_Some _ _ _ Hl0) as Hlt0.
        rewrite Hkeep by done. subst stA.
        by rewrite (vivify_lookup_below _ _ _ _ _ Hobj1). }
      intros st3 Hst3 [|d] Hd; [simpl in Hd; lia|].
      apply (entries_lone d l key _ obj2 st2); [done| | | |done].
      * apply elem_of_slot_names_withRawValue. by right.
      * intros k [Hk| ->]%elem_of_slot_names_withRawValue Hne; [|done].
        apply (hidden_later st st2 l obj obj2 k); [by apply Hothers|done..|].
        by apply rawValueOf_withRawValue_ne.
      * intros s Hs. destruct (Hlater s Hs) as (Hread3 & Hres3).
        destruct (Hback s (proj1 Hs) (proj1 (proj2 Hs))) as [_ Hsub].
        exists s. split; [done|]. intros keys acc.
        apply (entries_loop_store _ l key keys acc s n s _ s); [done..|].
        apply Hsub. simpl in Hd. lia.
Qed.

(** C4, amended: on a container whose default policy is read-write, with no
    restricting permission declared for the keys on the path, and whose
    slot ["a"] either does not resolve to a container or steadily resolves
    to one that permits the rest of the path (every container met allows
    its key to be read, and to be written where a slot is replaced or the
    value is stored), [write("a:b:c", 42)] followed by [read("a:b:c")]
    returns 42; and when every other slot of the containers on the path is
    one that [entries] leaves out, [entries()] then returns
    [{a: {b: {c: 42}}}]. *)
Theorem write_read_entries_roundtrip st c obj r st1 :
  stores st !! c = Some obj → defaultPolicy obj = PermRW →
  (∀ key, key ∈ ["a"; "b"; "c"] → unrestricted st key) →
  resolvedValueAt c "a" st = Some (Returns r, st1) →
  match r with
  | RStore nested =>
      steady st (rawValueOf obj "a") ∧ permits st1 nested "b" ["c"]
  | _ => True
  end →
  ∃ st2,
    write c "a:b:c" (json (num 42)) st = Some (Returns (json (num 42)), st2) ∧
    (∃ st3, read c "a:b:c" st2 = Some (Returns (RJson (num 42)), st3)) ∧
    (alone st c "a" ["b"; "c"] →
     ∀ depth, 3 ≤ depth →
       ∃ st3, entries depth c st2 = Some (Returns abc42, st3)).
Proof.
  intros Hobj Hrw Hun Hres Hslot.
  assert ("a" ∈ ["a"; "b"; "c"]) as Ha by apply list_elem_of_here.
  destruct (allowed_unrestricted st c obj "a" Hobj Hrw (Hun "a" Ha))
    as [Hread Hwrite].
  destruct (write_along (num 42) ["b"; "c"] ltac:(done) c "a" st)
    as (st2 & Hw & _ & Hback & Hsnap).
  { repeat constructor; rewrite ?elem_of_cons, ?elem_of_nil;
      intuition discriminate. }
  { intros k Hk. by apply Hun, list_elem_of_further. }
  { split; [done|]. exists obj, r, st1. split; [done|]. split; [done|].
    by destruct r. }
  exists st2. split; [|split].
  - unfold write. by rewrite (write_split _ c "a:b:c" "a" ["b"; "c"]).
  - rewrite (read_split c "a:b:c" "a" ["b"; "c"]) by done.
    apply Hback, called_since_refl.
  - intros Halone depth Hdepth. destruct (Hsnap Halone) as [_ Hentries].
    destruct (Hentries st2 (called_since_refl _) depth) as (st3 & _ & Hrun);
      [simpl; lia|].
    by exists st3.
Qed.

Lemma write_read_entries_roundtrip_witness :
  ∃ st2,
    write 0 "a:b:c" (json (num 42)) st_a_obj
      = Some (Returns (json (num 42)), st2) ∧
    (∃ st3, read 0 "a:b:c" st2 = Some (Returns (RJson (num 42)), st3)) ∧
    ∃ st3, entries 3 0 st2 = Some (Returns abc42, st3).
Proof.
  destruct (write_read_entries_roundtrip st_a_obj 0
    (withRawValue emptyStore "a" (ref 1)) (RStore 1) st_a_obj
    eq_refl eq_refl) as (st2 & Hwrite & Hread & Hentries).
  - intros key _ owner permission Hdeclared. vm_compute in Hdeclared.
    discriminate.
  - reflexivity.
  - split; [done|]. split; [reflexivity|].
    exists emptyStore, RUndefined, st_a_obj. repeat split.
  - exists st2. split; [exact Hwrite|]. split; [exact Hread|].
    apply Hentries; [|lia].
    exists (withRawValue emptyStore "a" (ref 1)). split; [reflexivity|].
    split.
    { intros k Hk Hne. vm_compute in Hk.
      by apply list_elem_of_singleton in Hk. }
    intros nested st1 [= <- <-]. exists emptyStore. split; [reflexivity|].
    split; [by intros k Hk; vm_compute in Hk; apply elem_of_nil in Hk|].
    intros nested st1 [=].
Defined.

(** C4 as stated fails on a read-write container that holds another slot
    that [entries] shows (its snapshot has that slot as well), on one whose
    slot ["a"] is a container of its own with default policy ["none"] (the
    write throws), and on one whose slot ["a"] holds a producer that returns
    a different container on every call (the read does not find what the
    write stored). *)
Lemma roundtrip_needs_permitting_path :
  (exec write 0 "a:b:c" (json (num 42)) in entries 3 0) st_z
    = Some (Returns (("z", num 1) :: abc42),
            after_abc st_z 0
              (mkStore [StorePrototype; ObjectPrototype] [] PermRW
                 [("z", json (num 1))])) ∧
  ("z", num 1) :: abc42 ≠ abc42 ∧
  write 0 "a:b:c" (json (num 42)) st_nested_none
    = Some (Throws (ReadDenied "b"), st_nested_none) ∧
  fst <$> (exec write 0 "a:b:c" (json (num 42)) in read 0 "a:b:c") st_flip
    = Some (Returns RUndefined).
Proof.
  split; [vm_compute; reflexivity|]. split; [discriminate|].
  split; vm_compute; reflexivity.
Qed.

(** ** A converted value stands for the original *)

Lemma json_depth_obj o d :
  json_depth (JObj o) ≤ S d ↔ Forall (fun entry => json_depth entry.2 ≤ d) o.
Proof.
  induction o as [|[k v] o IH].
  - simpl. split; [constructor | lia].
  - rewrite Forall_cons, <- IH. simpl. lia.
Qed.

Lemma well_keyed_obj o :
  well_keyed (JObj o) ↔
  NoDup o.*1 ∧
  Forall (fun entry => colon_free entry.1 = true ∧ well_keyed entry.2) o.
Proof.
  change (well_keyed (JObj o)) with
    (NoDup o.*1 ∧
     (fix each (o : JSONObject) : Prop :=
        match o with
        | [] => True
        | (k, v) :: o' => colon_free k = true ∧ well_keyed v ∧ each o'
        end) o).
  apply and_iff_compat_l.
  induction o as [|[k v] o IH]; [by split; [constructor|]|].
  rewrite Forall_cons, <- IH. simpl. tauto.
Qed.

Lemma elem_of_object_keys o entry k :
  entry ∈ o → k = entry.1 ∨ k ∈ object_keys entry.2 →
  k ∈ object_keys (JObj o).
Proof.
  induction o as [|[k' v'] o IH]; [by intros ?%elem_of_nil|].
  change (object_keys (JObj ((k', v') :: o)))
    with (k' :: object_keys v' ++ object_keys (JObj o)).
  intros [->|Hin]%elem_of_cons Hk; rewrite elem_of_cons, elem_of_app;
    simpl in *; [tauto|].
  right. right. by apply IH.
Qed.

Lemma unique_from_id seen keys :
  NoDup keys → (∀ k, k ∈ keys → k ∉ seen) → unique_from seen keys = keys.
Proof.
  revert seen. induction keys as [|key keys IH]; intros seen Hnodup Hseen;
    [done|]. simpl.
  apply NoDup_cons in Hnodup as [Hkey Hnodup].
  rewrite decide_False by apply Hseen, list_elem_of_here.
  f_equal. apply IH; [done|]. intros k Hk.
  apply not_elem_of_cons. split; [by intros -> | by apply Hseen, list_elem_of_further].
Qed.

Lemma assoc_get_NoDup {V} (m : list (string * V)) key value :
  NoDup m.*1 → (key, value) ∈ m → assoc_get m key = Some value.
Proof.
  induction m as [|[k v] m IH]; [by intros _ ?%elem_of_nil|].
  rewrite fmap_cons. intros [Hk Hnodup]%NoDup_cons [[= -> ->]|Hin]%elem_of_cons;
    simpl.
  - by rewrite decide_True.
  - rewrite decide_False; [by apply IH|]. intros ->. apply Hk.
    by apply (list_elem_of_fmap_2 fst _ (key, value)).
Qed.

Lemma is_slot_field_no_fields protos policy dyn key :
  is_slot_field (mkStore protos [] policy dyn) key = false.
Proof.
  apply not_true_is_false. intros [Hin _]%is_slot_field_true.
  by apply elem_of_nil in Hin.
Qed.

Lemma withRawValue_dynamic protos policy dyn key value :
  withRawValue (mkStore protos [] policy dyn) key value
  = mkStore protos [] policy (assoc_set dyn key value).
Proof. unfold withRawValue. by rewrite is_slot_field_no_fields. Qed.

Lemma rawValueOf_dynamic protos policy dyn key value :
  NoDup dyn.*1 → (key, value) ∈ dyn →
  rawValueOf (mkStore protos [] policy dyn) key = value.
Proof.
  intros Hnodup Hin. unfold rawValueOf. rewrite is_slot_field_no_fields. simpl.
  by rewrite (assoc_get_NoDup _ _ _ Hnodup Hin).
Qed.

Lemma entries_loop_rendered d st s obj :
  stores st !! s = Some obj → defaultPolicy obj = PermRW →
  ∀ dyn o acc,
    Forall2 (fun slot entry => slot.1 = entry.1 ∧ shown st slot.2 entry.2) dyn o →
    (∀ k sv, (k, sv) ∈ dyn → rawValueOf obj k = sv) →
    (∀ k, k ∈ dyn.*1 → unrestricted st k) →
    NoDup (acc.*1 ++ dyn.*1) →
    Forall (fun entry => json_depth entry.2 ≤ d) o →
    entries_loop (entries d) s dyn.*1 acc st = Some (Returns (acc ++ o), st).
Proof.
  intros Hobj Hrw dyn o acc Hshown. revert acc.
  induction Hshown as [|[k sv] [k' v] dyn o [Hk Hsv] _ IH];
    intros acc Hraw Hun Hnodup Hdepth.
  - simpl. by rewrite app_nil_r.
  - simpl in Hk, Hsv. subst k'. rewrite fmap_cons in *. cbn [fst] in *.
    apply Forall_cons in Hdepth as [Hd Hdepth]. simpl in Hd.
    assert (k ∉ acc.*1) as Hacc.
    { apply NoDup_app in Hnodup as (_ & Hdisjoint & _).
      intros Hin. apply (Hdisjoint k Hin), list_elem_of_here. }
    assert (NoDup ((acc ++ [(k, v)]).*1 ++ dyn.*1)) as Hnodup'.
    { rewrite fmap_app, <- app_assoc. done. }
    destruct (allowed_unrestricted st s obj k Hobj Hrw) as [Hread _];
      [apply Hun, list_elem_of_here|].
    cbn [entries_loop]. rewrite (bind_gets _ _ st true) by done.
    rewrite resolved_bind.
    assert (rawValueOf obj k = sv) as Hslot by apply Hraw, list_elem_of_here.
    assert (entries_loop (entries d) s dyn.*1 (acc ++ [(k, v)]) st
            = Some (Returns ((acc ++ [(k, v)]) ++ o), st)) as Hrest.
    { apply IH; [|by auto using list_elem_of_further|done..].
      intros k0 sv0 Hin. by apply Hraw, list_elem_of_further. }
    rewrite <- app_assoc in Hrest.
    destruct v as [p|a|o'].
    + simpl in Hsv. subst sv.
      rewrite (bind_returns _ _ _ _ _
                 (resolvedValueAt_result s k st obj _ Hobj Hslot)).
      by rewrite assoc_set_fresh.
    + simpl in Hsv. subst sv.
      rewrite (bind_returns _ _ _ _ _
                 (resolvedValueAt_result s k st obj _ Hobj Hslot)).
      by rewrite assoc_set_fresh.
    + destruct Hsv as (l & -> & Hsub).
      rewrite (bind_returns _ _ _ _ _
                 (resolvedValueAt_result s k st obj _ Hobj Hslot)).
      rewrite (bind_returns _ _ _ _ _ (Hsub d Hd)).
      by rewrite assoc_set_fresh.
Qed.

Lemma entries_of_rendered st s protos dyn o :
  stores st !! s = Some (mkStore protos [] PermRW dyn) →
  NoDup dyn.*1 →
  Forall2 (fun slot entry => slot.1 = entry.1 ∧ shown st slot.2 entry.2) dyn o →
  (∀ k, k ∈ dyn.*1 → unrestricted st k) →
  ∀ depth, json_depth (JObj o) ≤ depth →
    entries depth s st = Some (Returns o, st).
Proof.
  intros Hobj Hnodup Hshown Hun depth Hdepth.
  destruct depth as [|d]; [simpl in Hdepth; lia|].
  apply json_depth_obj in Hdepth.
  cbn [entries]. unfold getAllKeys.
  rewrite (bind_gets _ _ st dyn.*1).
  - apply (entries_loop_rendered d st s _ Hobj eq_refl dyn o []); try done.
    intros k sv Hin. by apply rawValueOf_dynamic.
  - rewrite Hobj. simpl. f_equal.
    change (allKeysOf (mkStore protos [] PermRW dyn)) with (unique dyn.*1).
    apply unique_from_id; [done|]. intros k _. apply not_elem_of_nil.
Qed.

Lemma renders_mono st1 st' lo1 hi1 lo hi sv v :
  renders st1 lo1 hi1 sv v → lo ≤ lo1 → hi1 ≤ hi →
  (∀ l, lo1 ≤ l < hi1 → stores st' !! l = stores st1 !! l) →
  permissionsMap st' = permissionsMap st1 →
  renders st' lo hi sv v.
Proof.
  intros [Hrange Hshown] Hlo Hhi Hsame Hpm. split.
  - destruct v as [p|a|o]; [done..|].
    destruct Hrange as (l & -> & Hl). exists l. split; [done|lia].
  - intros st'' [Hagree Hpm'']. apply Hshown.
    split; [|congruence]. intros l' Hl'. rewrite Hagree by lia. by apply Hsame.
Qed.

Lemma shown_deep_shown st sv v : shown_deep st sv v → shown st sv v.
Proof.
  destruct v as [p|a|o]; [done..|].
  intros (l & -> & Hentries & _). by exists l.
Qed.

Lemma Forall2_assoc_get {V W} (P : V -> W -> Prop)
    (m : list (string * V)) (o : list (string * W)) key w :
  Forall2 (fun slot entry => slot.1 = entry.1 ∧ P slot.2 entry.2) m o →
  assoc_get o key = Some w →
  ∃ v, assoc_get m key = Some v ∧ P v w.
Proof.
  induction 1 as [|[k v] [k' w'] m o [Hk Hp] _ IH]; [done|].
  simpl in Hk, Hp. subst k'. simpl.
  destruct (decide (k = key)); [|done].
  intros [= ->]. by exists v.
Qed.

Lemma read_of_rendered st s protos dyn o :
  stores st !! s = Some (mkStore protos [] PermRW dyn) →
  Forall2 (fun slot entry => slot.1 = entry.1 ∧ shown_deep st slot.2 entry.2)
          dyn o →
  (∀ k, k ∈ dyn.*1 → unrestricted st k) →
  reads_as st s o.
Proof.
  intros Hobj Hall Hun key rest v Hat.
  assert (∃ v0, assoc_get o key = Some v0 ∧
            match rest with
            | [] => v = v0
            | key' :: rest' =>
                ∃ o', v0 = JObj o' ∧ json_at o' key' rest' = Some v
            end) as (v0 & Hv0 & Hrest).
  { destruct rest as [|key' rest']; simpl in Hat;
      destruct (assoc_get o key) as [v0|]; try done.
    - injection Hat as <-. by exists v0.
    - exists v0. split; [done|]. destruct v0 as [p|a|o']; try done.
      by exists o'. }
  destruct (Forall2_assoc_get _ _ _ _ _ Hall Hv0) as (sv0 & Hsv0 & Hshown).
  assert (rawValueOf (mkStore protos [] PermRW dyn) key = sv0) as Hraw.
  { unfold rawValueOf. rewrite is_slot_field_no_fields. simpl. by rewrite Hsv0. }
  assert (allowedToRead st s key = Some true) as Hread.
  { apply (allowed_unrestricted st s _ key Hobj eq_refl), Hun.
    destruct (decide (key ∈ dyn.*1)) as [|Hnot]; [done|].
    apply assoc_get_None in Hnot. congruence. }
  destruct rest as [|key' rest'].
  - subst v0.
    assert (∃ r, sv0 = SResult r) as [r ->].
    { destruct v as [p|a|o']; simpl in Hshown; [by eexists..|].
      destruct Hshown as (l & -> & _). by eexists. }
    exists r. split; [|by apply shown_deep_shown].
    rewrite (read_from_resolved s key [] st r st); [done..|].
    by apply (resolvedValueAt_result _ _ _ _ _ Hobj).
  - destruct Hrest as (o' & -> & Hat').
    destruct Hshown as (l & -> & _ & Hreads).
    destruct (Hreads key' rest' v Hat') as (r & Hr & Hshown').
    exists r. split; [|done].
    rewrite (read_from_resolved s key (key' :: rest') st (RStore l) st);
      [done..|].
    by apply (resolvedValueAt_result _ _ _ _ _ Hobj).
Qed.

Lemma writeEntries_renders o :
  Forall (fun entry => converts_faithfully entry.2) o →
  ∀ st s protos dyn,
    stores st !! s = Some (mkStore protos [] PermRW dyn) →
    NoDup (dyn.*1 ++ o.*1) →
    Forall (fun entry => colon_free entry.1 = true ∧ well_keyed entry.2) o →
    (∀ entry k, entry ∈ o → k = entry.1 ∨ k ∈ object_keys entry.2 →
                unrestricted st k) →
    ∃ st' dyn',
      writeEntries s o st = Some (Returns tt, st') ∧
      stores st' !! s = Some (mkStore protos [] PermRW (dyn ++ dyn')) ∧
      (∀ l, l < length (stores st) → l ≠ s → stores st' !! l = stores st !! l) ∧
      length (stores st) ≤ length (stores st') ∧
      permissionsMap st' = permissionsMap st ∧
      Forall2 (fun slot entry =>
                 slot.1 = entry.1 ∧
                 renders st' (length (stores st)) (length (stores st'))
                         slot.2 entry.2) dyn' o.
Proof.
  induction 1 as [|[k v] o Hv _ IH]; intros st s protos dyn Hs Hnodup Hkeys Hun.
  - exists st, []. rewrite app_nil_r. repeat split; done.
  - apply Forall_cons in Hkeys as [[Hk Hwk] Hkeys]. simpl in Hk, Hwk, Hv.
    rewrite fmap_cons in Hnodup. cbn [fst] in Hnodup.
    assert (k ∉ dyn.*1) as Hfresh.
    { apply NoDup_app in Hnodup as (_ & Hdisjoint & _).
      intros Hin. apply (Hdisjoint k Hin), list_elem_of_here. }
    pose proof (lookup_lt_Some _ _ _ Hs) as Hslt.
    (* the value is converted *)
    destruct (Hv st Hwk) as (sv & st1 & Hcv & Hrenders).
    { intros k0 Hk0. apply (Hun (k, v)); [apply list_elem_of_here | by right]. }
    destruct (convertToStoreValue_frame _ _ _ _ Hcv) as (Hkeep & _ & Hpm1).
    pose proof (policy_preserved_length _ _
                  (convertToStoreValue_policy _ _ _ _ Hcv)) as Hlen1.
    pose proof (Hkeep _ _ Hs) as Hs1.
    (* and written under its key *)
    set (obj := mkStore protos [] PermRW dyn) in *.
    assert (write s k sv st1 = Some (Returns sv, stored st1 s obj k sv)) as Hw.
    { unfold write. rewrite (write_split _ s k k []) by by apply split_single.
      rewrite write_from_terminal.
      - apply storeTerminal_plain; [by eapply convert_not_object | done].
      - apply (allowed_unrestricted st1 s obj k Hs1 eq_refl).
        apply (unrestricted_same st); [done|].
        apply (Hun (k, v)); [apply list_elem_of_here | by left]. }
    set (st2 := stored st1 s obj k sv) in *.
    assert (stores st2 !! s = Some (mkStore protos [] PermRW (dyn ++ [(k, sv)])))
      as Hs2.
    { subst st2. rewrite (stored_lookup _ _ _ _ _ Hs1). subst obj.
      by rewrite withRawValue_dynamic, assoc_set_fresh. }
    assert (length (stores st2) = length (stores st1)) as Hlen2
      by (subst st2; simpl; apply length_insert).
    (* the entries that follow *)
    destruct (IH st2 s protos (dyn ++ [(k, sv)]) Hs2)
      as (st' & dyn' & Hrest & Hs' & Hframe & Hlen' & Hpm' & Hall); [|done|..].
    { rewrite fmap_app, <- app_assoc. done. }
    { intros entry k0 Hin Hk0. apply (unrestricted_same st); [done|].
      apply (Hun entry); [by apply list_elem_of_further | done]. }
    assert (∀ l, l < length (stores st1) → l ≠ s →
                 stores st' !! l = stores st1 !! l) as Hframe1.
    { intros l Hl Hne. rewrite Hframe by (rewrite ?Hlen2; done).
      subst st2. by apply stored_lookup_ne. }
    exists st', ((k, sv) :: dyn'). repeat split.
    + rewrite writeEntries_unfold, (bind_returns _ _ _ _ _ Hcv).
      by rewrite (bind_returns _ _ _ _ _ Hw).
    + by rewrite <- app_assoc in Hs'.
    + intros l Hl Hne. rewrite Hframe1 by (done || lia).
      destruct (lookup_lt_is_Some_2 (stores st) l Hl) as [o0 Ho0].
      by rewrite Ho0, (Hkeep _ _ Ho0).
    + lia.
    + by rewrite Hpm'.
    + constructor.
      * split; [done|]. simpl.
        apply (renders_mono st1 st' _ _ _ _ _ _ Hrenders); [lia|lia| |done].
        intros l Hl. apply Hframe1; lia.
      * eapply Forall2_impl; [exact Hall|]. intros slot entry [Heq Hr].
        split; [done|].
        apply (renders_mono st' st' _ _ _ _ _ _ Hr); [lia|lia|done|done].
Qed.

Lemma rendered_store st' lo hi s protos dyn' o :
  stores st' !! s = Some (mkStore protos [] PermRW dyn') →
  lo ≤ s < hi → NoDup o.*1 →
  (∀ k, k ∈ o.*1 → unrestricted st' k) →
  Forall2 (fun slot entry =>
             slot.1 = entry.1 ∧ renders st' lo hi slot.2 entry.2) dyn' o →
  ∀ st'', agrees lo hi st' st'' → shown_deep st'' (ref s) (JObj o).
Proof.
  intros Hs' Hrange Hnodup Hun Hall st'' [Hagree Hpm''].
  assert (dyn'.*1 = o.*1) as Hkeys.
  { clear -Hall. induction Hall as [|slot entry dyn' o [Heq _] _ IH'];
      [done|]. rewrite !fmap_cons. by f_equal. }
  assert (stores st'' !! s = Some (mkStore protos [] PermRW dyn')) as Hs''
    by (by rewrite Hagree).
  assert (Forall2 (fun slot entry =>
            slot.1 = entry.1 ∧ shown_deep st'' slot.2 entry.2) dyn' o) as Hdeep.
  { eapply Forall2_impl; [exact Hall|]. intros slot entry [Heq [_ Hr]].
    split; [done|]. by apply Hr. }
  assert (∀ k, k ∈ dyn'.*1 → unrestricted st'' k) as Hun''.
  { intros k Hk. rewrite Hkeys in Hk.
    apply (unrestricted_same st'); [done | by apply Hun]. }
  exists s. split; [done|]. split.
  - apply (entries_of_rendered st'' s protos dyn' o); [done| |  |done].
    + by rewrite Hkeys.
    + eapply Forall2_impl; [exact Hdeep|]. intros slot entry [Heq Hr].
      split; [done | by apply shown_deep_shown].
  - by apply (read_of_rendered st'' s protos dyn' o).
Qed.

Lemma convertToStoreValue_faithful v : converts_faithfully v.
Proof.
  induction v as [p|a|o IH] using JSONValue_ind; intros st Hwk Hun.
  - by exists (json (JPrim p)), st.
  - by exists (json (JArr a)), st.
  - apply well_keyed_obj in Hwk as [Hnodup Hkeys].
    set (s := length (stores st)).
    set (st0 := set_stores (fun ss => ss ++ [emptyStore]) st).
    destruct (writeEntries_renders o IH st0 s [StorePrototype; ObjectPrototype] [])
      as (st' & dyn' & Hloop & Hs' & _ & Hlen & Hpm & Hall); [|done|done|..].
    { subst st0 s. simpl. rewrite lookup_app_r by done.
      by rewrite Nat.sub_diag. }
    { intros entry k Hin Hk. apply (unrestricted_same st); [done|].
      by apply Hun, (elem_of_object_keys o entry). }
    assert (length (stores st0) = S s) as Hlen0
      by (subst st0 s; simpl; rewrite length_app; simpl; lia).
    exists (ref s), st'. split.
    + rewrite convertToStoreValue_unfold. unfold bind at 1. simpl.
      fold st0. fold s. by rewrite (bind_returns _ _ _ _ _ Hloop).
    + split; [exists s; split; [done|lia]|].
      apply (rendered_store st' s _ s [StorePrototype; ObjectPrototype] dyn' o);
        [done|lia|done| |].
      * intros k Hk. apply (unrestricted_same st); [by rewrite Hpm|].
        apply list_elem_of_fmap in Hk as (entry & -> & Hin).
        apply Hun, (elem_of_object_keys o entry); [done | by left].
      * eapply Forall2_impl; [exact Hall|]. intros slot entry [Heq Hr].
        split; [done|].
        apply (renders_mono st' st' _ _ _ _ _ _ Hr); [lia|lia|done|done].
Qed.

Lemma agrees_refl lo hi st : agrees lo hi st st.
Proof. by split. Qed.

(** ** Bulk import *)







(** * Further properties of the code *)

(** ** [Restrict] and the registry *)

(** X1: [Restrict(permission)(target, key)] records the permission for that
    owner and key, replacing whatever the owner had declared for the key
    before; every other declaration, every store and every closure is left
    as it was. *)
Theorem Restrict_records_permission st permission target key :
  let st' := state_after (Restrict permission target key) st in
  Restrict permission target key st = Some (Returns tt, st') ∧
  declared st' target key = Some permission ∧
  (∀ owner k, owner ≠ target ∨ k ≠ key →
     declared st' owner k = declared st owner k) ∧
  stores st' = stores st ∧ producers st' = producers st.
Proof.
  intros st'. subst st'. split; [apply Restrict_state|].
  split; [|split; [|done]].
  - rewrite Restrict_declared. by rewrite decide_True.
  - intros owner k Hother. rewrite Restrict_declared.
    rewrite decide_False; [done|]. intros [-> ->]. by destruct Hother.
Qed.

Lemma getPermissionForKey_declared st st' l obj key :
  stores st !! l = Some obj → stores st' !! l = Some obj →
  declared st' (OInstance l) key = declared st (OInstance l) key →
  (∀ type, type ∈ prototypes obj →
     declared st' (OPrototype type) key = declared st (OPrototype type) key) →
  getPermissionForKey st' l key = getPermissionForKey st l key.
Proof.
  intros Hobj Hobj' Hinst Htypes.
  rewrite (getPermissionForKey_order st l obj), (getPermissionForKey_order st' l obj)
    by done.
  unfold resolution_order. rewrite Hinst. f_equal.
  destruct (declared st (OInstance l) key); [done|].
  assert (head (omap (fun type => declared st' (OPrototype type) key)
                     (prototypes obj))
          = head (omap (fun type => declared st (OPrototype type) key)
                       (prototypes obj))) as ->; [|done].
  revert Htypes. generalize (prototypes obj). intros chain.
  induction chain as [|type chain IH]; intros Htypes; [done|]. simpl.
  rewrite (Htypes type) by apply list_elem_of_here.
  destruct (declared st (OPrototype type) key); [done|].
  apply IH. intros t Ht. by apply Htypes, list_elem_of_further.
Qed.

(** X2: a permission declared with [Restrict] on one instance decides the
    permission of that key on that instance, whatever its types and its
    default policy say; it changes the permission of no other key of the
    instance and of no key of any other instance. *)
Theorem Restrict_on_instance st permission instance obj key :
  stores st !! instance = Some obj →
  let st' := state_after (Restrict permission (OInstance instance) key) st in
  getPermissionForKey st' instance key = Some permission ∧
  (∀ l k, l ≠ instance ∨ k ≠ key →
     getPermissionForKey st' l k = getPermissionForKey st l k).
Proof.
  intros Hobj st'. subst st'. split.
  - rewrite (getPermissionForKey_order _ instance obj) by done.
    unfold resolution_order. rewrite Restrict_declared. by rewrite decide_True.
  - intros l k Hother.
    destruct (stores st !! l) as [o|] eqn:Hl.
    + apply (getPermissionForKey_declared _ _ _ o); [done|done| |].
      * rewrite Restrict_declared. rewrite decide_False; [done|].
        intros [[= ->] ->]. by destruct Hother.
      * intros type _. rewrite Restrict_declared. by rewrite decide_False by by intros [[=] _].
    + unfold getPermissionForKey. simpl. by rewrite Hl.
Qed.

Lemma Restrict_on_instance_witness :
  getPermissionForKey
    (state_after (Restrict PermR (OInstance 0) "x") st_empty) 0 "x"
  = Some PermR.
Proof.
  exact (proj1 (Restrict_on_instance st_empty PermR 0 emptyStore "x" eq_refl)).
Defined.

Lemma first_match_app st before after key :
  (∀ type, type ∈ before → declared st (OPrototype type) key = None) →
  head (omap (fun type => declared st (OPrototype type) key) (before ++ after))
  = head (omap (fun type => declared st (OPrototype type) key) after).
Proof.
  induction before as [|type before IH]; intros Hnone; [done|]. simpl.
  rewrite (Hnone type) by apply list_elem_of_here.
  apply IH. intros t Ht. by apply Hnone, list_elem_of_further.
Qed.

(** X3: a permission declared with [Restrict] on a prototype decides the
    permission of that key on every instance that has the prototype in its
    chain, unless the instance itself or a prototype nearer in the chain
    declares the key; an instance's own declaration keeps winning. *)
Theorem Restrict_on_prototype st permission type instance obj key before after :
  stores st !! instance = Some obj →
  prototypes obj = before ++ type :: after →
  (∀ nearer, nearer ∈ before →
     nearer ≠ type ∧ declared st (OPrototype nearer) key = None) →
  let st' := state_after (Restrict permission (OPrototype type) key) st in
  (declared st (OInstance instance) key = None →
     getPermissionForKey st' instance key = Some permission) ∧
  (∀ override, declared st (OInstance instance) key = Some override →
     getPermissionForKey st' instance key = Some override).
Proof.
  intros Hobj Hchain Hnearer st'. subst st'.
  rewrite (getPermissionForKey_order _ instance obj) by done.
  unfold resolution_order. rewrite Restrict_declared.
  rewrite decide_False by by intros [[=] _].
  split.
  - intros ->. rewrite Hchain, first_match_app.
    + simpl. rewrite Restrict_declared. by rewrite decide_True.
    + intros nearer Hin. destruct (Hnearer nearer Hin) as [Hne Hnone].
      rewrite Restrict_declared. rewrite decide_False; [done|].
      by intros [[= ->] _].
  - by intros override ->.
Qed.

Lemma Restrict_on_prototype_witness :
  getPermissionForKey
    (state_after (Restrict PermW (OPrototype StorePrototype) "secret") st_empty)
    0 "secret"
  = Some PermW.
Proof.
  refine (proj1 (Restrict_on_prototype st_empty PermW StorePrototype 0
    emptyStore "secret" [] [ObjectPrototype] eq_refl eq_refl _) eq_refl).
  intros nearer Hin. by apply elem_of_nil in Hin.
Defined.

(** ** [read] and [entries] are queries *)

Lemma read_from_unchanged rest :
  ∀ this key st out st',
    read_from this key rest st = Some (out, st') →
    stores st' = stores st ∧ permissionsMap st' = permissionsMap st ∧
    (producers st = [] → producers st' = []).
Proof.
  induction rest as [|key' rest' IH]; intros this key st out st' Hrun;
    cbn [read_from] in Hrun;
    apply bind_gets_inv in Hrun as (allowed & _ & Hrun);
    destruct allowed; simpl in Hrun;
    try (by apply throw_inv in Hrun as [_ ->]);
    apply bind_getRawValue_inv in Hrun as (obj & Hobj & Hrun);
    apply bind_resolveValue_inv in Hrun as (r & st1 & Hres & Hrun);
    destruct (resolveValue_unchanged _ _ _ _ Hres) as (Hs & Hpm & _);
    assert (producers st = [] → producers st1 = []) as Hprod.
  1,3: intros Hnil; destruct (rawValueOf obj key) as [r0|f]; simpl in Hres;
    [by injection Hres as _ <- | by rewrite Hnil in Hres].
  - by apply ret_inv in Hrun as [_ ->].
  - destruct r as [|j|nested];
      try (by apply ret_inv in Hrun as [_ ->]).
    destruct (IH _ _ _ _ _ Hrun) as (Hs' & Hpm' & Hprod').
    repeat split; [congruence..|auto].
Qed.

(** X4: a [read], whatever its path and its outcome, leaves every store and
    the permission registry as they were; the only state it can change is
    that of the producer functions it calls, and with no producer functions
    it changes nothing at all. *)
Theorem read_changes_no_store st this path out st' :
  read this path st = Some (out, st') →
  stores st' = stores st ∧ permissionsMap st' = permissionsMap st ∧
  (producers st = [] → st' = st).
Proof.
  intros (Hs & Hpm & Hprod)%read_from_unchanged.
  split; [done|]. split; [done|]. intros Hnil.
  specialize (Hprod Hnil). destruct st, st'. simpl in *. congruence.
Qed.

Lemma read_changes_no_store_witness :
  stores (invoked st_counter 0 counter) = stores st_counter.
Proof.
  apply (read_changes_no_store st_counter 0 "n" (Returns (RJson (num 1)))).
  vm_compute. reflexivity.
Defined.

(** X5: [entries], at whatever depth it returns, returns a result (it never
    throws) and leaves every store and the permission registry as they
    were. *)
Theorem entries_changes_no_store depth st this out st' :
  entries depth this st = Some (out, st') →
  (∃ result, out = Returns result) ∧
  stores st' = stores st ∧ permissionsMap st' = permissionsMap st.
Proof.
  intros Hrun. destruct out as [result|e].
  - split; [by exists result|].
    by apply (snapshot_state_unchanged st this result), (entries_sound depth).
  - by apply entries_never_throws in Hrun.
Qed.

Lemma entries_changes_no_store_witness :
  (∃ result, Returns [("n", num 1)] = Returns result) ∧
  stores (invoked st_counter 0 counter) = stores st_counter ∧
  permissionsMap (invoked st_counter 0 counter) = permissionsMap st_counter.
Proof.
  apply (entries_changes_no_store 1 st_counter 0).
  vm_compute. reflexivity.
Defined.

Lemma read_from_error rest :
  ∀ this key st e st',
    read_from this key rest st = Some (Throws e, st') →
    ∃ l k, k ∈ key :: rest ∧ e = ReadDenied k ∧
           allowedToRead st l k = Some false.
Proof.
  assert (∀ this key rest st e st',
    @throw StoreResult (ReadDenied key) st = Some (Throws e, st') →
    allowedToRead st this key = Some false →
    ∃ l k, k ∈ key :: rest ∧ e = ReadDenied k ∧
           allowedToRead st l k = Some false) as Hdenied.
  { intros this key rest0 st e st' [[= ->] _]%throw_inv Hfalse.
    exists this, key. split; [apply list_elem_of_here | done]. }
  induction rest as [|key' rest' IH]; intros this key st e st' Hrun;
    cbn [read_from] in Hrun;
    apply bind_gets_inv in Hrun as (allowed & Hallowed & Hrun);
    (destruct allowed; simpl in Hrun; [|by eapply Hdenied]);
    apply bind_getRawValue_inv in Hrun as (obj & Hobj & Hrun);
    apply bind_resolveValue_inv in Hrun as (r & st1 & Hres & Hrun).
  - by apply ret_inv in Hrun as [[=] _].
  - destruct r as [|j|nested]; try (by apply ret_inv in Hrun as [[=] _]).
    destruct (IH _ _ _ _ _ Hrun) as (l & k & Hk & -> & Hfalse).
    destruct (resolveValue_unchanged _ _ _ _ Hres) as (Hs & Hpm & _).
    exists l, k. split; [by apply list_elem_of_further|]. split; [done|].
    by rewrite <- (allowedToRead_same st st1).
Qed.

(** X6: along a path of ordinary segments, the only error a [read] throws
    is the read-denied error, and it names a segment of the path that some
    container on the way does not allow to be read; a missing key or a value
    that cannot be traversed is never an error. *)
Theorem read_throws_only_read_denied st this path e st' :
  intact st → ordinary_path path →
  read this path st = Some (Throws e, st') →
  ∃ container key,
    key ∈ split path ∧ e = ReadDenied key ∧
    allowedToRead st container key = Some false.
Proof.
  unfold read. intros _ _ Hrun.
  destruct (split path) as [|key rest] eqn:Hsplit;
    [by apply split_nonempty in Hsplit|].
  by apply read_from_error in Hrun.
Qed.

Lemma read_throws_only_read_denied_witness :
  ∃ container key,
    key ∈ split "x:y" ∧ ReadDenied "x" = ReadDenied key ∧
    allowedToRead st_none container key = Some false.
Proof.
  apply (read_throws_only_read_denied st_none 0 "x:y" (ReadDenied "x") st_none);
    [evaluated..|].
  vm_compute. reflexivity.
Defined.

(** ** Slot names and missing keys *)

(** X7: [getAllKeys] lists every slot name once: the own fields other than
    the two internal ones, and the keys of the dynamic map (among which the
    two internal names may occur). *)
Theorem getAllKeys_lists_slots_once st this obj :
  stores st !! this = Some obj →
  getAllKeys this st = Some (Returns (allKeysOf obj), st) ∧
  NoDup (allKeysOf obj) ∧
  (∀ k, k ∈ allKeysOf obj ↔
     (k ∈ (fields obj).*1 ∧ k ≠ "dynamicValues" ∧ k ≠ "defaultPolicy") ∨
     k ∈ (dynamicValues obj).*1).
Proof.
  intros Hobj. split; [|split].
  - unfold getAllKeys, gets. by rewrite Hobj.
  - apply unique_NoDup.
  - apply elem_of_allKeysOf.
Qed.

Lemma getAllKeys_lists_slots_once_witness :
  getAllKeys 0 st_empty_dp = Some (Returns ["defaultPolicy"], st_empty_dp).
Proof.
  exact (proj1 (getAllKeys_lists_slots_once st_empty_dp 0 _ eq_refl)).
Defined.

(** X8: reading a path whose first segment is an ordinary name, is readable
    and names no slot of the container returns [undefined], whatever the
    rest of the path, and changes nothing. *)
Theorem read_missing_key_is_undefined st this obj path key rest :
  stores st !! this = Some obj → intact st →
  split path = key :: rest → ordinary key →
  key ∉ allKeysOf obj →
  allowedToRead st this key = Some true →
  read this path st = Some (Returns RUndefined, st).
Proof.
  intros Hobj _ Hsplit _ Habsent Hallowed.
  rewrite (read_split _ _ _ _ Hsplit).
  rewrite (read_from_resolved this key rest st RUndefined st Hallowed).
  - by destruct rest.
  - apply (resolvedValueAt_result _ _ _ obj); [done|].
    by apply rawValueOf_absent.
Qed.

Lemma read_missing_key_is_undefined_witness :
  read 0 "nothing:here" st_k5 = Some (Returns RUndefined, st_k5).
Proof.
  apply (read_missing_key_is_undefined st_k5 0
           (withRawValue emptyStore "k" (json (num 5)))
           "nothing:here" "nothing" ["here"]);
    [reflexivity | evaluated | reflexivity | evaluated | evaluated
    | reflexivity].
Defined.

(** ** What a [write] can and cannot do *)

Lemma plain_value_kept conv value :
  isJSONObject value = false →
  match value with
  | SResult (RJson (JObj o)) => conv (JObj o)
  | _ => ret value
  end = ret value.
Proof. by destruct value as [[|[p|a|o]|n]|f]. Qed.

Lemma write_from_error conv rest :
  ∀ this key value st e st',
    isJSONObject value = false →
    write_from conv this key rest value st = Some (Throws e, st') →
    ∃ l k, k ∈ key :: rest ∧
      ((e = ReadDenied k ∧ allowedToRead st' l k = Some false) ∨
       (e = WriteDenied k ∧ allowedToWrite st' l k = Some false)).
Proof.
  induction rest as [|key' rest' IH]; intros this key value st e st' Hplain Hrun;
    cbn [write_from] in Hrun;
    apply bind_gets_inv in Hrun as (allowed & Hallowed & Hrun);
    destruct allowed; simpl in Hrun.
  - rewrite plain_value_kept in Hrun by done.
    unfold bind at 1 in Hrun. simpl in Hrun.
    apply bind_setRawValue_inv in Hrun as (obj & _ & Hrun).
    by apply ret_inv in Hrun as [[=] _].
  - apply throw_inv in Hrun as [[= ->] ->]. exists this, key.
    split; [apply list_elem_of_here | by right].
  - apply bind_getRawValue_inv in Hrun as (obj & Hobj & Hrun).
    apply bind_resolveValue_inv in Hrun as (r & st1 & Hres & Hrun).
    destruct (resolveValue_unchanged _ _ _ _ Hres) as (Hs & _ & _).
    assert (∃ l k, k ∈ key' :: rest' ∧
      ((e = ReadDenied k ∧ allowedToRead st' l k = Some false) ∨
       (e = WriteDenied k ∧ allowedToWrite st' l k = Some false)) ∨
      (e = WriteDenied key ∧ allowedToWrite st' this key = Some false))
      as Hcases.
    { destruct r as [|j|nested].
      3: { destruct (IH _ _ _ _ _ _ Hplain Hrun) as (l & k & ? & ?).
           exists l, k. by left. }
      all: apply bind_gets_inv in Hrun as (allowedW & HallowedW & Hrun);
        destruct allowedW; simpl in Hrun;
        [|apply throw_inv in Hrun as [[= ->] ->]; exists this, key; by right].
      all: rewrite (vivify_run this key _ st1 obj) in Hrun by by rewrite Hs.
      all: destruct (IH _ _ _ _ _ _ Hplain Hrun) as (l & k & ? & ?);
        exists l, k; by left. }
    destruct Hcases as (l & k & [[Hk Hk']|[-> Hw]]).
    + exists l, k. split; [by apply list_elem_of_further | done].
    + exists this, key. split; [apply list_elem_of_here | by right].
  - apply throw_inv in Hrun as [[= ->] ->]. exists this, key.
    split; [apply list_elem_of_here | by left].
Qed.

Lemma write_from_error_any conv rest :
  (∀ j st e st', conv j st = Some (Throws e, st') → access_denied e st') →
  ∀ this key value st e st',
    write_from conv this key rest value st = Some (Throws e, st') →
    access_denied e st'.
Proof.
  intros Hconv. induction rest as [|key' rest' IH];
    intros this key value st e st' Hrun; cbn [write_from] in Hrun;
    apply bind_gets_inv in Hrun as (allowed & Hallowed & Hrun);
    destruct allowed; cbn [negb] in Hrun.
  - apply bind_inv in Hrun as [(e' & Hcv & [= <-]) | (sv & st1 & _ & Hrun)].
    + destruct value as [[|[p|a|o]|n]|f]; try done. by eapply Hconv.
    + apply bind_setRawValue_inv in Hrun as (obj & _ & Hrun).
      by apply ret_inv in Hrun as [[=] _].
  - apply throw_inv in Hrun as [[= ->] ->]. exists this, key. by right.
  - apply bind_getRawValue_inv in Hrun as (obj & Hobj & Hrun).
    apply bind_resolveValue_inv in Hrun as (r & st1 & Hres & Hrun).
    destruct (resolveValue_unchanged _ _ _ _ Hres) as (Hs & _ & _).
    destruct r as [|j|nested]; [| |by eapply IH].
    all: apply bind_gets_inv in Hrun as (allowedW & HallowedW & Hrun);
      destruct allowedW; cbn [negb] in Hrun;
      [|apply throw_inv in Hrun as [[= ->] ->]; exists this, key; by right].
    all: rewrite (vivify_run this key _ st1 obj) in Hrun by (by rewrite Hs);
      by eapply IH.
  - apply throw_inv in Hrun as [[= ->] ->]. exists this, key. by left.
Qed.

Lemma writeEntries_with_error conv this entries :
  (∀ j st e st', conv j st = Some (Throws e, st') → access_denied e st') →
  Forall (fun entry => ∀ st e st',
            convertToStoreValue entry.2 st = Some (Throws e, st') →
            access_denied e st') entries →
  ∀ st e st',
    writeEntries_with conv convertToStoreValue this entries st
      = Some (Throws e, st') →
    access_denied e st'.
Proof.
  intros Hconv Hentries. induction Hentries as [|[key v] entries Hv _ IH];
    intros st e st' Hrun; cbn [writeEntries_with] in Hrun; [done|].
  apply bind_inv in Hrun as [(e' & Hcv & [= <-]) | (sv & st1 & _ & Hrun)];
    [by eapply Hv|].
  apply bind_inv in Hrun as [(e' & Hw & [= <-]) | (w & st2 & _ & Hrun)].
  - by eapply write_from_error_any.
  - by eapply IH.
Qed.

Lemma convertToStoreValue_error j :
  ∀ st e st', convertToStoreValue j st = Some (Throws e, st') →
  access_denied e st'.
Proof.
  induction j as [p|a|o IH] using JSONValue_ind; intros st e st' Hrun;
    [done..|].
  rewrite convertToStoreValue_obj in Hrun.
  unfold bind at 1 in Hrun. simpl in Hrun.
  apply bind_inv in Hrun as [(e' & Hw & [= <-]) | (w & st2 & _ & Hret)];
    [|done].
  eapply writeEntries_with_error; [|exact IH|exact Hw]. by intros.
Qed.

(** X9: along a path of ordinary segments and whatever the value (the
    keys of a plain object being ordinary as well), a [write] throws
    nothing but the read-denied and the write-denied error, for a key that
    some container does not allow to be read, respectively written; when
    the value is not a plain object, that key is a segment of the path. *)
Theorem write_throws_only_access_denied st this path value e st' :
  intact st → ordinary_path path → ordinary_value value →
  write this path value st = Some (Throws e, st') →
  ∃ container key,
    ((e = ReadDenied key ∧ allowedToRead st' container key = Some false) ∨
     (e = WriteDenied key ∧ allowedToWrite st' container key = Some false)) ∧
    (isJSONObject value = false → key ∈ split path).
Proof.
  unfold write, write_with. intros _ _ _ Hrun.
  destruct (split path) as [|key rest] eqn:Hsplit;
    [by apply split_nonempty in Hsplit|]. cbn [hd tl] in Hrun.
  destruct (isJSONObject value) eqn:Hplain.
  - apply (write_from_error_any _ _ convertToStoreValue_error) in Hrun
      as (container & k & Hdenied).
    by exists container, k.
  - apply write_from_error in Hrun as (container & k & Hk & Hdenied); [|done].
    by exists container, k.
Qed.

Lemma write_throws_only_access_denied_witness :
  ∃ container key,
    ((WriteDenied "x" = ReadDenied key ∧
      allowedToRead st_none container key = Some false) ∨
     (WriteDenied "x" = WriteDenied key ∧
      allowedToWrite st_none container key = Some false)) ∧
    (isJSONObject (json (num 1)) = false → key ∈ split "x").
Proof.
  apply (write_throws_only_access_denied st_none 0 "x" (json (num 1))
           (WriteDenied "x") st_none); [evaluated..|].
  vm_compute. reflexivity.
Defined.

(** X10: no [write] along ordinary segments, whatever its value (the keys
    of a plain object being ordinary as well) and its outcome, changes the
    permission registry or the answer of [allowedToRead] and
    [allowedToWrite] for any key of any container that existed before; and
    no container disappears. *)
Theorem write_changes_no_permission st this path value out st' :
  intact st → ordinary_path path → ordinary_value value →
  write this path value st = Some (out, st') →
  permissionsMap st' = permissionsMap st ∧
  length (stores st) ≤ length (stores st') ∧
  (∀ l k, l < length (stores st) →
     allowedToRead st' l k = allowedToRead st l k ∧
     allowedToWrite st' l k = allowedToWrite st l k).
Proof.
  intros _ _ _ Hpolicy%write_policy.
  split; [apply Hpolicy|]. split; [by apply policy_preserved_length|].
  intros l k [o Hl]%lookup_lt_is_Some_2. unfold allowedToRead, allowedToWrite.
  by rewrite (getPermissionForKey_preserved _ _ l o k Hpolicy Hl).
Qed.

Lemma write_changes_no_permission_witness :
  allowedToRead st_writeonly_dp 0 "defaultPolicy"
    = allowedToRead st_writeonly 0 "defaultPolicy" ∧
  allowedToWrite st_writeonly_dp 0 "defaultPolicy"
    = allowedToWrite st_writeonly 0 "defaultPolicy".
Proof.
  refine (proj2 (proj2 (write_changes_no_permission st_writeonly 0
    "defaultPolicy" (json (num 5)) (Returns (json (num 5))) st_writeonly_dp
    _ _ _ _)) 0 "defaultPolicy" _); [evaluated..| |].
  - vm_compute. reflexivity.
  - simpl. lia.
Defined.

(** ** [convertToStoreValue] *)

(** X11: [convertToStoreValue] only creates stores: it leaves every store
    that exists, every closure and the registry as they were.  A plain
    object becomes a reference to a store created by the call; any other
    value (a primitive, [null], an array, whatever it contains) is returned
    as it is, with nothing created. *)
Theorem convertToStoreValue_only_creates j st out st' :
  convertToStoreValue j st = Some (out, st') →
  (∀ l obj, stores st !! l = Some obj → stores st' !! l = Some obj) ∧
  producers st' = producers st ∧ permissionsMap st' = permissionsMap st ∧
  (∀ storeValue, out = Returns storeValue →
     match j with
     | JObj _ =>
         storeValue = ref (length (stores st)) ∧
         length (stores st) < length (stores st')
     | _ => storeValue = json j ∧ st' = st
     end).
Proof.
  intros Hrun.
  destruct (convertToStoreValue_frame _ _ _ _ Hrun) as (Hkeep & Hprod & Hpm).
  split; [done|]. split; [done|]. split; [done|].
  intros storeValue ->. destruct j as [p|a|o].
  - by apply ret_inv in Hrun as [[= ->] ->].
  - by apply ret_inv in Hrun as [[= ->] ->].
  - by apply (convertToStoreValue_obj_result o).
Qed.

Lemma convertToStoreValue_only_creates_witness :
  stores st_in2 !! 0 = Some emptyStore ∧
  ref 1 = ref (length (stores st_empty)) ∧
  length (stores st_empty) < length (stores st_in2).
Proof.
  destruct (convertToStoreValue_only_creates (JObj [("in", num 2)]) st_empty
    (Returns (ref 1)) st_in2 eq_refl) as (Hkeep & _ & _ & Hresult).
  split; [exact (Hkeep 0 emptyStore eq_refl) | exact (Hresult _ eq_refl)].
Defined.

(** ** The value a [write] returns *)





(** ** A single-segment [write] touches one slot *)





(** ** Slots are never removed *)

Lemma keeps_slots_refl obj : keeps_slots obj obj.
Proof. by split. Qed.

Lemma keeps_slots_trans obj1 obj2 obj3 :
  keeps_slots obj1 obj2 → keeps_slots obj2 obj3 → keeps_slots obj1 obj3.
Proof. intros [Hf12 Hk12] [Hf23 Hk23]. split; [congruence | auto]. Qed.

Lemma keeps_slots_set obj key value :
  keeps_slots obj (withRawValue obj key value).
Proof.
  split; [apply withRawValue_fields_keys|]. intros k Hk.
  rewrite allKeysOf_slot_names in *.
  apply elem_of_slot_names_withRawValue. by left.
Qed.

Lemma objectwise_refl st : objectwise keeps_slots st st.
Proof. intros l obj Hl. exists obj. split; [done | apply keeps_slots_refl]. Qed.

Lemma objectwise_trans st1 st2 st3 :
  objectwise keeps_slots st1 st2 → objectwise keeps_slots st2 st3 →
  objectwise keeps_slots st1 st3.
Proof.
  intros H12 H23 l obj Hl. destruct (H12 l obj Hl) as (obj2 & Hl2 & Hr2).
  destruct (H23 l obj2 Hl2) as (obj3 & Hl3 & Hr3).
  exists obj3. split; [done | by eapply keeps_slots_trans].
Qed.

Lemma objectwise_same st st' :
  stores st' = stores st → objectwise keeps_slots st st'.
Proof.
  intros Hs l obj Hl. exists obj. rewrite Hs.
  split; [done | apply keeps_slots_refl].
Qed.

Lemma objectwise_stored st this obj key value :
  stores st !! this = Some obj →
  objectwise keeps_slots st (stored st this obj key value).
Proof.
  intros Hobj l o Hl. destruct (decide (l = this)) as [->|Hne].
  - rewrite Hobj in Hl. injection Hl as <-.
    exists (withRawValue obj key value).
    split; [by apply stored_lookup | apply keeps_slots_set].
  - exists o. rewrite stored_lookup_ne by done.
    split; [done | apply keeps_slots_refl].
Qed.

Lemma objectwise_newStore st :
  objectwise keeps_slots st (set_stores (fun ss => ss ++ [emptyStore]) st).
Proof.
  intros l o Hl. exists o. simpl.
  rewrite (lookup_app_l_Some _ _ _ _ Hl).
  split; [done | apply keeps_slots_refl].
Qed.

Lemma objectwise_vivify st this obj key :
  stores st !! this = Some obj →
  objectwise keeps_slots st (vivify st this obj key).
Proof.
  intros Hobj.
  apply (objectwise_trans _ _ _ (objectwise_newStore st)).
  change (vivify st this obj key)
    with (stored (set_stores (fun ss => ss ++ [emptyStore]) st) this obj key
            (ref (length (stores st)))).
  apply objectwise_stored. simpl. by apply lookup_app_l_Some.
Qed.

Lemma write_from_objectwise conv rest :
  (∀ j st out st', conv j st = Some (out, st') → objectwise keeps_slots st st') →
  ∀ this key value st out st',
    write_from conv this key rest value st = Some (out, st') →
    objectwise keeps_slots st st'.
Proof.
  intros Hconv. induction rest as [|key' rest' IH];
    intros this key value st out st' Hrun; cbn [write_from] in Hrun;
    apply bind_gets_inv in Hrun as (allowed & _ & Hrun);
    destruct allowed; cbn [negb] in Hrun;
    try (apply throw_inv in Hrun as [_ ->]; apply objectwise_refl).
  - assert (∀ out1 st1,
      match value with
      | SResult (RJson (JObj o)) => conv (JObj o)
      | _ => ret value
      end st = Some (out1, st1) → objectwise keeps_slots st st1) as Hvalue.
    { intros out1 st1 Hcv. destruct value as [[|[p|a|o]|n]|f];
        try (apply ret_inv in Hcv as [_ ->]; apply objectwise_refl).
      by eapply Hconv. }
    apply bind_inv in Hrun as [(e & Hcv & _) | (sv & st1 & Hcv & Hrun)];
      [by eapply Hvalue|].
    apply bind_setRawValue_inv in Hrun as (obj & Hobj & Hret).
    apply ret_inv in Hret as [_ ->].
    apply (objectwise_trans _ st1); [by eapply Hvalue|].
    by apply objectwise_stored.
  - apply bind_getRawValue_inv in Hrun as (obj & Hobj & Hrun).
    apply bind_resolveValue_inv in Hrun as (r & st1 & Hres & Hrun).
    destruct (resolveValue_unchanged _ _ _ _ Hres) as (Hs & _ & _).
    apply (objectwise_trans _ st1); [by apply objectwise_same|].
    assert (stores st1 !! this = Some obj) as Hobj1 by by rewrite Hs.
    destruct r as [|j|nested]; [| |by eapply IH].
    all: apply bind_gets_inv in Hrun as (allowedW & _ & Hrun);
      destruct allowedW; cbn [negb] in Hrun;
      [|apply throw_inv in Hrun as [_ ->]; apply objectwise_refl];
      rewrite (vivify_run this key _ st1 obj Hobj1) in Hrun;
      apply (objectwise_trans _ (vivify st1 this obj key));
      [by apply objectwise_vivify | by eapply IH].
Qed.

Lemma writeEntries_with_objectwise conv this entries :
  (∀ j st out st', conv j st = Some (out, st') → objectwise keeps_slots st st') →
  Forall (fun entry => ∀ st out st',
            convertToStoreValue entry.2 st = Some (out, st') →
            objectwise keeps_slots st st') entries →
  ∀ st out st',
    writeEntries_with conv convertToStoreValue this entries st = Some (out, st') →
    objectwise keeps_slots st st'.
Proof.
  intros Hconv Hentries. induction Hentries as [|[key v] entries Hv _ IH];
    intros st out st' Hrun; cbn [writeEntries_with] in Hrun.
  - apply ret_inv in Hrun as [_ ->]. apply objectwise_refl.
  - apply bind_inv in Hrun as [(e & Hcv & _) | (sv & st1 & Hcv & Hrun)];
      [by eapply Hv|].
    apply (objectwise_trans _ st1); [by eapply Hv|].
    apply bind_inv in Hrun as [(e & Hw & _) | (w & st2 & Hw & Hrun)].
    + by eapply write_from_objectwise.
    + apply (objectwise_trans _ st2); [by eapply write_from_objectwise|].
      by eapply IH.
Qed.

Lemma convertToStoreValue_objectwise j :
  ∀ st out st', convertToStoreValue j st = Some (out, st') →
  objectwise keeps_slots st st'.
Proof.
  induction j as [p|a|o IH] using JSONValue_ind; intros st out st' Hrun.
  - apply ret_inv in Hrun as [_ ->]. apply objectwise_refl.
  - apply ret_inv in Hrun as [_ ->]. apply objectwise_refl.
  - rewrite convertToStoreValue_obj in Hrun.
    unfold bind at 1 in Hrun. simpl in Hrun.
    apply (objectwise_trans _ _ _ (objectwise_newStore st)).
    apply bind_inv in Hrun as [(e & Hw & _) | (w & st2 & Hw & Hret)].
    + eapply writeEntries_with_objectwise; [|exact IH|exact Hw]. by intros.
    + apply ret_inv in Hret as [_ ->].
      eapply writeEntries_with_objectwise; [|exact IH|exact Hw]. by intros.
Qed.

(** X14: no [write] along ordinary segments, whatever its value (the keys
    of a plain object being ordinary as well) and its outcome, removes a
    slot name from any container or changes the set of own fields of any
    container: slots are only ever added, and new keys go to the dynamic
    map. *)
Theorem write_never_removes_a_slot st this path value out st' :
  intact st → ordinary_path path → ordinary_value value →
  write this path value st = Some (out, st') →
  ∀ l obj, stores st !! l = Some obj →
    ∃ obj', stores st' !! l = Some obj' ∧
            (fields obj').*1 = (fields obj).*1 ∧
            ∀ k, k ∈ allKeysOf obj → k ∈ allKeysOf obj'.
Proof.
  intros _ _ _ Hrun. by apply (write_from_objectwise convertToStoreValue _
    convertToStoreValue_objectwise _ _ _ _ _ _ Hrun).
Qed.

Lemma write_never_removes_a_slot_witness :
  ∃ obj',
    stores (state_after (write 0 "j:i" (json (num 6))) st_k5) !! 0 = Some obj' ∧
    (fields obj').*1 = (fields (withRawValue emptyStore "k" (json (num 5)))).*1 ∧
    ∀ k, k ∈ allKeysOf (withRawValue emptyStore "k" (json (num 5))) →
         k ∈ allKeysOf obj'.
Proof.
  apply (write_never_removes_a_slot st_k5 0 "j:i" (json (num 6))
           (Returns (json (num 6)))
           (state_after (write 0 "j:i" (json (num 6))) st_k5));
    [evaluated | evaluated | evaluated | reflexivity..].
Defined.

(** ** Round trip through any path *)

Lemma write_from_fresh_roundtrip value rest :
  isJSONObject value = false →
  ∀ n key st,
    stores st !! n = Some emptyStore → S n = length (stores st) →
    (∀ k, k ∈ key :: rest → unrestricted st k) →
    ∃ st',
      write_from convertToStoreValue n key rest value st
        = Some (Returns value, st') ∧
      (∀ l, l < n → stores st' !! l = stores st !! l) ∧
      permissionsMap st' = permissionsMap st ∧
      read_from n key rest st' = resolveValue value st'.
Proof.
  intros Hplain. induction rest as [|key' rest' IH]; intros n key st Hn Hlast Hun.
  - destruct (allowed_unrestricted st n emptyStore key Hn eq_refl)
      as [Hread Hwrite]; [apply Hun, list_elem_of_here|].
    exists (stored st n emptyStore key value).
    rewrite write_from_terminal, (storeTerminal_plain _ _ _ _ emptyStore) by done.
    split; [done|]. split; [|split; [done|]].
    + intros l Hl. apply stored_lookup_ne. lia.
    + rewrite (read_from_terminal_resolves n key _
                 (withRawValue emptyStore key value)).
      * by rewrite rawValueOf_withRawValue.
      * by apply stored_lookup.
      * unfold allowedToRead. by rewrite getPermissionForKey_stored.
  - assert (unrestricted st key) as Hkey by apply Hun, list_elem_of_here.
    rewrite write_from_into_empty by done.
    set (stA := vivify st n emptyStore key).
    destruct (IH (length (stores st)) key' stA) as (st' & Hwrite & Hkeep & Hpm & Hread).
    { by apply vivify_lookup_fresh. }
    { subst stA. by rewrite vivify_length. }
    { intros k Hk. apply (unrestricted_same st); [done|].
      by apply Hun, list_elem_of_further. }
    exists st'. split; [done|]. split; [|split; [by rewrite Hpm|]].
    + intros l Hl. rewrite Hkeep by lia. subst stA.
      apply (vivify_lookup_below _ _ _ _ _ Hn); lia.
    + assert (stores st' !! n
              = Some (withRawValue emptyStore key (ref (length (stores st)))))
        as Hn'.
      { rewrite Hkeep by lia. subst stA. by apply vivify_lookup. }
      rewrite (read_from_resolved n key (key' :: rest') st'
                 (RStore (length (stores st))) st'); [done| |].
      * apply (allowed_unrestricted st' n _ key Hn');
          [by rewrite (proj2 (withRawValue_policy _ _ _))|].
        apply (unrestricted_same st); [by rewrite Hpm | done].
      * apply (resolvedValueAt_result _ _ _ _ _ Hn').
        apply rawValueOf_withRawValue.
Qed.

(** X15: for a value that is not a plain object and a path of any length,
    of ordinary segments, whose first segment is readable and writable on
    the container, whose further segments carry no restricting declaration,
    and whose first slot, when the path goes on beyond it, does not already
    resolve to a container, [write(path, value)] returns the value, and a
    [read(path)] after it resolves that very value. *)
Theorem write_then_read_any_fresh_path st this obj path key rest value :
  stores st !! this = Some obj → intact st → ordinary_path path →
  split path = key :: rest →
  isJSONObject value = false →
  allowedToRead st this key = Some true →
  allowedToWrite st this key = Some true →
  (∀ k, k ∈ rest → unrestricted st k) →
  (rest = [] ∨
   ∃ r st1, resolvedValueAt this key st = Some (Returns r, st1) ∧
            is_store r = false) →
  ∃ st',
    write this path value st = Some (Returns value, st') ∧
    read this path st' = resolveValue value st'.
Proof.
  intros Hobj _ _ Hsplit Hplain Hread Hwrite Hun Hfresh.
  unfold write. rewrite (write_split _ _ _ _ _ _ Hsplit), (read_split _ _ _ _ Hsplit).
  destruct rest as [|key' rest'].
  - exists (stored st this obj key value).
    rewrite write_from_terminal, (storeTerminal_plain _ _ _ _ obj) by done.
    split; [done|].
    rewrite (read_from_terminal_resolves this key _ (withRawValue obj key value)).
    + by rewrite rawValueOf_withRawValue.
    + by apply stored_lookup.
    + unfold allowedToRead. rewrite getPermissionForKey_stored by done.
      exact Hread.
  - destruct Hfresh as [[=] | (r & st1 & Hres & Hr)].
    destruct (resolvedValueAt_unchanged _ _ _ _ _ Hres) as (Hs & Hpm & _).
    assert (stores st1 !! this = Some obj) as Hobj1 by by rewrite Hs.
    rewrite (write_from_replace _ _ _ _ _ _ st r st1 obj) by done.
    set (stA := vivify st1 this obj key).
    destruct (write_from_fresh_roundtrip value rest' Hplain
                (length (stores st1)) key' stA)
      as (st' & Hw & Hkeep & Hpm' & Hr').
    { by apply vivify_lookup_fresh. }
    { subst stA. by rewrite vivify_length. }
    { intros k Hk. apply (unrestricted_same st); [by rewrite <- Hpm | by apply Hun]. }
    exists st'. split; [done|].
    pose proof (lookup_lt_Some _ _ _ Hobj1) as Hlt.
    assert (stores st' !! this
            = Some (withRawValue obj key (ref (length (stores st1))))) as Hthis.
    { rewrite Hkeep by done. subst stA. by apply vivify_lookup. }
    rewrite (read_from_resolved this key (key' :: rest') st'
               (RStore (length (stores st1))) st'); [done| |].
    + unfold allowedToRead.
      rewrite (getPermissionForKey_ext st st' this obj
                 (withRawValue obj key (ref (length (stores st1)))));
        [exact Hread | by rewrite Hpm', <- Hpm | done | done | ..];
        apply withRawValue_policy.
    + apply (resolvedValueAt_result _ _ _ _ _ Hthis).
      apply rawValueOf_withRawValue.
Qed.

Lemma write_then_read_any_fresh_path_witness :
  ∃ st',
    write 0 "p:q:r:s" (SFun 0) st_counter = Some (Returns (SFun 0), st') ∧
    read 0 "p:q:r:s" st' = resolveValue (SFun 0) st'.
Proof.
  apply (write_then_read_any_fresh_path st_counter 0
           (mkStore [StorePrototype; ObjectPrototype] [] PermRW [("n", SFun 0)])
           "p:q:r:s" "p" ["q"; "r"; "s"] (SFun 0));
    [reflexivity | evaluated | evaluated | reflexivity..| |].
  - intros k _ owner permission Hdeclared. vm_compute in Hdeclared.
    discriminate.
  - right. exists RUndefined, st_counter. split; reflexivity.
Defined.

(** ** Round trip through [convertToStoreValue] and [entries] *)

(** X16: converting a plain object whose keys, at every level of nesting,
    are ordinary names, distinct and free of colons, and for whose keys the
    registry declares no restriction, returns a new store, and [entries()]
    on that store gives the object back: nested objects as nested objects,
    arrays, primitives and [null] as they are. *)
Theorem convert_then_entries_roundtrip o st :
  well_keyed (JObj o) → ordinary_keys (JObj o) →
  (∀ k, k ∈ object_keys (JObj o) → unrestricted st k) →
  ∃ st',
    convertToStoreValue (JObj o) st
      = Some (Returns (ref (length (stores st))), st') ∧
    ∀ depth, json_depth (JObj o) ≤ depth →
      entries depth (length (stores st)) st' = Some (Returns o, st').
Proof.
  intros Hwk _ Hun.
  destruct (convertToStoreValue_faithful (JObj o) st Hwk Hun)
    as (sv & st' & Hcv & _ & Hshown).
  destruct (Hshown st' (agrees_refl _ _ _)) as (l & -> & Hentries & _).
  destruct (convertToStoreValue_obj_result o _ _ _ Hcv) as [[= ->] _].
  by exists st'.
Qed.

Lemma convert_then_entries_roundtrip_witness :
  ∃ st',
    convertToStoreValue (JObj config) st_empty = Some (Returns (ref 1), st') ∧
    ∀ depth, json_depth (JObj config) ≤ depth →
      entries depth 1 st' = Some (Returns config, st').
Proof.
  apply (convert_then_entries_roundtrip config st_empty).
  - vm_compute. repeat split; repeat constructor;
      rewrite ?elem_of_cons, ?elem_of_nil; intuition discriminate.
  - evaluated.
  - intros k _ owner permission Hdeclared. vm_compute in Hdeclared.
    discriminate.
Defined.

(** X17: on a container without fields or slots whose default policy is
    read-write, importing with [writeEntries] a plain object whose keys, at
    every level of nesting, are ordinary names, distinct, free of colons and
    unrestricted succeeds; [entries()] then returns the object, and [read(path)] for
    every path that leads to a value in the object returns that value (for
    a nested plain object, a container whose snapshot is that object). *)
Theorem writeEntries_then_query st s protos o :
  stores st !! s = Some (mkStore protos [] PermRW []) →
  well_keyed (JObj o) → ordinary_keys (JObj o) →
  (∀ k, k ∈ object_keys (JObj o) → unrestricted st k) →
  ∃ st',
    writeEntries s o st = Some (Returns tt, st') ∧
    (∀ depth, json_depth (JObj o) ≤ depth →
       entries depth s st' = Some (Returns o, st')) ∧
    (∀ path key rest v,
       split path = key :: rest → json_at o key rest = Some v →
       ∃ r, read s path st' = Some (Returns r, st') ∧
            match v with
            | JObj o' =>
                ∃ l, r = RStore l ∧
                     ∀ depth, json_depth v ≤ depth →
                       entries depth l st' = Some (Returns o', st')
            | _ => r = RJson v
            end).
Proof.
  intros Hs Hwk _ Hun. apply well_keyed_obj in Hwk as [Hnodup Hkeys].
  destruct (writeEntries_renders o) with (st := st) (s := s) (protos := protos)
    (dyn := @nil (string * StoreValue))
    as (st' & dyn' & Hloop & Hs' & _ & Hlen & Hpm & Hall); [|done|done|done|..].
  { apply Forall_forall. intros entry _. apply convertToStoreValue_faithful. }
  { intros entry k Hin Hk. by apply Hun, (elem_of_object_keys o entry). }
  pose proof (lookup_lt_Some _ _ _ Hs') as Hlt.
  destruct (rendered_store st' 0 (length (stores st')) s protos dyn' o)
    with (st'' := st') as (l & [= <-] & Hentries & Hreads);
    [done|lia|done| | |apply agrees_refl|].
  { intros k Hk. apply (unrestricted_same st); [done|].
    apply list_elem_of_fmap in Hk as (entry & -> & Hin).
    apply Hun, (elem_of_object_keys o entry); [done | by left]. }
  { eapply Forall2_impl; [exact Hall|]. intros slot entry [Heq Hr].
    split; [done|].
    apply (renders_mono st' st' _ _ _ _ _ _ Hr); [lia|lia|done|done]. }
  exists st'. split; [done|]. split; [done|].
  intros path key rest v Hsplit Hat.
  destruct (Hreads key rest v Hat) as (r & Hr & Hshown).
  exists r. rewrite (read_split _ _ _ _ Hsplit). split; [done|].
  destruct v as [p|a|o']; simpl in Hshown; [by injection Hshown as ->..|].
  destruct Hshown as (l' & [= ->] & Hsub). by exists l'.
Qed.

Lemma writeEntries_then_query_witness :
  ∃ st',
    writeEntries 0 config st_empty = Some (Returns tt, st') ∧
    entries 3 0 st' = Some (Returns config, st') ∧
    read 0 "limits:max" st' = Some (Returns (RJson (num 3)), st').
Proof.
  destruct (writeEntries_then_query st_empty 0 [StorePrototype; ObjectPrototype]
              config eq_refl) as (st' & Hwrite & Hentries & Hread).
  - vm_compute. repeat split; repeat constructor;
      rewrite ?elem_of_cons, ?elem_of_nil; intuition discriminate.
  - evaluated.
  - intros k _ owner permission Hdeclared. vm_compute in Hdeclared.
    discriminate.
  - exists st'. split; [exact Hwrite|]. split.
    + apply Hentries. vm_compute. lia.
    + destruct (Hread "limits:max" "limits" ["max"] (num 3) eq_refl eq_refl)
        as (r & Hr & ->). exact Hr.
Defined.

(** ** Paths *)

(** X18: the rest of a split path, joined with colons and split again as
    the recursive calls of [read] and [write] do, is the rest itself, empty
    segments included; so each level of nesting consumes exactly the first
    segment of the path it is given. *)
Theorem path_rest_survives_join path key rest nested st value :
  split path = key :: rest → rest ≠ [] →
  split (join rest) = rest ∧
  read nested (join rest) st = read_from nested (hd "" rest) (tl rest) st ∧
  write nested (join rest) value st
    = write_from convertToStoreValue nested (hd "" rest) (tl rest) value st.
Proof.
  intros Hsplit Hrest.
  pose proof (split_rest path key rest Hsplit Hrest) as Hjoin.
  split; [done|]. unfold read, write, write_with. by rewrite Hjoin.
Qed.

Lemma path_rest_survives_join_witness :
  split (join [""; "b"; ""]) = [""; "b"; ""].
Proof.
  refine (proj1 (path_rest_survives_join "a::b:" "a" [""; "b"; ""] 0 st_empty
                   undefined eq_refl _)).
  discriminate.
Defined.

(** ** Failures of an import and of a deep write *)

(** X19: on entries whose keys, at every level of nesting, are paths of
    ordinary segments, [writeEntries] throws nothing but the read-denied and
    the write-denied error, for a key that some container does not allow to
    be read, respectively written; when it throws, no container that
    existed has lost a slot, and no permission has changed. *)
Theorem writeEntries_throws_only_access_denied st this entries e st' :
  intact st → ordinary_keys (JObj entries) →
  writeEntries this entries st = Some (Throws e, st') →
  access_denied e st' ∧
  permissionsMap st' = permissionsMap st ∧
  (∀ l obj, stores st !! l = Some obj →
     ∃ obj', stores st' !! l = Some obj' ∧
             defaultPolicy obj' = defaultPolicy obj ∧
             ∀ k, k ∈ allKeysOf obj → k ∈ allKeysOf obj').
Proof.
  intros _ _ Hrun. split; [|split].
  - apply (writeEntries_with_error convertToStoreValue this entries
             convertToStoreValue_error) in Hrun; [done|].
    apply Forall_forall. intros entry _. apply convertToStoreValue_error.
  - by apply writeEntries_policy in Hrun as [Hpm _].
  - intros l obj Hl.
    pose proof (writeEntries_policy _ _ _ _ _ Hrun) as [_ Hpolicy].
    destruct (Hpolicy l obj Hl) as (obj1 & Hl1 & _ & Hdefault).
    assert (objectwise keeps_slots st st') as Hslots.
    { eapply (writeEntries_with_objectwise convertToStoreValue this entries);
        [apply convertToStoreValue_objectwise| |exact Hrun].
      apply Forall_forall. intros entry _. apply convertToStoreValue_objectwise. }
    destruct (Hslots l obj Hl) as (obj2 & Hl2 & _ & Hkeys).
    rewrite Hl1 in Hl2. injection Hl2 as <-. by exists obj1.
Qed.

Lemma writeEntries_throws_only_access_denied_witness :
  access_denied (WriteDenied "b")
    (stored st_readonly_b 0 emptyStore "a" (json (num 1))).
Proof.
  refine (proj1 (writeEntries_throws_only_access_denied st_readonly_b 0
                   entries_abc (WriteDenied "b") _ _ _ _)); [evaluated..|].
  vm_compute. reflexivity.
Defined.

(** X20: a [write] that has replaced the slot of its first segment by a
    new container and is then denied at the next segment by that new
    container throws the access error for the next segment and rolls
    nothing back: the slot keeps the new, empty container and its old value
    is gone. *)
Theorem denied_deep_write_is_not_rolled_back
    st this obj path key key' rest' value r st1 :
  stores st !! this = Some obj →
  split path = key :: key' :: rest' →
  allowedToRead st this key = Some true →
  allowedToWrite st this key = Some true →
  resolvedValueAt this key st = Some (Returns r, st1) → is_store r = false →
  let fresh := length (stores st1) in
  let st2 := vivify st1 this obj key in
  (if bool_decide (rest' = []) then allowedToWrite st2 fresh key'
   else allowedToRead st2 fresh key') = Some false →
  write this path value st
    = Some (Throws (if bool_decide (rest' = []) then WriteDenied key'
                    else ReadDenied key'), st2) ∧
  stores st2 !! fresh = Some emptyStore ∧
  ∃ obj2, stores st2 !! this = Some obj2 ∧ rawValueOf obj2 key = ref fresh.
Proof.
  intros Hobj Hsplit Hread Hwrite Hres Hr fresh st2 Hdenied.
  destruct (resolvedValueAt_unchanged _ _ _ _ _ Hres) as (Hs & _ & _).
  assert (stores st1 !! this = Some obj) as Hobj1 by by rewrite Hs.
  split; [|split].
  - unfold write. rewrite (write_split _ _ _ _ _ _ Hsplit).
    rewrite (write_from_replace _ _ _ _ _ _ st r st1 obj) by done.
    destruct rest' as [|key'' rest''].
    + by apply write_from_terminal_denied.
    + by apply write_from_read_denied.
  - by apply vivify_lookup_fresh.
  - eexists. split; [by apply vivify_lookup|]. apply rawValueOf_withRawValue.
Qed.

Lemma denied_deep_write_is_not_rolled_back_witness :
  write 0 "a:b:c" (json (num 1)) st_b_none
  = Some (Throws (ReadDenied "b"), vivify st_b_none 0 emptyStore "a").
Proof.
  refine (proj1 (denied_deep_write_is_not_rolled_back st_b_none 0 emptyStore
    "a:b:c" "a" "b" ["c"] (json (num 1)) RUndefined st_b_none
    eq_refl eq_refl _ _ eq_refl eq_refl _)); vm_compute; reflexivity.
Defined.
